(** * english-validator: a shallow embedding of [src/index.ts]

    The development follows the layout of the TypeScript module:
    JavaScript strings and numbers, the regular-expression engine the
    patterns run on, the insertion-ordered [Map] behind the two caches, and
    then the functions of [index.ts] in their source order.

    Parameters of the model: the English dictionary and the geographical
    term table of [./dictionary] (data), the [francAll] trigram identifier
    of the [franc] package, and the Unicode tables of the JavaScript
    runtime (case mappings and the Letter category). *)

From Stdlib Require Import String Ascii.
From Stdlib Require Import List Bool Arith NArith ZArith Lia Sorted.
From Stdlib Require Import Floats.
From Stdlib Require Uint63.
Import ListNotations.

Local Open Scope list_scope.

(** Decimal literals stand for the nearest binary64 value, as in JavaScript. *)
#[local] Set Warnings "-inexact-float".

(* ------------------------------------------------------------------ *)
(** ** JavaScript strings: sequences of UTF-16 code units *)

Module JSString.

Definition jsstring := list N.

(** Source literals are written as UTF-8 Rocq strings and converted:
    UTF-8 bytes to code points, code points to UTF-16 code units. *)
Fixpoint utf8Decode (pending : nat) (acc : N) (bs : list N) : list N :=
  match bs with
  | [] => []
  | b :: t =>
      match pending with
      | O =>
          if (b <? 128)%N then b :: utf8Decode 0 0%N t
          else if (b <? 224)%N then utf8Decode 1 (N.land b 31) t
          else if (b <? 240)%N then utf8Decode 2 (N.land b 15) t
          else utf8Decode 3 (N.land b 7) t
      | S O => (acc * 64 + N.land b 63)%N :: utf8Decode 0 0%N t
      | S p => utf8Decode p (acc * 64 + N.land b 63)%N t
      end
  end.

Definition utf16 (cp : N) : jsstring :=
  if (cp <? 65536)%N then [cp]
  else [(55296 + (cp - 65536) / 1024)%N; (56320 + (cp - 65536) mod 1024)%N].

Definition str (s : string) : jsstring :=
  flat_map utf16 (utf8Decode 0 0%N (map N_of_ascii (list_ascii_of_string s))).

Definition isHighSurrogate (c : N) : bool := ((55296 <=? c) && (c <=? 56319))%N.
Definition isLowSurrogate (c : N) : bool := ((56320 <=? c) && (c <=? 57343))%N.

(** The code points of a string, as a [u]-flagged regular expression and
    [AdvanceStringIndex] see it: a well-formed surrogate pair is one
    element, a lone surrogate stands for itself. *)
Fixpoint codePointsFrom (pendingHigh : option N) (s : jsstring) : list N :=
  match s with
  | [] => match pendingHigh with Some h => [h] | None => [] end
  | c :: t =>
      match pendingHigh with
      | Some h =>
          if isLowSurrogate c
          then (65536 + (h - 55296) * 1024 + (c - 56320))%N :: codePointsFrom None t
          else h :: (if isHighSurrogate c then codePointsFrom (Some c) t
                     else c :: codePointsFrom None t)
      | None =>
          if isHighSurrogate c then codePointsFrom (Some c) t
          else c :: codePointsFrom None t
      end
  end.

Definition codePoints (s : jsstring) : list N := codePointsFrom None s.
Definition fromCodePoints (cps : list N) : jsstring := flat_map utf16 cps.

(** ECMAScript [WhiteSpace] and [LineTerminator]: what [trim] strips and
    what [\s] matches. *)
Definition isLineTerminator (c : N) : bool :=
  ((c =? 10) || (c =? 13) || (c =? 8232) || (c =? 8233))%N.

Definition isWhiteSpace (c : N) : bool :=
  (((9 <=? c) && (c <=? 13)) || (c =? 32) || (c =? 160) || (c =? 5760)
   || ((8192 <=? c) && (c <=? 8202)) || (c =? 8232) || (c =? 8233)
   || (c =? 8239) || (c =? 8287) || (c =? 12288) || (c =? 65279))%N.

Definition isDigit (c : N) : bool := ((48 <=? c) && (c <=? 57))%N.

(** [\w]: ASCII letters, digits and the underscore. *)
Definition isWordChar (c : N) : bool :=
  (((97 <=? c) && (c <=? 122)) || ((65 <=? c) && (c <=? 90))
   || isDigit c || (c =? 95))%N.

Fixpoint trimStart (s : jsstring) : jsstring :=
  match s with
  | c :: t => if isWhiteSpace c then trimStart t else s
  | [] => []
  end.

Definition trimEnd (s : jsstring) : jsstring := rev (trimStart (rev s)).

(** [String.prototype.trim] *)
Definition trim (s : jsstring) : jsstring := trimEnd (trimStart s).

(** [String.prototype.split] with a separator of one code unit. *)
Fixpoint split (sep : N) (s : jsstring) : list jsstring :=
  match s with
  | [] => [[]]
  | c :: t =>
      if (c =? sep)%N then [] :: split sep t
      else match split sep t with
           | w :: ws => (c :: w) :: ws
           | [] => [[c]]
           end
  end.

(** [String.prototype.includes] with a needle of one code unit. *)
Definition includes (needle : N) (s : jsstring) : bool :=
  existsb (N.eqb needle) s.

Definition eqb (a b : jsstring) : bool :=
  if list_eq_dec N.eq_dec a b then true else false.

Lemma eqb_eq (a b : jsstring) : eqb a b = true <-> a = b.
Proof.
  unfold eqb. destruct (list_eq_dec N.eq_dec a b); split; congruence.
Qed.

Definition SPACE : N := 32.
Definition APOSTROPHE : N := 39.

End JSString.

Import JSString.

(* ------------------------------------------------------------------ *)
(** ** The Unicode tables of the JavaScript runtime

    [String.prototype.toUpperCase] and [toLowerCase], and the general
    category Letter behind [\p{L}], are data of the runtime; the model is
    parametric in them. *)

Record UnicodeData := {
  toUpperCase : jsstring -> jsstring;
  toLowerCase : jsstring -> jsstring;
  isLetter : N -> bool
}.

(* ------------------------------------------------------------------ *)
(** ** Regular expressions

    A backtracking matcher in continuation-passing style, after the
    ECMAScript pattern semantics (22.2.2), for the constructs the patterns
    of [index.ts] use: pattern characters, character classes, sequence,
    alternation, greedy quantifiers, [\b], [^] and [$], with the flags
    [g], [i] and [u].  Capture groups only group here, no pattern of the
    module refers back to one. *)

Module RegExp.

Inductive classItem :=
| CChar (c : N)
| CRange (lo hi : N)
| CDigit
| CSpace
| CWord
| CLetter.

Inductive regex :=
| Empty
| Char (c : N)
| Dot
| Class (negated : bool) (items : list classItem)
| Seq (a b : regex)
| Alt (a b : regex)
| Quant (lo : nat) (hi : option nat) (a : regex)
| WordBoundary
| InputStart
| InputEnd.

Record t := {
  source : regex;
  global : bool;
  ignoreCase : bool;
  unicode : bool
}.

(** A position in the input: the character before it, if any, and the
    characters from it on. *)
Record position := { before : option N; after : list N }.

Definition matcherT := position -> (position -> option position) -> option position.

Definition range (lo hi : N) : list N :=
  map N.of_nat (seq (N.to_nat lo) (S (N.to_nat hi) - N.to_nat lo)).

Section Matcher.

Variable U : UnicodeData.
Variable icase : bool.

(** [Canonicalize] (22.2.2.7.3) without the [u] flag. No pattern of the
    module combines [i] with [u]; for a user pattern that does, the model
    folds case in the same way. *)
Definition canonicalize (ch : N) : N :=
  match toUpperCase U [ch] with
  | [cu] => if ((128 <=? ch) && (cu <? 128))%N then ch else cu
  | _ => ch
  end.

Definition sameChar (a ch : N) : bool :=
  if icase then (canonicalize a =? canonicalize ch)%N else (a =? ch)%N.

Definition inItem (ch : N) (it : classItem) : bool :=
  match it with
  | CChar c => sameChar c ch
  | CRange lo hi =>
      if icase then existsb (fun a => sameChar a ch) (range lo hi)
      else ((lo <=? ch) && (ch <=? hi))%N
  | CDigit => isDigit ch
  | CSpace => isWhiteSpace ch
  | CWord => isWordChar ch
  | CLetter => isLetter U ch
  end.

Definition isWordBefore (x : position) : bool :=
  match before x with Some c => isWordChar c | None => false end.

Definition isWordAfter (x : position) : bool :=
  match after x with c :: _ => isWordChar c | [] => false end.

Definition step (x : position) (k : position -> option position)
    (accept : N -> bool) : option position :=
  match after x with
  | ch :: rest =>
      if accept ch then k {| before := Some ch; after := rest |} else None
  | [] => None
  end.

(** [RepeatMatcher] (22.2.2.3.1), greedy.  An iteration that is not
    required and consumes nothing fails, so at most
    [lo + length (after x)] iterations nest; [fuel] is set above that. *)
Fixpoint repeatMatcher (m : matcherT) (fuel lo : nat) (hi : option nat)
    (x : position) (k : position -> option position) : option position :=
  match fuel with
  | O => None
  | S fuel' =>
      match hi with
      | Some O => k x
      | _ =>
          let d := fun y =>
            if ((lo =? 0) && (length (after y) =? length (after x)))%nat
            then None
            else repeatMatcher m fuel' (Nat.pred lo) (option_map Nat.pred hi) y k in
          match lo with
          | S _ => m x d
          | O => match m x d with Some z => Some z | None => k x end
          end
      end
  end.

Fixpoint matcher (r : regex) (x : position)
    (k : position -> option position) {struct r} : option position :=
  match r with
  | Empty => k x
  | Char c => step x k (sameChar c)
  | Dot => step x k (fun ch => negb (isLineTerminator ch))
  | Class negated items =>
      step x k (fun ch => xorb negated (existsb (inItem ch) items))
  | Seq a b => matcher a x (fun y => matcher b y k)
  | Alt a b =>
      match matcher a x k with
      | Some z => Some z
      | None => matcher b x k
      end
  | Quant lo hi a =>
      repeatMatcher (matcher a) (S (lo + length (after x))) lo hi x k
  | WordBoundary => if xorb (isWordBefore x) (isWordAfter x) then k x else None
  | InputStart => match before x with None => k x | Some _ => None end
  | InputEnd => match after x with [] => k x | _ :: _ => None end
  end.

End Matcher.

Section Exec.

Variable U : UnicodeData.

(** One attempt at a fixed position; the result is the number of
    characters the match covers. *)
Definition matchAt (R : t) (x : position) : option nat :=
  match matcher U (ignoreCase R) (source R) x (fun y => Some y) with
  | Some y => Some (length (after x) - length (after y))
  | None => None
  end.

(** [RegExpBuiltinExec] used as a predicate: the first position, from the
    left, at which the pattern matches. *)
Fixpoint searchFrom (R : t) (prev : option N) (rest : list N) : bool :=
  match matchAt R {| before := prev; after := rest |} with
  | Some _ => true
  | None =>
      match rest with
      | [] => false
      | c :: rest' => searchFrom R (Some c) rest'
      end
  end.

(** [RegExpBuiltinExec] from a start position: how far to the right the
    first match begins and how many characters it covers. *)
Fixpoint execFrom (R : t) (prev : option N) (rest : list N) : option (nat * nat) :=
  match matchAt R {| before := prev; after := rest |} with
  | Some n => Some (0, n)
  | None =>
      match rest with
      | [] => None
      | c :: rest' =>
          match execFrom R (Some c) rest' with
          | Some (i, n) => Some (S i, n)
          | None => None
          end
      end
  end.

Definition input (R : t) (s : jsstring) : list N :=
  if unicode R then codePoints s else s.

Definition output (R : t) (cs : list N) : jsstring :=
  if unicode R then fromCodePoints cs else cs.

(** [RegExp.prototype.test] for a pattern without the [g] and [y] flags
    (no [lastIndex] is read or written). *)
Definition test (R : t) (s : jsstring) : bool :=
  searchFrom R None (input R s).

(** [RegExp.prototype[@@replace]] with a replacement string free of [$]:
    [drop] counts the characters of the current match still to be skipped,
    [live] says whether another match may be looked for (always with [g],
    until the first match without).  An empty match is replaced and the
    scan advances by one character. *)
Fixpoint replaceFrom (R : t) (repl : list N) (drop : nat) (live : bool)
    (prev : option N) (rest : list N) : list N :=
  match rest with
  | [] =>
      if live && (drop =? 0)%nat then
        match matchAt R {| before := prev; after := [] |} with
        | Some _ => repl
        | None => []
        end
      else []
  | c :: rest' =>
      match drop with
      | S n => replaceFrom R repl n live (Some c) rest'
      | O =>
          if live then
            match matchAt R {| before := prev; after := rest |} with
            | Some (S n) => repl ++ replaceFrom R repl n (global R) (Some c) rest'
            | Some O => repl ++ c :: replaceFrom R repl 0 (global R) (Some c) rest'
            | None => c :: replaceFrom R repl 0 true (Some c) rest'
            end
          else c :: replaceFrom R repl 0 false (Some c) rest'
      end
  end.

(** [RegExp.prototype.exec] on a fresh pattern: index and length of the
    first match, counted in the characters the pattern sees. *)
Definition exec (R : t) (s : jsstring) : option (nat * nat) :=
  execFrom R None (input R s).

(** [String.prototype.replace (R, repl)] *)
Definition replace (R : t) (repl : jsstring) (s : jsstring) : jsstring :=
  output R (replaceFrom R (input R repl) 0 true None (input R s)).

End Exec.

(** Pattern-building shorthands. *)
Definition seqs (rs : list regex) : regex := fold_right Seq Empty rs.

Definition alts (rs : list regex) : regex :=
  match rs with
  | [] => Empty
  | r :: rs' => fold_left Alt rs' r
  end.

Definition literal (s : jsstring) : regex := seqs (map Char s).

Definition chars (s : jsstring) : list classItem := map CChar s.

Definition upperAZ : classItem := CRange 65 90.
Definition lowerAZ : classItem := CRange 97 122.
Definition digit09 : classItem := CRange 48 57.

End RegExp.

(* ------------------------------------------------------------------ *)
(** ** JavaScript numbers: IEEE 754 binary64 *)

Module Number.

Definition ge (a b : float) : bool := PrimFloat.leb b a.
Definition le (a b : float) : bool := PrimFloat.leb a b.
Definition lt (a b : float) : bool := PrimFloat.ltb a b.

(** A count or a length as a number; exact below 2^53. *)
Definition ofNat (n : nat) : float :=
  PrimFloat.of_uint63 (Uint63.of_Z (Z.of_nat n)).

End Number.

(* ------------------------------------------------------------------ *)
(** ** [Map]: entries in insertion order

    [set] on a key already present replaces the value in place and keeps
    the entry's position; [has] and [get] leave the order alone. *)

Class EqKey (K : Type) := {
  keyEqb : K -> K -> bool;
  keyEqb_eq : forall a b, keyEqb a b = true <-> a = b
}.

#[export] Instance EqKey_jsstring : EqKey jsstring :=
  {| keyEqb := JSString.eqb; keyEqb_eq := JSString.eqb_eq |}.

Module JSMap.

Section Ops.

Context {K V : Type} `{EqKey K}.

Definition t := list (K * V).

Definition empty : t := [].

Definition size (m : t) : nat := length m.

Fixpoint get (k : K) (m : t) : option V :=
  match m with
  | [] => None
  | (k', v) :: rest => if keyEqb k' k then Some v else get k rest
  end.

Definition has (k : K) (m : t) : bool :=
  match get k m with Some _ => true | None => false end.

Fixpoint set (k : K) (v : V) (m : t) : t :=
  match m with
  | [] => [(k, v)]
  | (k', v') :: rest =>
      if keyEqb k' k then (k', v) :: rest else (k', v') :: set k v rest
  end.

Fixpoint delete (k : K) (m : t) : t :=
  match m with
  | [] => []
  | (k', v') :: rest =>
      if keyEqb k' k then rest else (k', v') :: delete k rest
  end.

(** [m.keys().next().value] *)
Definition firstKey (m : t) : option K :=
  match m with
  | [] => None
  | (k, _) :: _ => Some k
  end.

Definition clear (m : t) : t := [].

Definition keys (m : t) : list K := map fst m.

End Ops.

Arguments t : clear implicits.

End JSMap.

(** [cacheSet] (index.ts, 149-160) *)
Definition cacheSet {K V : Type} `{EqKey K}
    (cache : JSMap.t K V) (limit : nat) (key : K) (value : V) : JSMap.t K V :=
  let cache :=
    if (limit <=? JSMap.size cache)%nat then
      match JSMap.firstKey cache with
      | Some firstKey => JSMap.delete firstKey cache
      | None => cache
      end
    else cache in
  JSMap.set key value cache.

(* ------------------------------------------------------------------ *)
(** ** Values, options and the module state *)

(** What a JavaScript caller can pass for [inputText]. *)
Inductive value :=
| VUndefined
| VNull
| VBoolean (b : bool)
| VNumber (x : float)
| VString (s : jsstring)
| VObject.

(** [customPatterns] holds patterns of the fragment modelled in [RegExp],
    with the flags [g], [i] and [u]; a sticky pattern, whose [lastIndex]
    survives a call, is outside the model. *)
Record DetectionOptions := {
  englishThreshold : option float;
  minWordLength : option float;
  allowNumbers : option bool;
  allowAbbreviations : option bool;
  customPatterns : option (list RegExp.t);
  excludeWords : option (list jsstring)
}.

(** [{}], the default of the [options] parameter. *)
Definition noOptions : DetectionOptions :=
  {| englishThreshold := None; minWordLength := None; allowNumbers := None;
     allowAbbreviations := None; customPatterns := None; excludeWords := None |}.

Definition withThreshold (o : DetectionOptions) (th : option float) : DetectionOptions :=
  {| englishThreshold := th; minWordLength := minWordLength o;
     allowNumbers := allowNumbers o; allowAbbreviations := allowAbbreviations o;
     customPatterns := customPatterns o; excludeWords := excludeWords o |}.

Record LanguageResult := { language : jsstring; confidence : float }.

Record WordOptions := { woAllowNumbers : bool; woAllowAbbreviations : bool }.

(** The two module-level caches. *)
Record Caches := {
  francCache : JSMap.t jsstring (jsstring * float);
  wordCache : JSMap.t jsstring bool
}.

Definition emptyCaches : Caches :=
  {| francCache := JSMap.empty; wordCache := JSMap.empty |}.

(** A call returns or throws; the only exception the module can raise by
    itself is the [TypeError] of destructuring [undefined]. *)
Inductive exn := TypeError.

Inductive outcome (A : Type) :=
| Returned (a : A)
| Thrown (e : exn).

Arguments Returned {A} a.
Arguments Thrown {A} e.

Definition M (A : Type) : Type := Caches -> outcome A * Caches.

Definition ret {A} (a : A) : M A := fun st => (Returned a, st).

Definition throw {A} (e : exn) : M A := fun st => (Thrown e, st).

Definition bind {A B} (c : M A) (f : A -> M B) : M B :=
  fun st =>
    match c st with
    | (Returned a, st') => f a st'
    | (Thrown e, st') => (Thrown e, st')
    end.

Declare Scope js_scope.
Delimit Scope js_scope with js.
Notation "x <- c ;; k" := (bind c (fun x => k))
  (at level 61, c at next level, right associativity) : js_scope.

Definition result {A} (r : outcome A * Caches) : outcome A := fst r.
Definition caches {A} (r : outcome A * Caches) : Caches := snd r.

(* ------------------------------------------------------------------ *)
(** ** Module-level constants and precompiled patterns (index.ts, 52-131) *)

Import RegExp.

Definition FRANC_CACHE_LIMIT : nat := 1000.
Definition WORD_CACHE_LIMIT : nat := 5000.

Definition HYPHEN : N := 45.
Definition QUOTE : N := 34.
Definition BACKSLASH : N := 92.
Definition BAR : N := 124.

Definition pattern (g i u : bool) (r : regex) : RegExp.t :=
  {| source := r; global := g; ignoreCase := i; unicode := u |}.

(** [[A-Z]{lo,hi}] and [\d{lo,hi}] *)
Definition AZ (lo hi : nat) : regex := Quant lo (Some hi) (Class false [upperAZ]).
Definition D (lo hi : nat) : regex := Quant lo (Some hi) (Class false [CDigit]).

(** [w1|w2|...], written as in the source *)
Definition alternation (s : string) : regex :=
  alts (map literal (split BAR (str s))).

Definition DOCUMENT_PATTERNS_MATCH : list RegExp.t :=
  map (pattern false false false)
    [ seqs [WordBoundary; AZ 2 6; D 1 4;
            Quant 1 (Some 3) (seqs [Char HYPHEN; AZ 1 3; D 1 4]); WordBoundary];
      seqs [WordBoundary; AZ 2 6; D 2 4; Char HYPHEN; AZ 1 3; D 1 3; WordBoundary];
      seqs [WordBoundary; AZ 2 6; D 1 4; WordBoundary] ].

Definition DOCUMENT_PATTERNS_REMOVE : list RegExp.t :=
  map (pattern true false false)
    [ seqs [WordBoundary; AZ 2 6; D 0 4;
            Quant 1 (Some 4) (seqs [Char HYPHEN; AZ 2 6; D 0 4]); WordBoundary];
      seqs [WordBoundary; AZ 2 6; D 2 4; Char HYPHEN; AZ 1 3; D 1 3; WordBoundary];
      seqs [WordBoundary; AZ 2 6; D 1 4; WordBoundary];
      seqs [WordBoundary; AZ 2 4; Char HYPHEN; AZ 2 4; D 2 4; WordBoundary] ].

Definition NON_ENGLISH_CHARS_REGEX : RegExp.t :=
  pattern false true false
    (Class false (chars (str "äöüßéèêëàâçùûÿæœáíóúñ¡¿ìòåøąćęłńśźżşğı"))).

Definition NON_ENGLISH_ENDINGS_REGEX : RegExp.t :=
  pattern false true false
    (seqs [alternation "keit|schaft|ción|zione|mente|baar|lijk|eur|agem|ção";
           InputEnd]).

Definition anchored (s : string) : RegExp.t :=
  pattern false true false (seqs [InputStart; alternation s; InputEnd]).

Definition NON_ENGLISH_FUNCTION_WORDS_REGEX : RegExp.t :=
  anchored "le|la|les|du|des|dans|avec|sans|sur|sous|entre|el|los|las|del|al|con|sin|por|der|die|das|den|dem|des|ein|eine|einen|einem|einer|eines|mit|il|lo|gli|het|een|op|aan|voor|met|door|os|dos|das|nos|nas|um|uma".

Definition NON_ENGLISH_WORD_PATTERNS : list RegExp.t :=
  [ anchored "und|oder|Wann|aber|Kann|wenn|weil|dass|ob|für|nicht|kein|keine|nur|sehr|schon|noch|jetzt|immer|wieder|möchte|würde|hätte|könnte|sollte|müsste|dürfte";
    anchored "que|como|porque|pero|cuando|donde|quien|cual|este|esta|estos|estas|ese|esa|esos|esas|aquel|aquella|aquellos|aquellas";
    anchored "est|sont|était|être|avoir|faire|dire|voir|pouvoir|vouloir|devoir|falloir|savoir|quand|où|pourquoi|qui|quel|quelle|quels|quelles|ce|cette|ces|cet";
    anchored "sono|sei|è|siamo|siete|sono|essere|avere|fare|dire|andare|vedere|dare|sapere|potere|volere|come|quando|dove|perché|chi|quale|quali";
    anchored "en|hoe|es|Er|Wanneer|je|stel|kritiek|et|kritisk|maar|want|omdat|hoewel|terwijl|tenzij|indien|toen|totdat|voordat|nadat|zodat|mits|toch|dus|immers|namelijk";
    anchored "eu|tu|ele|ela|nós|vós|eles|elas|isto|isso|aquilo|mesmo|mesma|mesmos|mesmas|próprio|própria|próprios|próprias";
    anchored "ben|sen|biz|siz|onlar|bana|sana|ona|bize|size|onlara|benim|senin|onun|bizim|sizin|onların";
    anchored "jeg|mig|min|mit|mine|dig|din|dit|dine|han|ham|hans|hun|hende|hendes|den|det|de|dem|deres|denne|dette|disse" ].

(** The pattern [\bword\b|\bwords\b] with the flag [i], no [g].  The term
    is spliced into the pattern source as it is; the syntax tree below is
    the one the source denotes when the term holds no regular-expression
    syntax character (lemma [geoTermPattern_compiled]). *)
Definition geoTermRegex (word : jsstring) : regex :=
  Alt (seqs (WordBoundary :: map Char word ++ [WordBoundary]))
      (seqs (WordBoundary :: map Char (word ++ str "s") ++ [WordBoundary])).

Definition geoTermPattern (word : jsstring) : RegExp.t :=
  pattern false true false (geoTermRegex word).

(** [['''\-...`~!@#$%^&*()+={}[\]|\\:...;'<>?,./]] with the flag [g] *)
Definition WORD_PUNCTUATION_REGEX : RegExp.t :=
  pattern true false false
    (Class false (chars (str "'''-") ++ [CChar QUOTE; CChar QUOTE]
                  ++ chars (str "`~!@#$%^&*()+={}[]|\:") ++ [CChar QUOTE]
                  ++ chars (str ";'<>?,./"))).

Definition WHITESPACE_REGEX : RegExp.t :=
  pattern true false false (Quant 1 None (Class false [CSpace])).

Definition NON_LETTER_REGEX : RegExp.t :=
  pattern true false true
    (Class true ([CLetter; CSpace] ++ chars (str ".,!?:;'") ++ [CChar QUOTE]
                 ++ chars (str "()-"))).

Definition ENGLISH_CHARS_REGEX : RegExp.t :=
  pattern false false false
    (seqs [InputStart;
           Quant 1 None (Class false [lowerAZ; upperAZ; digit09; CChar 39; CChar HYPHEN]);
           InputEnd]).

Definition NUMBERS_ONLY_REGEX : RegExp.t :=
  pattern false false false
    (seqs [InputStart; Quant 1 None (Class false [CDigit]); InputEnd]).

Definition ABBREVIATION_REGEX : RegExp.t :=
  pattern false false false
    (seqs [InputStart; Quant 2 None (Class false [upperAZ]);
           Quant 0 None (Class false [digit09]); InputEnd]).

(** The escaping of an exclude-word, [word.replace(/[.*+?^${}()|[\]\\]/g, \$&)]:
    every character of the class gets a backslash in front. *)
Definition isSyntaxCharacter (c : N) : bool :=
  existsb (N.eqb c) (str ".*+?^${}()|[]\").

Definition escapeRegExp (word : jsstring) : jsstring :=
  flat_map (fun c => if isSyntaxCharacter c then [BACKSLASH; c] else [c]) word.

(** The pattern [\bescaped\b] with the flags [gi] (index.ts, 444-447);
    lemma [excludeWordPattern_compiled] relates it to the pattern source. *)
Definition excludeWordPattern (word : jsstring) : RegExp.t :=
  pattern true true false (seqs (WordBoundary :: map Char word ++ [WordBoundary])).

(** [new RegExp(source, flags)] on the fragment of the pattern grammar the
    two constructed patterns live in: pattern characters, [\b], escaped
    syntax characters and [|].  [None] is a pattern outside the fragment. *)
Fixpoint parseDisjunction (p : jsstring) (cur : list regex) : option regex :=
  match p with
  | [] => Some (seqs (rev cur))
  | c :: rest =>
      if (c =? BAR)%N then option_map (Alt (seqs (rev cur))) (parseDisjunction rest [])
      else if (c =? BACKSLASH)%N then
        match rest with
        | d :: rest' =>
            if (d =? 98)%N then parseDisjunction rest' (WordBoundary :: cur)
            else if isSyntaxCharacter d then parseDisjunction rest' (Char d :: cur)
            else None
        | [] => None
        end
      else if isSyntaxCharacter c then None
      else parseDisjunction rest (Char c :: cur)
  end.

Definition RegExpNew (src : jsstring) (g i u : bool) : option RegExp.t :=
  option_map (pattern g i u) (parseDisjunction src []).

(* ------------------------------------------------------------------ *)
(** ** The functions of [index.ts] *)

Local Open Scope js_scope.

Section Validator.

(** The runtime's Unicode tables, the dictionary module and [franc]. *)
Variable U : UnicodeData.
Variable englishDictionary : jsstring -> bool.
Variable wordsToRemove : list (jsstring * bool).
Variable francAll : jsstring -> list (jsstring * float).

Definition GEO_TERM_PATTERNS : list RegExp.t :=
  map (fun entry => geoTermPattern (fst entry)) wordsToRemove.

(** The type guard [isNonEmptyString]: the string behind the value when
    it is a string of positive length. *)
Definition isNonEmptyString (v : value) : option jsstring :=
  match v with
  | VString s => if (0 <? length s)%nat then Some s else None
  | _ => None
  end.

Definition normalizeWhitespace (text : jsstring) : jsstring :=
  trim (RegExp.replace U WHITESPACE_REGEX (str " ") text).

(** *** Core language analysis (index.ts, 198-216) *)

Definition isHighConfidenceEnglish (c : jsstring * float) : bool :=
  JSString.eqb (fst c) (str "eng") && Number.ge (snd c) 0.9%float.

(** The [for] loop over [detectedLanguage.slice(0, 5)]: the candidate it
    returns from, if any. *)
Fixpoint scanCandidates (cands : list (jsstring * float)) : option (jsstring * float) :=
  match cands with
  | [] => None
  | c :: rest => if isHighConfidenceEnglish c then Some c else scanCandidates rest
  end.

Definition setFrancCache (st : Caches) (key : jsstring) (v : jsstring * float) : Caches :=
  {| francCache := cacheSet (francCache st) FRANC_CACHE_LIMIT key v;
     wordCache := wordCache st |}.

Definition setWordCache (st : Caches) (key : jsstring) (v : bool) : Caches :=
  {| francCache := francCache st;
     wordCache := cacheSet (wordCache st) WORD_CACHE_LIMIT key v |}.

Definition francLanguageAnalysis (cleanText : jsstring) : M LanguageResult :=
  fun st =>
    match JSMap.get cleanText (francCache st) with
    | Some (language, confidence) =>
        (Returned {| language := language; confidence := confidence |}, st)
    | None =>
        let detectedLanguage := francAll cleanText in
        match scanCandidates (firstn 5 detectedLanguage) with
        | Some (lang, conf) =>
            (Returned {| language := lang; confidence := conf |},
             setFrancCache st cleanText (lang, conf))
        | None =>
            match detectedLanguage with
            | (language, confidence) :: _ =>
                (Returned {| language := language; confidence := confidence |},
                 setFrancCache st cleanText (language, confidence))
            | [] => (Thrown TypeError, st)
            end
        end
    end.

(** *** Document pattern operations (index.ts, 228-249) *)

Definition matchesDocumentPattern (text : value) : bool :=
  match isNonEmptyString text with
  | None => false
  | Some s => existsb (fun p => RegExp.test U p s) DOCUMENT_PATTERNS_MATCH
  end.

Definition removeAll (patterns : list RegExp.t) (text : jsstring) : jsstring :=
  fold_left (fun cleaned p => RegExp.replace U p [] cleaned) patterns text.

Definition removeDocumentPatterns (text : jsstring) : jsstring :=
  normalizeWhitespace (removeAll DOCUMENT_PATTERNS_REMOVE text).

(** *** Geographical term removal (index.ts, 263-273) *)

Definition removeGeographicalTerms (inputText : jsstring) : jsstring :=
  match inputText with
  | [] => inputText
  | _ :: _ => normalizeWhitespace (removeAll GEO_TERM_PATTERNS inputText)
  end.

(** *** Non-English indicator checks (index.ts, 287-344) *)

Definition hasNonEnglishCharacters (text : jsstring) : bool :=
  RegExp.test U NON_ENGLISH_CHARS_REGEX text.

Definition hasNonEnglishEndings (text : jsstring) : bool :=
  RegExp.test U NON_ENGLISH_ENDINGS_REGEX text.

Definition hasNonEnglishWordPatterns (text : jsstring) : bool :=
  existsb (fun p => RegExp.test U p text) NON_ENGLISH_WORD_PATTERNS.

Definition hasObviousNonEnglishIndicators (text : jsstring) : bool :=
  if (length text <? 2)%nat then false
  else if negb (includes SPACE text)
          && (hasNonEnglishCharacters text || hasNonEnglishEndings text)
  then true
  else hasNonEnglishWordPatterns text
       || RegExp.test U NON_ENGLISH_FUNCTION_WORDS_REGEX text.

(** *** Word-level analysis (index.ts, 355-408) *)

Definition hasOnlyEnglishCharacters (word : jsstring) : bool :=
  RegExp.test U ENGLISH_CHARS_REGEX word.

Definition isEnglishWord (word : jsstring) (options : WordOptions) : bool :=
  if negb (hasOnlyEnglishCharacters word) then false
  else if woAllowNumbers options && RegExp.test U NUMBERS_ONLY_REGEX word then true
  else if hasObviousNonEnglishIndicators word then false
  else if englishDictionary word then true
  else if includes APOSTROPHE word
          && englishDictionary (hd [] (split APOSTROPHE word))
  then true
  else false.

Definition booleanToString (b : bool) : jsstring :=
  if b then str "true" else str "false".

Definition wordCacheKey (word : jsstring) (options : WordOptions) : jsstring :=
  word ++ str "_" ++ booleanToString (woAllowNumbers options)
       ++ str "_" ++ booleanToString (woAllowAbbreviations options).

Definition isEnglishWordCached (word : jsstring) (options : WordOptions) : M bool :=
  fun st =>
    let cacheKey := wordCacheKey word options in
    match JSMap.get cacheKey (wordCache st) with
    | Some cached => (Returned cached, st)
    | None =>
        let result := isEnglishWord word options in
        (Returned result, setWordCache st cacheKey result)
    end.

(** *** Text preprocessing (index.ts, 426-454) *)

Definition removeCustomPatterns (customPatterns : option (list RegExp.t))
    (processed : jsstring) : jsstring :=
  match customPatterns with
  | Some patterns => removeAll patterns processed
  | None => processed
  end.

Definition removeExcludeWords (excludeWords : option (list jsstring))
    (processed : jsstring) : jsstring :=
  match excludeWords with
  | Some words => removeAll (map excludeWordPattern words) processed
  | None => processed
  end.

Definition preprocessText (text : jsstring)
    (customPatterns : option (list RegExp.t))
    (excludeWords : option (list jsstring)) : jsstring :=
  let processed := removeDocumentPatterns text in
  let processed := removeGeographicalTerms processed in
  let processed := removeCustomPatterns customPatterns processed in
  let processed := removeExcludeWords excludeWords processed in
  let processed := RegExp.replace U NON_LETTER_REGEX (str " ") processed in
  normalizeWhitespace processed.

(** *** Public API (index.ts, 482-572) *)

Definition orDefault {A} (o : option A) (d : A) : A :=
  match o with Some a => a | None => d end.

(** The body of the [for (const word of words)] loop, threaded over the
    list of words with the two counters. *)
Fixpoint countWords (minWordLength : float) (wo : WordOptions)
    (words : list jsstring) (englishWordCount totalRelevantWords : nat)
    : M (nat * nat) :=
  match words with
  | [] => ret (englishWordCount, totalRelevantWords)
  | word :: rest =>
      let cleanWord := trim (RegExp.replace U WORD_PUNCTUATION_REGEX [] word) in
      if Number.lt (Number.ofNat (length cleanWord)) minWordLength
      then countWords minWordLength wo rest englishWordCount totalRelevantWords
      else
        let totalRelevantWords := S totalRelevantWords in
        if woAllowAbbreviations wo && RegExp.test U ABBREVIATION_REGEX cleanWord
        then countWords minWordLength wo rest (S englishWordCount) totalRelevantWords
        else
          isEng <- isEnglishWordCached (toLowerCase U cleanWord) wo ;;
          if isEng
          then countWords minWordLength wo rest (S englishWordCount) totalRelevantWords
          else countWords minWordLength wo rest englishWordCount totalRelevantWords
  end.

(** [englishThreshold] after line 504. *)
Definition effectiveThreshold (options : DetectionOptions) (words : list jsstring) : float :=
  if (length words <=? 4)%nat then 0.6%float
  else orDefault (englishThreshold options) 0.8%float.

Definition englishRatioOf (englishWordCount totalRelevantWords : nat) : float :=
  if (0 <? totalRelevantWords)%nat
  then (Number.ofNat englishWordCount / Number.ofNat totalRelevantWords)%float
  else 1.0%float.

Definition detectNonEnglishText (inputText : value) (options : DetectionOptions) : M bool :=
  let minWordLength := orDefault (minWordLength options) 2%float in
  let wo := {| woAllowNumbers := orDefault (allowNumbers options) true;
               woAllowAbbreviations := orDefault (allowAbbreviations options) true |} in
  match isNonEmptyString inputText with
  | None => ret false
  | Some inputText =>
      if (length (trim inputText) =? 0)%nat then ret false
      else
        let francInputText := inputText in
        let processedText :=
          preprocessText inputText (customPatterns options) (excludeWords options) in
        let words := split SPACE processedText in
        if (length words =? 0)%nat then ret false
        else
          let englishThreshold := effectiveThreshold options words in
          counts <- countWords minWordLength wo words 0 0 ;;
          let englishRatio := englishRatioOf (fst counts) (snd counts) in
          if Number.ge englishRatio englishThreshold then ret false
          else
            r <- francLanguageAnalysis francInputText ;;
            if JSString.eqb (language r) (str "eng")
               && Number.ge (confidence r) 0.9%float
               && Number.ge englishRatio 0.7%float
            then ret false
            else ret true
  end.

Definition isEnglish (inputText : value) (options : DetectionOptions) : M bool :=
  nonEnglish <- detectNonEnglishText inputText options ;;
  ret (negb nonEnglish).

Definition clearLanguageDetectorCaches (st : Caches) : Caches :=
  {| francCache := JSMap.clear (francCache st);
     wordCache := JSMap.clear (wordCache st) |}.

End Validator.

(* ------------------------------------------------------------------ *)
(** ** Sample parameters for concrete runs

    The case mappings and the Letter category on Basic Latin, Latin-1
    Supplement and Latin Extended-A (U+0000 to U+017F), which covers every
    character the patterns of [index.ts] name; other code units are left
    alone and counted as non-letters. *)

Module Latin.

Definition between (lo hi c : N) : bool := ((lo <=? c) && (c <=? hi))%N.

(** Ranges of Latin Extended-A in which the capital is the even (resp.
    odd) member of each pair. *)
Definition evenCapital (c : N) : bool :=
  between 256 303 c || between 306 311 c || between 330 375 c.
Definition oddCapital (c : N) : bool :=
  between 313 328 c || between 377 382 c.

Definition upperChar (c : N) : jsstring :=
  if between 97 122 c then [c - 32]%N
  else if (c =? 181)%N then [924%N]
  else if (c =? 223)%N then [83%N; 83%N]
  else if between 224 254 c && negb (c =? 247)%N then [c - 32]%N
  else if (c =? 255)%N then [376%N]
  else if (c =? 305)%N then [73%N]
  else if (c =? 329)%N then [700%N; 78%N]
  else if (c =? 383)%N then [83%N]
  else if evenCapital c && N.odd c then [c - 1]%N
  else if oddCapital c && N.even c then [c - 1]%N
  else [c].

Definition lowerChar (c : N) : jsstring :=
  if between 65 90 c then [c + 32]%N
  else if between 192 222 c && negb (c =? 215)%N then [c + 32]%N
  else if (c =? 304)%N then [105%N; 775%N]
  else if (c =? 376)%N then [255%N]
  else if evenCapital c && N.even c then [c + 1]%N
  else if oddCapital c && N.odd c then [c + 1]%N
  else [c].

Definition letter (c : N) : bool :=
  between 65 90 c || between 97 122 c
  || (c =? 170)%N || (c =? 181)%N || (c =? 186)%N
  || between 192 214 c || between 216 246 c || between 248 383 c.

Definition tables : UnicodeData :=
  {| toUpperCase := flat_map upperChar;
     toLowerCase := flat_map lowerChar;
     isLetter := letter |}.

End Latin.

(* ------------------------------------------------------------------ *)
(** * Properties *)

(** ** Strings *)

Lemma trimStart_blank (s : jsstring) :
  Forall (fun c => isWhiteSpace c = true) s -> trimStart s = [].
Proof.
  induction 1 as [|c s Hc _ IH]; simpl; [reflexivity|].
  rewrite Hc. exact IH.
Qed.

Lemma trim_blank (s : jsstring) :
  Forall (fun c => isWhiteSpace c = true) s -> trim s = [].
Proof.
  intros Hs. unfold trim, trimEnd. rewrite (trimStart_blank s Hs). reflexivity.
Qed.

Lemma split_nonempty (sep : N) (s : jsstring) : split sep s <> [].
Proof.
  destruct s as [|c t]; simpl; [discriminate|].
  destruct (c =? sep)%N; [discriminate|].
  destruct (split sep t); discriminate.
Qed.

(** ** Claim C1: blank and non-string inputs *)

(** Null, undefined, any other non-string value, the empty string and a
    string of white space only. *)
Definition blankInput (v : value) : Prop :=
  match v with
  | VString s => Forall (fun c => isWhiteSpace c = true) s
  | _ => True
  end.

(** C1. For every null, undefined, non-string, empty or whitespace-only
    input and every options record, in every state of the caches,
    [detectNonEnglishText] returns [false] and [isEnglish] returns [true]
    (and the caches are left as they were). *)
Theorem C1_blank_input U englishDictionary wordsToRemove francAll
    (v : value) (o : DetectionOptions) (st : Caches) :
  blankInput v ->
  detectNonEnglishText U englishDictionary wordsToRemove francAll v o st
    = (Returned false, st)
  /\ isEnglish U englishDictionary wordsToRemove francAll v o st
    = (Returned true, st).
Proof.
  intros Hv.
  assert (Hd : detectNonEnglishText U englishDictionary wordsToRemove francAll v o st
               = (Returned false, st)).
  { unfold detectNonEnglishText.
    destruct v as [| |b|x|s|]; try reflexivity.
    simpl in Hv. unfold isNonEmptyString.
    destruct (0 <? length s)%nat; [|reflexivity].
    rewrite (trim_blank s Hv). reflexivity. }
  split; [exact Hd|].
  unfold isEnglish, bind. rewrite Hd. reflexivity.
Qed.

Lemma C1_blank_input_witness :
  blankInput (VString (str "   "))
  /\ detectNonEnglishText Latin.tables (fun _ => false) [] (fun _ => [])
       (VString (str "   ")) noOptions emptyCaches = (Returned false, emptyCaches)
  /\ isEnglish Latin.tables (fun _ => false) [] (fun _ => [])
       (VString (str "   ")) noOptions emptyCaches = (Returned true, emptyCaches).
Proof.
  assert (H : blankInput (VString (str "   "))).
  { simpl. repeat constructor. }
  split; [exact H|].
  exact (C1_blank_input Latin.tables (fun _ => false) [] (fun _ => [])
           (VString (str "   ")) noOptions emptyCaches H).
Defined.

(* ------------------------------------------------------------------ *)
(** ** The insertion-ordered map and [cacheSet] *)

Section MapFacts.

Context {K V : Type} `{EqKey K}.

Implicit Types (m c : JSMap.t K V) (k : K) (v : V) (e : K * V).

Lemma keyEqb_refl k : keyEqb k k = true.
Proof. apply keyEqb_eq. reflexivity. Qed.

Lemma get_In k v m : JSMap.get k m = Some v -> In (k, v) m.
Proof.
  induction m as [|[k' v'] rest IH]; simpl; [discriminate|].
  destruct (keyEqb k' k) eqn:E.
  - intros [= ->]. apply keyEqb_eq in E. subst. now left.
  - intros Hg. right. exact (IH Hg).
Qed.

Lemma In_set e k v m : In e (JSMap.set k v m) -> e = (k, v) \/ In e m.
Proof.
  induction m as [|[k' v'] rest IH]; simpl.
  - intros [<-|[]]. now left.
  - destruct (keyEqb k' k) eqn:E; simpl.
    + apply keyEqb_eq in E. subst. intros [<-|Hin]; [now left|right; now right].
    + intros [<-|Hin]; [right; now left|].
      destruct (IH Hin) as [->|Hr]; [now left|right; now right].
Qed.

Lemma In_delete e k m : In e (JSMap.delete k m) -> In e m.
Proof.
  induction m as [|[k' v'] rest IH]; simpl; [tauto|].
  destruct (keyEqb k' k); simpl; [now right|].
  intros [<-|Hin]; [now left|right; exact (IH Hin)].
Qed.

Lemma In_cacheSet e c limit k v :
  In e (cacheSet c limit k v) -> e = (k, v) \/ In e c.
Proof.
  unfold cacheSet. intros Hin. apply In_set in Hin.
  destruct Hin as [->|Hin]; [now left|right].
  destruct (limit <=? JSMap.size c)%nat; [|exact Hin].
  destruct (JSMap.firstKey c); [|exact Hin].
  exact (In_delete _ _ _ Hin).
Qed.

Lemma size_set k v m : JSMap.size (JSMap.set k v m) <= S (JSMap.size m).
Proof.
  unfold JSMap.size.
  induction m as [|[k' v'] rest IH]; simpl; [lia|].
  destruct (keyEqb k' k); simpl; lia.
Qed.

(** At capacity the first entry goes, and only that one. *)
Lemma cacheSet_at_capacity c limit k v :
  0 < limit -> limit <= JSMap.size c ->
  exists k0 v0 rest,
    c = (k0, v0) :: rest
    /\ JSMap.firstKey c = Some k0
    /\ JSMap.delete k0 c = rest
    /\ cacheSet c limit k v = JSMap.set k v rest.
Proof.
  intros Hpos Hfull.
  destruct c as [|[k0 v0] rest]; [simpl in Hfull; lia|].
  exists k0, v0, rest. unfold cacheSet.
  apply Nat.leb_le in Hfull. rewrite Hfull. simpl.
  rewrite keyEqb_refl. repeat split; reflexivity.
Qed.

Lemma cacheSet_below_capacity c limit k v :
  JSMap.size c < limit -> cacheSet c limit k v = JSMap.set k v c.
Proof.
  intros Hlt. unfold cacheSet.
  apply Nat.leb_gt in Hlt. rewrite Hlt. reflexivity.
Qed.

Lemma cacheSet_size c limit k v :
  0 < limit -> JSMap.size c <= limit -> JSMap.size (cacheSet c limit k v) <= limit.
Proof.
  intros Hpos Hle.
  destruct (Nat.le_gt_cases limit (JSMap.size c)) as [Hfull|Hlt].
  - destruct (cacheSet_at_capacity c limit k v Hpos Hfull)
      as (k0 & v0 & rest & -> & _ & _ & ->).
    pose proof (size_set k v rest). unfold JSMap.size in *. simpl in *. lia.
  - rewrite (cacheSet_below_capacity c limit k v Hlt).
    pose proof (size_set k v c). lia.
Qed.

End MapFacts.

(* ------------------------------------------------------------------ *)
(** ** The caches as memoization *)

Lemma app_tail_differs (n : nat) (s1 s2 w w' : jsstring) :
  n <= length s1 -> n <= length s2 ->
  firstn n (rev s1) <> firstn n (rev s2) ->
  w ++ s1 <> w' ++ s2.
Proof.
  intros H1 H2 Hne Heq. apply Hne.
  apply (f_equal (fun l => firstn n (rev l))) in Heq.
  rewrite !rev_app_distr, !firstn_app in Heq.
  rewrite !length_rev in Heq.
  replace (n - length s1) with 0 in Heq by lia.
  replace (n - length s2) with 0 in Heq by lia.
  simpl in Heq. rewrite !app_nil_r in Heq. exact Heq.
Qed.

Section Memoization.

Variable U : UnicodeData.
Variable englishDictionary : jsstring -> bool.
Variable wordsToRemove : list (jsstring * bool).
Variable francAll : jsstring -> list (jsstring * float).

Local Abbreviation isEnglishWord' := (isEnglishWord U englishDictionary).
Local Abbreviation isEnglishWordCached' := (isEnglishWordCached U englishDictionary).
Local Abbreviation countWords' := (countWords U englishDictionary).
Local Abbreviation francLanguageAnalysis' := (francLanguageAnalysis francAll).
Local Abbreviation preprocessText' := (preprocessText U wordsToRemove).
Local Abbreviation detect := (detectNonEnglishText U englishDictionary wordsToRemove francAll).

(** *** The cache-free reading of the code *)

(** What [francLanguageAnalysis] computes on a cache miss; [None] stands
    for the [TypeError] on an empty ranking. *)
Definition analysis (text : jsstring) : option (jsstring * float) :=
  match scanCandidates (firstn 5 (francAll text)) with
  | Some c => Some c
  | None => hd_error (francAll text)
  end.

Definition analysisOutcome (text : jsstring) : outcome LanguageResult :=
  match analysis text with
  | Some (lang, conf) => Returned {| language := lang; confidence := conf |}
  | None => Thrown TypeError
  end.

(** The two counters of the word loop, with [isEnglishWord] called
    directly. *)
Fixpoint wordCounts (minWordLength : float) (wo : WordOptions)
    (words : list jsstring) (englishWordCount totalRelevantWords : nat) : nat * nat :=
  match words with
  | [] => (englishWordCount, totalRelevantWords)
  | word :: rest =>
      let cleanWord := trim (RegExp.replace U WORD_PUNCTUATION_REGEX [] word) in
      if Number.lt (Number.ofNat (length cleanWord)) minWordLength
      then wordCounts minWordLength wo rest englishWordCount totalRelevantWords
      else if (woAllowAbbreviations wo && RegExp.test U ABBREVIATION_REGEX cleanWord)
              || isEnglishWord' (toLowerCase U cleanWord) wo
      then wordCounts minWordLength wo rest (S englishWordCount) (S totalRelevantWords)
      else wordCounts minWordLength wo rest englishWordCount (S totalRelevantWords)
  end.

Definition wordOptionsOf (o : DetectionOptions) : WordOptions :=
  {| woAllowNumbers := orDefault (allowNumbers o) true;
     woAllowAbbreviations := orDefault (allowAbbreviations o) true |}.

Definition wordsOf (s : jsstring) (o : DetectionOptions) : list jsstring :=
  split SPACE (preprocessText' s (customPatterns o) (excludeWords o)).

(** The english ratio of a string input. *)
Definition ratioOf (s : jsstring) (o : DetectionOptions) : float :=
  let counts := wordCounts (orDefault (minWordLength o) 2%float) (wordOptionsOf o)
                  (wordsOf s o) 0 0 in
  englishRatioOf (fst counts) (snd counts).

Definition rescued (r : LanguageResult) (englishRatio : float) : bool :=
  JSString.eqb (language r) (str "eng")
  && Number.ge (confidence r) 0.9%float
  && Number.ge englishRatio 0.7%float.

Definition verdict (v : value) (o : DetectionOptions) : outcome bool :=
  match isNonEmptyString v with
  | None => Returned false
  | Some s =>
      if (length (trim s) =? 0)%nat then Returned false
      else if (length (wordsOf s o) =? 0)%nat then Returned false
      else if Number.ge (ratioOf s o) (effectiveThreshold o (wordsOf s o))
      then Returned false
      else match analysisOutcome s with
           | Returned r => Returned (negb (rescued r (ratioOf s o)))
           | Thrown e => Thrown e
           end
  end.

(** *** Cache invariants *)

Definition francEntryOk (e : jsstring * (jsstring * float)) : Prop :=
  analysis (fst e) = Some (snd e).

Definition wordEntryOk (e : jsstring * bool) : Prop :=
  exists w wo, fst e = wordCacheKey w wo /\ snd e = isEnglishWord' w wo.

Definition cachesOk (st : Caches) : Prop :=
  Forall francEntryOk (francCache st) /\ Forall wordEntryOk (wordCache st).

Lemma cachesOk_empty : cachesOk emptyCaches.
Proof. split; constructor. Qed.

Lemma cachesOk_clear st : cachesOk (clearLanguageDetectorCaches st).
Proof. split; constructor. Qed.

Lemma Forall_cacheSet {V : Type} (P : jsstring * V -> Prop)
    (c : JSMap.t jsstring V) limit k v :
  Forall P c -> P (k, v) -> Forall P (cacheSet c limit k v).
Proof.
  intros Hc Hkv. apply Forall_forall. intros e Hin.
  destruct (In_cacheSet e c limit k v Hin) as [->|Hin']; [exact Hkv|].
  rewrite Forall_forall in Hc. exact (Hc e Hin').
Qed.

Definition keySuffix (wo : WordOptions) : jsstring :=
  str "_" ++ booleanToString (woAllowNumbers wo)
          ++ str "_" ++ booleanToString (woAllowAbbreviations wo).

Lemma wordCacheKey_suffix w wo : wordCacheKey w wo = w ++ keySuffix wo.
Proof. reflexivity. Qed.

(** The key of the word cache determines the word and both flags. *)
Lemma wordCacheKey_inj w wo w' wo' :
  wordCacheKey w wo = wordCacheKey w' wo' -> w = w' /\ wo = wo'.
Proof.
  rewrite !wordCacheKey_suffix.
  destruct wo as [[|] [|]], wo' as [[|] [|]]; intros Heq;
    try (split; [exact (app_inv_tail _ _ _ Heq)|reflexivity]);
    exfalso; revert Heq; apply (app_tail_differs 8);
    solve [ vm_compute; intros Hle; discriminate Hle
          | vm_compute; repeat constructor ].
Qed.

Lemma francLanguageAnalysis_memo text st :
  cachesOk st ->
  result (francLanguageAnalysis' text st) = analysisOutcome text
  /\ cachesOk (caches (francLanguageAnalysis' text st)).
Proof.
  intros [Hf Hw]. unfold francLanguageAnalysis, analysisOutcome.
  destruct (JSMap.get text (francCache st)) as [[lang conf]|] eqn:Hget.
  - apply get_In in Hget.
    pose proof (proj1 (Forall_forall _ _) Hf _ Hget) as He.
    unfold francEntryOk in He. simpl in He.
    rewrite He. split; [reflexivity|split; assumption].
  - unfold analysis.
    destruct (scanCandidates (firstn 5 (francAll text))) as [[lang conf]|] eqn:Hscan.
    + split; [reflexivity|]. split; [|exact Hw].
      apply Forall_cacheSet; [exact Hf|].
      unfold francEntryOk, analysis. cbn [fst snd]. rewrite Hscan. reflexivity.
    + destruct (francAll text) as [|[lang conf] rest] eqn:Hall.
      * split; [reflexivity|split; assumption].
      * split; [reflexivity|]. split; [|exact Hw].
        apply Forall_cacheSet; [exact Hf|].
        unfold francEntryOk, analysis. cbn [fst snd]. rewrite Hall, Hscan. reflexivity.
Qed.

Lemma isEnglishWordCached_memo w wo st :
  cachesOk st ->
  result (isEnglishWordCached' w wo st) = Returned (isEnglishWord' w wo)
  /\ cachesOk (caches (isEnglishWordCached' w wo st)).
Proof.
  intros [Hf Hw]. unfold isEnglishWordCached.
  destruct (JSMap.get (wordCacheKey w wo) (wordCache st)) as [cached|] eqn:Hget.
  - apply get_In in Hget.
    destruct (proj1 (Forall_forall _ _) Hw _ Hget) as (w' & wo' & Hkey & Hval).
    simpl in Hkey, Hval.
    apply wordCacheKey_inj in Hkey. destruct Hkey as [-> ->].
    split; [simpl; now rewrite Hval|split; assumption].
  - split; [reflexivity|]. split; [exact Hf|].
    apply Forall_cacheSet; [exact Hw|].
    exists w, wo. split; reflexivity.
Qed.

Lemma countWords_memo mwl wo words eng total st :
  cachesOk st ->
  result (countWords' mwl wo words eng total st)
    = Returned (wordCounts mwl wo words eng total)
  /\ cachesOk (caches (countWords' mwl wo words eng total st)).
Proof.
  revert eng total st.
  induction words as [|word rest IH]; intros eng total st Hst; simpl.
  - split; [reflexivity|exact Hst].
  - destruct (Number.lt _ mwl); [exact (IH _ _ _ Hst)|].
    destruct (woAllowAbbreviations wo && RegExp.test U ABBREVIATION_REGEX _); simpl;
      [exact (IH _ _ _ Hst)|].
    unfold bind.
    destruct (isEnglishWordCached_memo
                (toLowerCase U (trim (RegExp.replace U WORD_PUNCTUATION_REGEX [] word)))
                wo st Hst) as [Hres Hok].
    destruct (isEnglishWordCached' _ wo st) as [[isEng|e] st'];
      simpl in Hres, Hok; [|discriminate].
    injection Hres as <-.
    destruct isEng; exact (IH _ _ _ Hok).
Qed.

Lemma detectNonEnglishText_unfold v o st :
  detect v o st =
  match isNonEmptyString v with
  | None => ret false st
  | Some s =>
      if (length (trim s) =? 0)%nat then ret false st
      else if (length (wordsOf s o) =? 0)%nat then ret false st
      else
        (counts <- countWords' (orDefault (minWordLength o) 2%float)
                     (wordOptionsOf o) (wordsOf s o) 0 0 ;;
         if Number.ge (englishRatioOf (fst counts) (snd counts))
              (effectiveThreshold o (wordsOf s o))
         then ret false
         else r <- francLanguageAnalysis' s ;;
              ret (negb (rescued r (englishRatioOf (fst counts) (snd counts))))) st
  end.
Proof.
  unfold detectNonEnglishText, rescued, wordsOf, wordOptionsOf.
  destruct (isNonEmptyString v) as [s|]; [|reflexivity].
  destruct (length (trim s) =? 0)%nat; [reflexivity|].
  destruct (length (split SPACE _) =? 0)%nat; [reflexivity|].
  unfold bind.
  destruct (countWords' _ _ _ 0 0 st) as [[counts|e] st1]; [|reflexivity].
  destruct (Number.ge _ (effectiveThreshold o _)); [reflexivity|].
  destruct (francLanguageAnalysis' s st1) as [[r|e] st2]; [|reflexivity].
  destruct (JSString.eqb _ _ && _ && _); reflexivity.
Qed.

Lemma bind_result {A B} (c : M A) (f : A -> M B) (st : Caches) :
  bind c f st =
  match result (c st) with
  | Returned a => f a (caches (c st))
  | Thrown e => (Thrown e, caches (c st))
  end.
Proof. unfold bind, result, caches. destruct (c st) as [[a|e] st']; reflexivity. Qed.

(** Every call answers as the cache-free reading does, whatever entries
    earlier calls left in the caches, and keeps the caches consistent. *)
Lemma detectNonEnglishText_memo v o st :
  cachesOk st ->
  result (detect v o st) = verdict v o /\ cachesOk (caches (detect v o st)).
Proof.
  intros Hst. rewrite detectNonEnglishText_unfold. unfold verdict.
  destruct (isNonEmptyString v) as [s|]; [|split; [reflexivity|exact Hst]].
  destruct (length (trim s) =? 0)%nat; [split; [reflexivity|exact Hst]|].
  destruct (length (wordsOf s o) =? 0)%nat; [split; [reflexivity|exact Hst]|].
  destruct (countWords_memo (orDefault (minWordLength o) 2%float) (wordOptionsOf o)
              (wordsOf s o) 0 0 st Hst) as [Hres Hok].
  rewrite bind_result, Hres. fold (ratioOf s o).
  destruct (Number.ge (ratioOf s o) (effectiveThreshold o (wordsOf s o)));
    [split; [reflexivity|exact Hok]|].
  destruct (francLanguageAnalysis_memo s _ Hok) as [Hres' Hok'].
  rewrite bind_result, Hres'.
  destruct (analysisOutcome s) as [r|e]; split; solve [reflexivity|exact Hok'].
Qed.

End Memoization.

(* ------------------------------------------------------------------ *)
(** ** Comparison of numbers *)

Lemma SFleb_trans (a b c : SpecFloat.spec_float) :
  SpecFloat.SFleb a b = true -> SpecFloat.SFleb b c = true ->
  SpecFloat.SFleb a c = true.
Proof.
  unfold SpecFloat.SFleb, SpecFloat.SFcompare.
  destruct a as [sa|sa| |sa ma ea], b as [sb|sb| |sb mb eb], c as [sc|sc| |sc mc ec];
    try destruct sa; try destruct sb; try destruct sc;
    try (intros; reflexivity); try (intros; discriminate).
  all: change (Pos.compare_cont Eq ma mb) with (Pos.compare ma mb);
       change (Pos.compare_cont Eq mb mc) with (Pos.compare mb mc);
       change (Pos.compare_cont Eq ma mc) with (Pos.compare ma mc).
  all: destruct (Z.compare_spec ea eb), (Z.compare_spec eb ec), (Z.compare_spec ea ec);
       try lia; try (intros; reflexivity); try (intros; discriminate).
  all: destruct (Pos.compare_spec ma mb), (Pos.compare_spec mb mc), (Pos.compare_spec ma mc);
       simpl; try lia; try (intros; reflexivity); try (intros; discriminate).
Qed.

(** [<=] on numbers is transitive ([NaN] compares false with everything). *)
Lemma Number_le_trans (a b c : float) :
  Number.le a b = true -> Number.le b c = true -> Number.le a c = true.
Proof.
  unfold Number.le. rewrite !FloatAxioms.leb_spec. apply SFleb_trans.
Qed.

(* ------------------------------------------------------------------ *)
(** ** The decision engine and the trigram fallback *)

Section Pipeline.

Variable U : UnicodeData.
Variable englishDictionary : jsstring -> bool.
Variable wordsToRemove : list (jsstring * bool).
Variable francAll : jsstring -> list (jsstring * float).

Local Abbreviation detect := (detectNonEnglishText U englishDictionary wordsToRemove francAll).
Local Abbreviation isEnglish' := (isEnglish U englishDictionary wordsToRemove francAll).
Local Abbreviation verdict' := (verdict U englishDictionary wordsToRemove francAll).
Local Abbreviation cachesOk' := (cachesOk U englishDictionary francAll).
Local Abbreviation wordsOf' := (wordsOf U wordsToRemove).
Local Abbreviation ratioOf' := (ratioOf U englishDictionary wordsToRemove).

(** The cache states a client can bring about: the caches start empty and
    change only through the exported functions. *)
Inductive reachable : Caches -> Prop :=
| reach_init : reachable emptyCaches
| reach_detect v o st :
    reachable st -> reachable (caches (detect v o st))
| reach_isEnglish v o st :
    reachable st -> reachable (caches (isEnglish' v o st))
| reach_clear st :
    reachable st -> reachable (clearLanguageDetectorCaches st).

Lemma isEnglish_caches v o st :
  caches (isEnglish' v o st) = caches (detect v o st).
Proof.
  unfold isEnglish, bind, caches.
  destruct (detect v o st) as [[b|e] st']; reflexivity.
Qed.

Lemma reachable_cachesOk st : reachable st -> cachesOk' st.
Proof.
  induction 1 as [|v o st _ IH|v o st _ IH|st _ IH].
  - apply cachesOk_empty.
  - apply detectNonEnglishText_memo, IH.
  - rewrite isEnglish_caches. apply detectNonEnglishText_memo, IH.
  - apply cachesOk_clear.
Qed.

Lemma detect_reachable v o st : reachable st -> result (detect v o st) = verdict' v o.
Proof.
  intros Hst. apply detectNonEnglishText_memo, reachable_cachesOk, Hst.
Qed.

(** C2. The caches are pure memoization: in any two cache states a client
    can reach, [detectNonEnglishText t o] gives the same result; in
    particular a second call gives what the first gave, and clearing both
    caches changes no later result. *)
Theorem C2_caches_pure_memoization (v : value) (o : DetectionOptions)
    (st st' : Caches) :
  reachable st -> reachable st' ->
  result (detect v o st) = result (detect v o st')
  /\ result (detect v o (caches (detect v o st))) = result (detect v o st)
  /\ result (detect v o (clearLanguageDetectorCaches st)) = result (detect v o st).
Proof.
  intros Hst Hst'.
  rewrite (detect_reachable v o st Hst), (detect_reachable v o st' Hst').
  rewrite (detect_reachable v o _ (reach_detect v o st Hst)).
  rewrite (detect_reachable v o _ (reach_clear st Hst)).
  repeat split.
Qed.

Lemma threshold_monotone_in_state (v : value) (o : DetectionOptions)
    (t1 t2 : float) (st : Caches) :
  Number.le t1 t2 = true ->
  result (detect v (withThreshold o (Some t1)) st) = Returned true ->
  result (detect v (withThreshold o (Some t2)) st) = Returned true.
Proof.
  intros Hle.
  rewrite !detectNonEnglishText_unfold.
  destruct (isNonEmptyString v) as [s|]; [|exact (fun H => H)].
  destruct (length (trim s) =? 0)%nat; [exact (fun H => H)|].
  change (wordsOf' s (withThreshold o (Some t1))) with (wordsOf' s o).
  change (wordsOf' s (withThreshold o (Some t2))) with (wordsOf' s o).
  destruct (length (wordsOf' s o) =? 0)%nat; [exact (fun H => H)|].
  change (minWordLength (withThreshold o (Some t1))) with (minWordLength o).
  change (minWordLength (withThreshold o (Some t2))) with (minWordLength o).
  change (wordOptionsOf (withThreshold o (Some t1))) with (wordOptionsOf o).
  change (wordOptionsOf (withThreshold o (Some t2))) with (wordOptionsOf o).
  rewrite !bind_result.
  destruct (result (countWords U englishDictionary _ _ _ 0 0 st)) as [counts|e];
    [|exact (fun H => H)].
  unfold effectiveThreshold.
  destruct (length (wordsOf' s o) <=? 4)%nat; [exact (fun H => H)|].
  cbn [englishThreshold withThreshold orDefault].
  set (ratio := englishRatioOf (fst counts) (snd counts)).
  destruct (Number.ge ratio t1) eqn:H1; [discriminate|].
  destruct (Number.ge ratio t2) eqn:H2; [|exact (fun H => H)].
  unfold Number.ge in H1, H2.
  pose proof (Number_le_trans t1 t2 ratio Hle H2) as H3.
  unfold Number.le in H3. congruence.
Qed.

(** C3. Monotonicity in [englishThreshold]: with every other option
    fixed and [t1 <= t2], if the call with threshold [t1] returns [true]
    (non-English) then so does the call with [t2], be it made in the same
    cache state or in any other state a client can reach. *)
Theorem C3_threshold_monotone (v : value) (o : DetectionOptions) (t1 t2 : float) :
  Number.le t1 t2 = true ->
  (forall st,
     result (detect v (withThreshold o (Some t1)) st) = Returned true ->
     result (detect v (withThreshold o (Some t2)) st) = Returned true)
  /\ (forall st st', reachable st -> reachable st' ->
       result (detect v (withThreshold o (Some t1)) st) = Returned true ->
       result (detect v (withThreshold o (Some t2)) st') = Returned true).
Proof.
  intros Hle. split.
  - intros st. apply threshold_monotone_in_state, Hle.
  - intros st st' Hst Hst' H1.
    rewrite (detect_reachable _ _ _ Hst) in H1.
    rewrite (detect_reachable _ _ _ Hst').
    rewrite <- (detect_reachable _ _ _ reach_init) in H1.
    rewrite <- (detect_reachable _ _ _ reach_init).
    exact (threshold_monotone_in_state v o t1 t2 emptyCaches Hle H1).
Qed.

(** C4. When the preprocessed text splits into at most four tokens, the
    threshold the english ratio is compared with is 0.6 whatever
    [englishThreshold] is configured (above, below, or absent): the call
    does not depend on the configured value, and its result is decided by
    the comparison of the ratio with 0.6. A ratio of at least 0.6 returns
    [false]; a ratio below 0.6 is also below the rescue bound 0.7, so the
    call returns [true] when the identifier ranks a candidate and throws
    when it ranks none. *)
Theorem C4_short_text_threshold (s : jsstring) (o : DetectionOptions)
    (th : option float) (st : Caches) :
  length (wordsOf' s o) <= 4 ->
  effectiveThreshold (withThreshold o th) (wordsOf' s (withThreshold o th)) = 0.6%float
  /\ detect (VString s) (withThreshold o th) st = detect (VString s) o st
  /\ (reachable st -> length (trim s) <> 0 ->
      result (detect (VString s) (withThreshold o th) st)
      = if Number.ge (ratioOf' s o) 0.6%float then Returned false
        else match analysisOutcome francAll s with
             | Returned _ => Returned true
             | Thrown e => Thrown e
             end).
Proof.
  intros Hshort.
  change (wordsOf' s (withThreshold o th)) with (wordsOf' s o).
  assert (Heff : forall o', effectiveThreshold o' (wordsOf' s o) = 0.6%float).
  { intros o'. unfold effectiveThreshold.
    apply Nat.leb_le in Hshort. rewrite Hshort. reflexivity. }
  split; [apply Heff|]. split.
  - rewrite !detectNonEnglishText_unfold. unfold isNonEmptyString.
    destruct (0 <? length s)%nat; [|reflexivity].
    change (wordsOf' s (withThreshold o th)) with (wordsOf' s o).
    rewrite !Heff. reflexivity.
  - intros Hst Hnonblank.
    rewrite (detect_reachable _ _ _ Hst). unfold verdict, isNonEmptyString.
    assert (Hlen : (0 <? length s)%nat = true).
    { apply Nat.ltb_lt. destruct s; [simpl in Hnonblank; congruence|simpl; lia]. }
    rewrite Hlen. apply Nat.eqb_neq in Hnonblank. rewrite Hnonblank.
    change (wordsOf U wordsToRemove s (withThreshold o th)) with (wordsOf' s o).
    change (ratioOf U englishDictionary wordsToRemove s (withThreshold o th))
      with (ratioOf' s o).
    assert (Hwords : (length (wordsOf' s o) =? 0)%nat = false).
    { apply Nat.eqb_neq. unfold wordsOf.
      pose proof (split_nonempty SPACE
        (preprocessText U wordsToRemove s (customPatterns o) (excludeWords o))) as Hne.
      destruct (split SPACE _); [congruence|simpl; lia]. }
    rewrite Hwords, Heff.
    destruct (Number.ge (ratioOf' s o) 0.6%float) eqn:Hge; [reflexivity|].
    assert (Hlow7 : Number.ge (ratioOf' s o) 0.7%float = false).
    { destruct (Number.ge (ratioOf' s o) 0.7%float) eqn:H7; [|reflexivity].
      unfold Number.ge in H7, Hge.
      assert (H67 : Number.le 0.6%float 0.7%float = true) by (vm_compute; reflexivity).
      pose proof (Number_le_trans _ _ _ H67 H7) as Hc.
      unfold Number.le in Hc. congruence. }
    destruct (analysisOutcome francAll s) as [r|e]; [|reflexivity].
    unfold rescued. rewrite Hlow7, andb_false_r. reflexivity.
Qed.

(** *** Trigram fallback *)

Definition asLanguageResult (c : jsstring * float) : LanguageResult :=
  {| language := fst c; confidence := snd c |}.

(** The policy in the words of the specification: among the first five
    candidates the first one that is English with confidence at least 0.9,
    otherwise the top-ranked candidate. *)
Definition trigramPolicy (top : jsstring * float) (ranking : list (jsstring * float))
    : jsstring * float :=
  match find isHighConfidenceEnglish (firstn 5 ranking) with
  | Some c => c
  | None => top
  end.

Lemma scanCandidates_find cands :
  scanCandidates cands = find isHighConfidenceEnglish cands.
Proof.
  induction cands as [|c rest IH]; simpl; [reflexivity|].
  destruct (isHighConfidenceEnglish c); [reflexivity|exact IH].
Qed.

Lemma analysisOutcome_policy text top rest :
  francAll text = top :: rest ->
  analysisOutcome francAll text
    = Returned (asLanguageResult (trigramPolicy top (francAll text))).
Proof.
  intros Hall. unfold analysisOutcome, analysis, trigramPolicy.
  rewrite scanCandidates_find.
  destruct (find isHighConfidenceEnglish (firstn 5 (francAll text))) as [[l c]|].
  - reflexivity.
  - rewrite Hall. destruct top as [l c]. reflexivity.
Qed.

(** C6. When the identifier ranks at least one candidate for the text,
    the analyzer looks at the first five candidates only: it returns the
    first of them that is English with confidence at least 0.9, and
    otherwise the top-ranked candidate whatever its language and
    confidence; candidates after the fifth never matter. *)
Theorem C6_trigram_policy (text : jsstring) (top : jsstring * float)
    (rest : list (jsstring * float)) (st : Caches) :
  reachable st ->
  francAll text = top :: rest ->
  let answer := trigramPolicy top (top :: rest) in
  result (francLanguageAnalysis francAll text st) = Returned (asLanguageResult answer)
  /\ (forall c, In c (firstn 5 (top :: rest)) -> isHighConfidenceEnglish c = true ->
        In answer (firstn 5 (top :: rest))
        /\ language (asLanguageResult answer) = str "eng"
        /\ Number.ge (confidence (asLanguageResult answer)) 0.9%float = true)
  /\ ((forall c, In c (firstn 5 (top :: rest)) -> isHighConfidenceEnglish c = false) ->
        answer = top)
  /\ (forall others, firstn 5 others = firstn 5 (top :: rest) ->
        trigramPolicy top others = answer).
Proof.
  intros Hst Hall answer. subst answer.
  split; [|split; [|split]].
  - rewrite <- Hall. rewrite <- (analysisOutcome_policy text top rest Hall).
    apply francLanguageAnalysis_memo with (U := U) (englishDictionary := englishDictionary).
    apply reachable_cachesOk, Hst.
  - intros c Hin Hc. unfold trigramPolicy.
    destruct (find isHighConfidenceEnglish (firstn 5 (top :: rest))) as [c'|] eqn:Hfind.
    + apply find_some in Hfind. destruct Hfind as [Hin' Hc'].
      split; [exact Hin'|].
      unfold isHighConfidenceEnglish in Hc'.
      apply andb_true_iff in Hc'. destruct Hc' as [Heng Hconf].
      split; [apply JSString.eqb_eq, Heng|exact Hconf].
    + pose proof (find_none _ _ Hfind c Hin). congruence.
  - intros Hnone. unfold trigramPolicy.
    destruct (find isHighConfidenceEnglish (firstn 5 (top :: rest))) as [c'|] eqn:Hfind;
      [|reflexivity].
    apply find_some in Hfind. destruct Hfind as [Hin' Hc'].
    rewrite (Hnone c' Hin') in Hc'. discriminate.
  - intros others Hsame. unfold trigramPolicy. rewrite Hsame. reflexivity.
Qed.

(** C7, as the code has it. When the identifier returns an empty ranking
    for the input text, [detectNonEnglishText] does not fail closed: for a
    non-blank string it raises a [TypeError] whenever the english ratio is
    below the effective threshold, and returns [false] otherwise; it never
    returns [true]. *)
Theorem C7_empty_ranking_throws (s : jsstring) (o : DetectionOptions) (st : Caches) :
  reachable st ->
  francAll s = [] ->
  length (trim s) <> 0 ->
  result (detect (VString s) o st)
    = if Number.ge (ratioOf' s o) (effectiveThreshold o (wordsOf' s o))
      then Returned false
      else Thrown TypeError.
Proof.
  intros Hst Hall Hnonblank.
  rewrite (detect_reachable _ _ _ Hst). unfold verdict, isNonEmptyString.
  assert (Hlen : (0 <? length s)%nat = true).
  { apply Nat.ltb_lt. destruct s; [simpl in Hnonblank; congruence|simpl; lia]. }
  rewrite Hlen.
  apply Nat.eqb_neq in Hnonblank. rewrite Hnonblank.
  assert (Hwords : (length (wordsOf' s o) =? 0)%nat = false).
  { apply Nat.eqb_neq. unfold wordsOf.
    pose proof (split_nonempty SPACE
      (preprocessText U wordsToRemove s (customPatterns o) (excludeWords o))) as Hne.
    destruct (split SPACE _); [congruence|simpl; lia]. }
  rewrite Hwords.
  destruct (Number.ge _ _); [reflexivity|].
  unfold analysisOutcome, analysis. rewrite Hall. reflexivity.
Qed.

(** Whenever the ratio test fails on a non-blank string, the answer is
    made from the analysis of the input text as it was passed in. *)
Lemma fallback_on_input_text (s : jsstring) (o : DetectionOptions) (st : Caches) :
  reachable st ->
  length (trim s) <> 0 ->
  Number.ge (ratioOf' s o) (effectiveThreshold o (wordsOf' s o)) = false ->
  result (detect (VString s) o st)
  = match analysisOutcome francAll s with
    | Returned r => Returned (negb (rescued r (ratioOf' s o)))
    | Thrown e => Thrown e
    end.
Proof.
  intros Hst Hnonblank Hlow.
  rewrite (detect_reachable _ _ _ Hst). unfold verdict, isNonEmptyString.
  assert (Hlen : (0 <? length s)%nat = true).
  { apply Nat.ltb_lt. destruct s; [simpl in Hnonblank; congruence|simpl; lia]. }
  rewrite Hlen.
  apply Nat.eqb_neq in Hnonblank. rewrite Hnonblank.
  assert (Hwords : (length (wordsOf' s o) =? 0)%nat = false).
  { apply Nat.eqb_neq. unfold wordsOf.
    pose proof (split_nonempty SPACE
      (preprocessText U wordsToRemove s (customPatterns o) (excludeWords o))) as Hne.
    destruct (split SPACE _); [congruence|simpl; lia]. }
  rewrite Hwords, Hlow. reflexivity.
Qed.

End Pipeline.

(* ------------------------------------------------------------------ *)
(** ** Concrete runs *)

Module Sample.

(** A small dictionary, a two-entry geographical table and three stand-ins
    for [franc]. *)
Definition dictionary (w : jsstring) : bool :=
  existsb (JSString.eqb w)
    (map str ["a"; "good"; "the"; "theater"; "is"; "great"; "hello"; "world"]%string).

Definition geoTerms : list (jsstring * bool) :=
  [(str "Paris", true); (str "France", true)].

Definition undetermined (_ : jsstring) : list (jsstring * float) :=
  [(str "und", 1%float)].

Definition noRanking (_ : jsstring) : list (jsstring * float) := [].

Definition ranking (_ : jsstring) : list (jsstring * float) :=
  [(str "fra", 0.97%float); (str "eng", 0.93%float); (str "deu", 0.5%float)].

(** English for the cleaned text of the C5 run, German for anything else. *)
Definition englishIfCleaned (text : jsstring) : list (jsstring * float) :=
  if JSString.eqb text (str "a good good good bzzt")
  then [(str "eng", 0.95%float)]
  else [(str "deu", 0.95%float)].

Definition run (francAll : jsstring -> list (jsstring * float))
    (text : string) (o : DetectionOptions) (st : Caches) : outcome bool * Caches :=
  detectNonEnglishText Latin.tables dictionary geoTerms francAll (VString (str text)) o st.

Definition reachable' (francAll : jsstring -> list (jsstring * float)) : Caches -> Prop :=
  reachable Latin.tables dictionary geoTerms francAll.

End Sample.

Lemma C2_caches_pure_memoization_witness :
  let st := emptyCaches in
  let st' := caches (Sample.run Sample.undetermined "zzz qqq the" noOptions emptyCaches) in
  Sample.reachable' Sample.undetermined st
  /\ Sample.reachable' Sample.undetermined st'
  /\ result (Sample.run Sample.undetermined "zzz qqq the" noOptions st)
     = result (Sample.run Sample.undetermined "zzz qqq the" noOptions st')
  /\ result (Sample.run Sample.undetermined "zzz qqq the" noOptions
               (caches (Sample.run Sample.undetermined "zzz qqq the" noOptions st)))
     = result (Sample.run Sample.undetermined "zzz qqq the" noOptions st)
  /\ result (Sample.run Sample.undetermined "zzz qqq the" noOptions
               (clearLanguageDetectorCaches st))
     = result (Sample.run Sample.undetermined "zzz qqq the" noOptions st).
Proof.
  intros st st'.
  assert (H0 : Sample.reachable' Sample.undetermined st) by apply reach_init.
  assert (H1 : Sample.reachable' Sample.undetermined st')
    by (apply reach_detect; exact H0).
  split; [exact H0|]. split; [exact H1|].
  exact (C2_caches_pure_memoization Latin.tables Sample.dictionary Sample.geoTerms
           Sample.undetermined (VString (str "zzz qqq the")) noOptions st st' H0 H1).
Defined.

Lemma C3_threshold_monotone_witness :
  Number.le 0.5%float 0.9%float = true
  /\ result (Sample.run Sample.undetermined "zzz qqq xxx yyy www"
               (withThreshold noOptions (Some 0.5%float)) emptyCaches) = Returned true
  /\ result (Sample.run Sample.undetermined "zzz qqq xxx yyy www"
               (withThreshold noOptions (Some 0.9%float)) emptyCaches) = Returned true.
Proof.
  assert (H0 : Number.le 0.5%float 0.9%float = true) by (vm_compute; reflexivity).
  assert (H1 : result (Sample.run Sample.undetermined "zzz qqq xxx yyy www"
                 (withThreshold noOptions (Some 0.5%float)) emptyCaches) = Returned true)
    by (vm_compute; reflexivity).
  split; [exact H0|]. split; [exact H1|].
  exact (proj1 (C3_threshold_monotone Latin.tables Sample.dictionary Sample.geoTerms
                  Sample.undetermined (VString (str "zzz qqq xxx yyy www")) noOptions
                  0.5%float 0.9%float H0) emptyCaches H1).
Defined.

Lemma C4_short_text_threshold_witness :
  let o := withThreshold noOptions (Some 0.95%float) in
  let ratio := ratioOf Latin.tables Sample.dictionary Sample.geoTerms
                 (str "good good zzz") noOptions in
  length (wordsOf Latin.tables Sample.geoTerms (str "good good zzz") noOptions) <= 4
  /\ Sample.reachable' Sample.ranking emptyCaches
  /\ length (trim (str "good good zzz")) <> 0
  /\ Number.ge ratio 0.6%float = true
  /\ Number.ge ratio 0.95%float = false
  /\ effectiveThreshold o (wordsOf Latin.tables Sample.geoTerms (str "good good zzz") o)
     = 0.6%float
  /\ Sample.run Sample.ranking "good good zzz" o emptyCaches
     = Sample.run Sample.ranking "good good zzz" noOptions emptyCaches
  /\ result (Sample.run Sample.ranking "good good zzz" o emptyCaches)
     = if Number.ge ratio 0.6%float then Returned false
       else match analysisOutcome Sample.ranking (str "good good zzz") with
            | Returned _ => Returned true
            | Thrown e => Thrown e
            end.
Proof.
  intros o ratio.
  assert (H0 : length (wordsOf Latin.tables Sample.geoTerms (str "good good zzz") noOptions)
               <= 4) by (vm_compute; lia).
  assert (H1 : Sample.reachable' Sample.ranking emptyCaches) by apply reach_init.
  assert (H2 : length (trim (str "good good zzz")) <> 0)
    by (vm_compute; intros H; discriminate H).
  assert (H3 : Number.ge ratio 0.6%float = true) by (vm_compute; reflexivity).
  assert (H4 : Number.ge ratio 0.95%float = false) by (vm_compute; reflexivity).
  repeat (split; [assumption|]).
  pose proof (C4_short_text_threshold Latin.tables Sample.dictionary Sample.geoTerms
                Sample.ranking (str "good good zzz") noOptions (Some 0.95%float)
                emptyCaches H0) as (Heff & Hsame & Hdecided).
  split; [exact Heff|]. split; [exact Hsame|]. exact (Hdecided H1 H2).
Defined.

Lemma C6_trigram_policy_witness :
  Sample.reachable' Sample.ranking emptyCaches
  /\ Sample.ranking (str "abc")
     = (str "fra", 0.97%float) :: [(str "eng", 0.93%float); (str "deu", 0.5%float)]
  /\ result (francLanguageAnalysis Sample.ranking (str "abc") emptyCaches)
     = Returned {| language := str "eng"; confidence := 0.93%float |}.
Proof.
  assert (H0 : Sample.reachable' Sample.ranking emptyCaches) by apply reach_init.
  split; [exact H0|]. split; [reflexivity|].
  exact (proj1 (C6_trigram_policy Latin.tables Sample.dictionary Sample.geoTerms
                  Sample.ranking (str "abc") (str "fra", 0.97%float)
                  [(str "eng", 0.93%float); (str "deu", 0.5%float)]
                  emptyCaches H0 eq_refl)).
Defined.

(** C7, against the claim as stated: with an empty ranking the call does
    not return [true], it throws. *)
Lemma C7_empty_ranking_counterexample :
  Sample.noRanking (str "zzz qqq xxx") = []
  /\ result (Sample.run Sample.noRanking "zzz qqq xxx" noOptions emptyCaches)
     = Thrown TypeError
  /\ result (Sample.run Sample.noRanking "zzz qqq xxx" noOptions emptyCaches)
     <> Returned true.
Proof.
  split; [reflexivity|]. split; [vm_compute; reflexivity|].
  vm_compute. intros H. discriminate H.
Qed.

Lemma C7_empty_ranking_throws_witness :
  Sample.reachable' Sample.noRanking emptyCaches
  /\ Sample.noRanking (str "zzz qqq xxx") = []
  /\ length (trim (str "zzz qqq xxx")) <> 0
  /\ result (Sample.run Sample.noRanking "zzz qqq xxx" noOptions emptyCaches)
     = Thrown TypeError.
Proof.
  assert (H0 : Sample.reachable' Sample.noRanking emptyCaches) by apply reach_init.
  assert (H1 : length (trim (str "zzz qqq xxx")) <> 0)
    by (vm_compute; intros H; discriminate H).
  split; [exact H0|]. split; [reflexivity|]. split; [exact H1|].
  exact (C7_empty_ranking_throws Latin.tables Sample.dictionary Sample.geoTerms
           Sample.noRanking (str "zzz qqq xxx") noOptions emptyCaches H0 eq_refl H1).
Defined.

(** C5, a run of the code. The input differs from its preprocessed text;
    the english ratio is 3/4, below the default threshold 0.8. The
    identifier is consulted on the input as given: the trigram cache is
    keyed by it and the answer is the one for it (German, so [true]),
    while on the preprocessed text the identifier says English with
    confidence 0.95, which would have rescued the text. *)
Lemma C5_fallback_reads_raw_input :
  let raw := str "a good good good bzzt #1" in
  let cleaned := preprocessText Latin.tables Sample.geoTerms raw None None in
  let r := Sample.run Sample.englishIfCleaned "a good good good bzzt #1" noOptions emptyCaches in
  cleaned = str "a good good good bzzt"
  /\ cleaned <> raw
  /\ result r = Returned true
  /\ JSMap.keys (francCache (caches r)) = [raw]
  /\ result (Sample.run Sample.englishIfCleaned "a good good good bzzt" noOptions emptyCaches)
     = Returned false.
Proof.
  repeat split; try (vm_compute; reflexivity).
  vm_compute. intros H. discriminate H.
Qed.

(** C9, two runs of the code. The word [the] is removed as a whole word
    and [theater] stays; but next to a letter outside ASCII the pattern
    sees a word boundary, and [the] is cut out of the longer word. *)
Lemma C9_exclude_word_inside_longer_word :
  preprocessText Latin.tables Sample.geoTerms (str "the theater is great")
    None (Some [str "the"]) = str "theater is great"
  /\ preprocessText Latin.tables Sample.geoTerms (str "Käthe is great")
       None (Some [str "the"]) = str "Kä is great"
  /\ preprocessText Latin.tables Sample.geoTerms (str "Käthe is great")
       None None = str "Käthe is great".
Proof.
  repeat split; vm_compute; reflexivity.
Qed.

(* ------------------------------------------------------------------ *)
(** ** The bounded cache under sequences of operations *)

Section CacheTrace.

Context {K V : Type} `{EqKey K}.

(** What can be done to a cache: [cacheSet], the two read accesses, and
    [clear]. *)
Inductive cacheOp :=
| OpSet (k : K) (v : V)
| OpGet (k : K)
| OpHas (k : K)
| OpClear.

Definition applyOp (limit : nat) (c : JSMap.t K V) (op : cacheOp) : JSMap.t K V :=
  match op with
  | OpSet k v => cacheSet c limit k v
  | OpGet _ | OpHas _ => c
  | OpClear => JSMap.clear c
  end.

Definition runOps (limit : nat) (ops : list cacheOp) : JSMap.t K V :=
  fold_left (applyOp limit) ops JSMap.empty.

(** The same run with every entry tagged by the index of the operation
    that inserted it. Replacing the value of a present key keeps the tag. *)
Definition stamped := JSMap.t K (V * nat).

Fixpoint setAt (now : nat) (k : K) (v : V) (m : stamped) : stamped :=
  match m with
  | [] => [(k, (v, now))]
  | (k', (v', t')) :: rest =>
      if keyEqb k' k then (k', (v, t')) :: rest
      else (k', (v', t')) :: setAt now k v rest
  end.

Definition cacheSetAt (now : nat) (c : stamped) (limit : nat) (k : K) (v : V) : stamped :=
  let c :=
    if (limit <=? JSMap.size c)%nat then
      match JSMap.firstKey c with
      | Some firstKey => JSMap.delete firstKey c
      | None => c
      end
    else c in
  setAt now k v c.

Definition stampedStep (limit : nat) (acc : stamped * nat) (op : cacheOp) : stamped * nat :=
  (match op with
   | OpSet k v => cacheSetAt (snd acc) (fst acc) limit k v
   | OpGet _ | OpHas _ => fst acc
   | OpClear => []
   end, S (snd acc)).

Definition stampedRun (limit : nat) (ops : list cacheOp) : stamped * nat :=
  fold_left (stampedStep limit) ops ([], 0).

(** The index of the operation that inserted the entry now held for [k]. *)
Definition insertedAt (limit : nat) (ops : list cacheOp) (k : K) : option nat :=
  option_map snd (JSMap.get k (fst (stampedRun limit ops))).

Definition erase (m : stamped) : JSMap.t K V :=
  map (fun e => (fst e, fst (snd e))) m.

Definition stamps (m : stamped) : list nat := map (fun e => snd (snd e)) m.

Lemma erase_setAt now k v m : erase (setAt now k v m) = JSMap.set k v (erase m).
Proof.
  induction m as [|[k' [v' t']] rest IH]; simpl; [reflexivity|].
  destruct (keyEqb k' k); simpl; [reflexivity|now rewrite IH].
Qed.

Lemma erase_delete k m : erase (JSMap.delete k m) = JSMap.delete k (erase m).
Proof.
  induction m as [|[k' [v' t']] rest IH]; simpl; [reflexivity|].
  destruct (keyEqb k' k); simpl; [reflexivity|now rewrite IH].
Qed.

Lemma erase_size m : JSMap.size (erase m) = JSMap.size m.
Proof. apply length_map. Qed.

Lemma erase_firstKey m : JSMap.firstKey (erase m) = JSMap.firstKey m.
Proof. destruct m as [|[k' [v' t']] rest]; reflexivity. Qed.

Lemma erase_keys m : JSMap.keys (erase m) = JSMap.keys m.
Proof. unfold JSMap.keys, erase. rewrite map_map. reflexivity. Qed.

Lemma erase_cacheSetAt now c limit k v :
  erase (cacheSetAt now c limit k v) = cacheSet (erase c) limit k v.
Proof.
  unfold cacheSetAt, cacheSet.
  rewrite erase_setAt, erase_size, erase_firstKey.
  destruct (limit <=? JSMap.size c)%nat; [|reflexivity].
  destruct (JSMap.firstKey c); [|reflexivity].
  now rewrite erase_delete.
Qed.

Lemma erase_fold limit ops acc :
  erase (fst (fold_left (stampedStep limit) ops acc))
  = fold_left (applyOp limit) ops (erase (fst acc)).
Proof.
  revert acc. induction ops as [|op ops IH]; intros acc; simpl; [reflexivity|].
  rewrite IH. f_equal.
  destruct op; simpl; try reflexivity. apply erase_cacheSetAt.
Qed.

(** The tags are bookkeeping only: forgetting them gives the plain run. *)
Lemma erase_stampedRun limit ops : erase (fst (stampedRun limit ops)) = runOps limit ops.
Proof. apply erase_fold. Qed.

(** Keys are distinct and the tags grow along the insertion order. *)
Definition ordered (now : nat) (m : stamped) : Prop :=
  NoDup (JSMap.keys m)
  /\ StronglySorted lt (stamps m)
  /\ Forall (fun t => t < now) (stamps m).

Lemma NoDup_snoc (l : list K) (k : K) : NoDup l -> ~ In k l -> NoDup (l ++ [k]).
Proof.
  induction 1 as [|x l Hx Hl IH]; intros Hk; simpl.
  - constructor; [tauto|constructor].
  - constructor.
    + rewrite in_app_iff. simpl. intros [Hin|[->|[]]]; [tauto|].
      apply Hk. now left.
    + apply IH. intros Hin. apply Hk. now right.
Qed.

Lemma StronglySorted_snoc (l : list nat) (n : nat) :
  StronglySorted lt l -> Forall (fun t => t < n) l -> StronglySorted lt (l ++ [n]).
Proof.
  induction 1 as [|x l Hl IH Hx]; intros Hn; simpl.
  - repeat constructor.
  - inversion Hn as [|? ? Hxn Hln]; subst.
    constructor; [exact (IH Hln)|].
    apply Forall_app. split; [exact Hx|repeat constructor; exact Hxn].
Qed.

Lemma setAt_shape now k v m :
  (JSMap.keys (setAt now k v m) = JSMap.keys m /\ stamps (setAt now k v m) = stamps m)
  \/ (~ In k (JSMap.keys m)
      /\ JSMap.keys (setAt now k v m) = JSMap.keys m ++ [k]
      /\ stamps (setAt now k v m) = stamps m ++ [now]).
Proof.
  induction m as [|[k' [v' t']] rest IH]; simpl.
  - right. repeat split. tauto.
  - destruct (keyEqb k' k) eqn:E; simpl.
    + left. split; reflexivity.
    + destruct IH as [[Hk Hs]|(Hnot & Hk & Hs)].
      * left. now rewrite Hk, Hs.
      * right. rewrite Hk, Hs. repeat split.
        intros [->|Hin]; [|tauto].
        rewrite keyEqb_refl in E. discriminate.
Qed.

Lemma ordered_setAt now k v m : ordered now m -> ordered (S now) (setAt now k v m).
Proof.
  intros (Hnd & Hss & Hlt).
  assert (Hlt' : Forall (fun t => t < S now) (stamps m)).
  { eapply Forall_impl; [|exact Hlt]. simpl. lia. }
  destruct (setAt_shape now k v m) as [[Hk Hs]|(Hnot & Hk & Hs)];
    unfold ordered; rewrite Hk, Hs.
  - repeat split; assumption.
  - repeat split.
    + apply NoDup_snoc; assumption.
    + apply StronglySorted_snoc; assumption.
    + apply Forall_app. split; [exact Hlt'|repeat constructor].
Qed.

Lemma ordered_tail now e m : ordered now (e :: m) -> ordered now m.
Proof.
  intros (Hnd & Hss & Hlt). unfold ordered. simpl in *.
  inversion Hnd; inversion Hss; inversion Hlt; subst. repeat split; assumption.
Qed.

Lemma ordered_cacheSetAt now c limit k v :
  ordered now c -> ordered (S now) (cacheSetAt now c limit k v).
Proof.
  intros Hc. unfold cacheSetAt. apply ordered_setAt.
  destruct (limit <=? JSMap.size c)%nat; [|exact Hc].
  destruct c as [|[k0 [v0 t0]] rest]; simpl; [exact Hc|].
  rewrite keyEqb_refl. exact (ordered_tail _ _ _ Hc).
Qed.

Lemma ordered_later now m : ordered now m -> ordered (S now) m.
Proof.
  intros (Hnd & Hss & Hlt). repeat split; try assumption.
  eapply Forall_impl; [|exact Hlt]. simpl. lia.
Qed.

Lemma ordered_fold limit ops acc :
  ordered (snd acc) (fst acc) ->
  ordered (snd (fold_left (stampedStep limit) ops acc))
          (fst (fold_left (stampedStep limit) ops acc)).
Proof.
  revert acc. induction ops as [|op ops IH]; intros acc Hacc; simpl; [exact Hacc|].
  apply IH. destruct op; simpl.
  - apply ordered_cacheSetAt, Hacc.
  - apply ordered_later, Hacc.
  - apply ordered_later, Hacc.
  - repeat split; constructor.
Qed.

Lemma ordered_stampedRun limit ops :
  ordered (snd (stampedRun limit ops)) (fst (stampedRun limit ops)).
Proof. apply ordered_fold. repeat split; constructor. Qed.

Lemma runOps_size limit ops : 0 < limit -> JSMap.size (runOps limit ops) <= limit.
Proof.
  intros Hpos. unfold runOps.
  assert (Hgen : forall c, JSMap.size c <= limit ->
                 JSMap.size (fold_left (applyOp limit) ops c) <= limit).
  { induction ops as [|op ops IH]; intros c Hc; simpl; [exact Hc|].
    apply IH. destruct op; simpl; try exact Hc.
    - apply cacheSet_size; assumption.
    - unfold JSMap.size. simpl. lia. }
  apply Hgen. unfold JSMap.size. simpl. lia.
Qed.

(** C8. After any sequence of cache operations the trigram cache (limit
    1000) holds at most 1000 entries and the word cache (limit 5000) at
    most 5000. A [cacheSet] performed at capacity evicts exactly one
    entry before it inserts: the first one, which is the entry inserted
    earliest among those still present, whatever reads came in between. *)
Theorem C8_cache_capacity_fifo (limit : nat) (ops : list cacheOp) (k : K) (v : V) :
  limit = FRANC_CACHE_LIMIT \/ limit = WORD_CACHE_LIMIT ->
  let c := runOps limit ops in
  JSMap.size c <= limit
  /\ JSMap.size (cacheSet c limit k v) <= limit
  /\ (limit <= JSMap.size c ->
      exists k0 v0 rest t0,
        c = (k0, v0) :: rest
        /\ JSMap.size rest = JSMap.size c - 1
        /\ cacheSet c limit k v = JSMap.set k v rest
        /\ insertedAt limit ops k0 = Some t0
        /\ forall k' t', In k' (JSMap.keys rest) ->
             insertedAt limit ops k' = Some t' -> t0 < t').
Proof.
  intros Hlimit c.
  assert (Hpos : 0 < limit).
  { destruct Hlimit as [-> | ->]; unfold FRANC_CACHE_LIMIT, WORD_CACHE_LIMIT; lia. }
  pose proof (runOps_size limit ops Hpos) as Hsize. fold c in Hsize.
  split; [exact Hsize|]. split; [apply cacheSet_size; assumption|].
  intros Hfull.
  destruct (cacheSet_at_capacity c limit k v Hpos Hfull)
    as (k0 & v0 & rest & Hc & _ & _ & Hset).
  pose proof (erase_stampedRun limit ops) as Herase. fold c in Herase.
  pose proof (ordered_stampedRun limit ops) as (Hnd & Hss & _).
  unfold insertedAt.
  destruct (fst (stampedRun limit ops)) as [|[k1 [v1 t1]] srest];
    [rewrite Hc in Herase; discriminate|].
  rewrite Hc in Herase. simpl in Herase. injection Herase as <- <- Hrest.
  exists k1, v1, rest, t1. repeat split.
  - exact Hc.
  - rewrite Hc. unfold JSMap.size. simpl. lia.
  - exact Hset.
  - simpl. now rewrite keyEqb_refl.
  - intros k' t' Hin Hget. rewrite <- Hrest, erase_keys in Hin.
    simpl in Hnd, Hss, Hget.
    inversion Hnd as [|? ? Hnot _]; subst.
    destruct (keyEqb k1 k') eqn:E.
    + apply keyEqb_eq in E. subst. contradiction.
    + destruct (JSMap.get k' srest) as [[v' t'']|] eqn:Hg; [|discriminate].
      simpl in Hget. injection Hget as ->.
      apply get_In in Hg.
      inversion Hss as [|? ? _ Hall]; subst.
      rewrite Forall_forall in Hall. apply Hall.
      unfold stamps. apply in_map_iff. exists (k', (v', t')). split; [reflexivity|exact Hg].
Qed.

End CacheTrace.

(* ------------------------------------------------------------------ *)
(** ** Regular expressions: matching and replacing *)

Section RegExpFacts.

Variable U : UnicodeData.

Import RegExp.

(** A matcher calls its continuation only at positions that are not to
    the left of where it started. *)
Definition local (m : matcherT) : Prop :=
  forall x k1 k2,
    (forall y, length (after y) <= length (after x) -> k1 y = k2 y) ->
    m x k1 = m x k2.

Lemma step_local (accept : N -> bool) : local (fun x k => step x k accept).
Proof.
  intros x k1 k2 Hk. unfold step.
  destruct (after x) as [|ch rest] eqn:E; [reflexivity|].
  destruct (accept ch); [|reflexivity].
  apply Hk. simpl. lia.
Qed.

(** The fuel of [repeatMatcher] never runs out: any amount above
    [lo + length (after x)] gives the same result. *)
Lemma repeatMatcher_fuel (m : matcherT) (Hm : local m) (fuel1 fuel2 lo : nat)
    (hi : option nat) (x : position) (k1 k2 : position -> option position) :
  lo + length (after x) < fuel1 -> lo + length (after x) < fuel2 ->
  (forall y, length (after y) <= length (after x) -> k1 y = k2 y) ->
  repeatMatcher m fuel1 lo hi x k1 = repeatMatcher m fuel2 lo hi x k2.
Proof.
  revert fuel2 lo hi x.
  induction fuel1 as [|fuel1 IH]; intros fuel2 lo hi x H1 H2 Hk; [lia|].
  destruct fuel2 as [|fuel2]; [lia|]. simpl.
  assert (Hd : forall y, length (after y) <= length (after x) ->
    (if ((lo =? 0) && (length (after y) =? length (after x)))%nat then None
     else repeatMatcher m fuel1 (Nat.pred lo) (option_map Nat.pred hi) y k1)
    = (if ((lo =? 0) && (length (after y) =? length (after x)))%nat then None
       else repeatMatcher m fuel2 (Nat.pred lo) (option_map Nat.pred hi) y k2)).
  { intros y Hy.
    destruct ((lo =? 0) && (length (after y) =? length (after x)))%nat eqn:E;
      [reflexivity|].
    apply andb_false_iff in E.
    assert (Hlt : Nat.pred lo + length (after y) < lo + length (after x)).
    { destruct E as [E|E].
      - apply Nat.eqb_neq in E. lia.
      - apply Nat.eqb_neq in E. lia. }
    apply IH; try lia.
    intros z Hz. apply Hk. lia. }
  assert (Hx : k1 x = k2 x) by (apply Hk; lia).
  destruct hi as [[|h]|]; try exact Hx;
    (destruct lo as [|lo'];
     [rewrite (Hm x _ _ Hd), Hx; reflexivity|exact (Hm x _ _ Hd)]).
Qed.

Lemma matcher_local (icase : bool) (r : regex) : local (matcher U icase r).
Proof.
  induction r as [|c| |negated items|a IHa b IHb|a IHa b IHb|lo hi a IHa| | |];
    intros x k1 k2 Hk; cbn [matcher].
  - apply Hk. lia.
  - apply step_local, Hk.
  - apply step_local, Hk.
  - apply step_local, Hk.
  - apply IHa. intros y Hy. apply IHb. intros z Hz. apply Hk. lia.
  - rewrite (IHa x k1 k2 Hk), (IHb x k1 k2 Hk). reflexivity.
  - apply repeatMatcher_fuel; try lia; assumption.
  - destruct (xorb _ _); [apply Hk; lia|reflexivity].
  - destruct (before x); [reflexivity|apply Hk; lia].
  - destruct (after x) eqn:E; [apply Hk; rewrite E; simpl; lia|reflexivity].
Qed.

(** The quantifier of the model with any larger fuel. *)
Lemma Quant_fuel (icase : bool) (lo : nat) (hi : option nat) (a : regex)
    (x : position) (k : position -> option position) (extra : nat) :
  matcher U icase (Quant lo hi a) x k
  = repeatMatcher (matcher U icase a) (S (lo + length (after x)) + extra) lo hi x k.
Proof.
  cbn [matcher]. apply repeatMatcher_fuel; try lia; [apply matcher_local|reflexivity].
Qed.

(** *** Replacing without the [g] flag *)

Lemma replaceFrom_done (R : RegExp.t) (repl : list N) (n : nat)
    (prev : option N) (rest : list N) :
  replaceFrom U R repl n false prev rest = skipn n rest.
Proof.
  revert n prev. induction rest as [|c rest IH]; intros n prev; simpl.
  - destruct n; reflexivity.
  - destruct n as [|n]; [|apply IH].
    rewrite IH. reflexivity.
Qed.

(** [replace] with a pattern that has no [g] flag rewrites the first
    match and nothing else. *)
Lemma replaceFrom_first (R : RegExp.t) (repl : list N)
    (prev : option N) (rest : list N) :
  global R = false ->
  replaceFrom U R repl 0 true prev rest
  = match execFrom U R prev rest with
    | Some (i, n) => firstn i rest ++ repl ++ skipn (i + n) rest
    | None => rest
    end.
Proof.
  intros Hg. revert prev. induction rest as [|c rest IH]; intros prev; simpl.
  - destruct (matchAt U R _) as [n|]; [|reflexivity].
    simpl. now rewrite skipn_nil, app_nil_r.
  - destruct (matchAt U R _) as [[|n]|].
    + rewrite Hg, replaceFrom_done. reflexivity.
    + rewrite Hg, replaceFrom_done. reflexivity.
    + rewrite IH.
      destruct (execFrom U R (Some c) rest) as [[i n]|]; reflexivity.
Qed.

Lemma replace_first (R : RegExp.t) (s : jsstring) :
  global R = false -> unicode R = false ->
  RegExp.replace U R [] s
  = match RegExp.exec U R s with
    | Some (i, n) => firstn i s ++ skipn (i + n) s
    | None => s
    end.
Proof.
  intros Hg Hu. unfold RegExp.replace, RegExp.exec, input, output. rewrite Hu.
  rewrite (replaceFrom_first R [] None s Hg).
  destruct (execFrom U R None s) as [[i n]|]; reflexivity.
Qed.

Lemma execFrom_here (R : RegExp.t) (prev : option N) (rest : list N) (n : nat) :
  matchAt U R {| before := prev; after := rest |} = Some n ->
  execFrom U R prev rest = Some (0, n).
Proof. intros Hm. destruct rest; simpl; rewrite Hm; reflexivity. Qed.

(** *** Matching a spliced-in word *)

Definition lastOr (prev : option N) (w : list N) : option N :=
  match rev w with
  | c :: _ => Some c
  | [] => prev
  end.

Lemma lastOr_cons prev c w : lastOr prev (c :: w) = lastOr (Some c) w.
Proof.
  unfold lastOr. simpl.
  destruct (rev w) as [|d t] eqn:E; simpl; reflexivity.
Qed.

Lemma sameChar_refl (icase : bool) (c : N) : sameChar U icase c c = true.
Proof. unfold sameChar. destruct icase; apply N.eqb_refl. Qed.

(** The characters of a word, as pattern characters, match the word
    itself, in either case mode. *)
Lemma matcher_word (icase : bool) (w : list N) (tail : list regex)
    (prev : option N) (rest : list N) (k : position -> option position) :
  matcher U icase (seqs (map Char w ++ tail)) {| before := prev; after := w ++ rest |} k
  = matcher U icase (seqs tail) {| before := lastOr prev w; after := rest |} k.
Proof.
  revert prev. induction w as [|c w IH]; intros prev; [reflexivity|].
  rewrite lastOr_cons. simpl. unfold step. simpl.
  rewrite sameChar_refl. apply IH.
Qed.

End RegExpFacts.

(* ------------------------------------------------------------------ *)
(** ** Geographical term removal *)

Section GeoTerms.

Variable U : UnicodeData.
Variable wordsToRemove : list (jsstring * bool).

Import RegExp.




Lemma lastOr_word (prev : option N) (w : list N) :
  w <> [] -> Forall (fun ch => isWordChar ch = true) w ->
  exists l, lastOr prev w = Some l /\ isWordChar l = true.
Proof.
  intros Hne Hw. unfold lastOr.
  destruct (rev w) as [|l t] eqn:E.
  - apply (f_equal (@rev N)) in E. rewrite rev_involutive in E. contradiction.
  - exists l. split; [reflexivity|].
    rewrite Forall_forall in Hw. apply Hw.
    apply in_rev. rewrite E. now left.
Qed.

Lemma skipn_length_app {A} (l r : list A) : skipn (length l) (l ++ r) = r.
Proof. induction l as [|a l IH]; simpl; [reflexivity|exact IH]. Qed.

(** A term made of word characters, standing at the start of the text
    and followed by a character that is not one, is matched by the first
    alternative of its pattern, whole. *)
Lemma geoTerm_match_at_start (word : jsstring) (c : N) (rest : list N) :
  word <> [] -> Forall (fun ch => isWordChar ch = true) word ->
  isWordChar c = false ->
  matchAt U (geoTermPattern word) {| before := None; after := word ++ c :: rest |}
  = Some (length word).
Proof.
  intros Hne Hw Hc. unfold matchAt, geoTermPattern, pattern, geoTermRegex.
  cbn [source ignoreCase matcher seqs fold_right after before].
  assert (Hhead : isWordAfter {| before := None; after := word ++ c :: rest |} = true).
  { destruct word as [|w0 w]; [contradiction|].
    inversion Hw; subst. assumption. }
  rewrite Hhead. cbn [isWordBefore before xorb].
  fold (seqs (map Char word ++ [WordBoundary])).
  rewrite matcher_word.
  destruct (lastOr_word None word Hne Hw) as (l & -> & Hl).
  cbn [seqs fold_right matcher isWordBefore isWordAfter before after].
  rewrite Hl, Hc. cbn [xorb after].
  rewrite length_app. simpl. f_equal. lia.
Qed.

Lemma geoTerm_second_occurrence_stays (word : jsstring) (c : N)
    (between tail : jsstring) :
  word <> [] -> Forall (fun ch => isWordChar ch = true) word ->
  isWordChar c = false ->
  RegExp.replace U (geoTermPattern word) [] (word ++ c :: between ++ word ++ tail)
  = c :: between ++ word ++ tail.
Proof.
  intros Hne Hw Hc.
  rewrite replace_first by reflexivity.
  unfold RegExp.exec, input. cbn [unicode geoTermPattern pattern].
  rewrite (execFrom_here U _ None _ _ (geoTerm_match_at_start word c _ Hne Hw Hc)).
  cbn [firstn Nat.add app].
  apply skipn_length_app.
Qed.

End GeoTerms.

(** With the sample table, the first [Paris] goes and the second
    stays. *)
Example removeGeographicalTerms_twice :
  removeGeographicalTerms Latin.tables Sample.geoTerms (str "Paris and Paris in France")
  = str "and Paris in".
Proof. vm_compute. reflexivity. Qed.

(* ------------------------------------------------------------------ *)
(** ** The constructed patterns and their sources *)

Lemma syntaxCharacter_not_b (c : N) : isSyntaxCharacter c = true -> (c =? 98)%N = false.
Proof.
  intros Hc. destruct (c =? 98)%N eqn:E; [|reflexivity].
  apply N.eqb_eq in E. subst. discriminate Hc.
Qed.

Lemma patternCharacter_plain (c : N) :
  isSyntaxCharacter c = false -> (c =? BAR)%N = false /\ (c =? BACKSLASH)%N = false.
Proof.
  intros Hc. split.
  - destruct (c =? BAR)%N eqn:E; [|reflexivity].
    apply N.eqb_eq in E. subst. discriminate Hc.
  - destruct (c =? BACKSLASH)%N eqn:E; [|reflexivity].
    apply N.eqb_eq in E. subst. discriminate Hc.
Qed.

(** An escaped word parses back to its characters, one pattern character
    each: no exclude-word can smuggle syntax into its pattern. *)
Lemma parseDisjunction_escaped (word rest : jsstring) (cur : list RegExp.regex) :
  parseDisjunction (escapeRegExp word ++ rest) cur
  = parseDisjunction rest (rev (map RegExp.Char word) ++ cur).
Proof.
  revert cur. induction word as [|c word IH]; intros cur; [reflexivity|].
  simpl. rewrite <- app_assoc. simpl.
  destruct (isSyntaxCharacter c) eqn:Hc.
  - cbn [app parseDisjunction].
    change (BACKSLASH =? BAR)%N with false.
    change (BACKSLASH =? BACKSLASH)%N with true. cbn iota.
    rewrite (syntaxCharacter_not_b c Hc), Hc, IH, <- app_assoc. reflexivity.
  - cbn [app parseDisjunction].
    destruct (patternCharacter_plain c Hc) as [-> ->].
    rewrite Hc, IH, <- app_assoc. reflexivity.
Qed.

Lemma seqs_bounded (word : jsstring) (cur : list RegExp.regex) :
  rev (RegExp.WordBoundary :: rev (map RegExp.Char word) ++ cur)
  = rev cur ++ map RegExp.Char word ++ [RegExp.WordBoundary].
Proof.
  simpl. rewrite rev_app_distr, rev_involutive, <- app_assoc. reflexivity.
Qed.

(** The pattern of an exclude-word is what [new RegExp] makes of the
    source text [\b] + escaped word + [\b] with the flags [gi]. *)
Lemma excludeWordPattern_compiled (word : jsstring) :
  RegExpNew (str "\b" ++ escapeRegExp word ++ str "\b") true true false
  = Some (excludeWordPattern word).
Proof.
  unfold RegExpNew, excludeWordPattern.
  change (str "\b") with [BACKSLASH; 98%N].
  cbn [app]. cbn [parseDisjunction].
  change (BACKSLASH =? BAR)%N with false.
  change (BACKSLASH =? BACKSLASH)%N with true.
  change (98 =? 98)%N with true. cbn iota.
  rewrite parseDisjunction_escaped. cbn [parseDisjunction].
  change (BACKSLASH =? BAR)%N with false.
  change (BACKSLASH =? BACKSLASH)%N with true.
  change (98 =? 98)%N with true. cbn iota.
  rewrite seqs_bounded. reflexivity.
Qed.





(* ------------------------------------------------------------------ *)
(** ** One removal per geographical term *)


Section GeoTermsFirstMatch.

Variable U : UnicodeData.
Variable wordsToRemove : list (jsstring * bool).





End GeoTermsFirstMatch.



(* ------------------------------------------------------------------ *)
(** ** The two caches of the module stay within their limits *)

Section Bounded.

Variable U : UnicodeData.
Variable englishDictionary : jsstring -> bool.
Variable wordsToRemove : list (jsstring * bool).
Variable francAll : jsstring -> list (jsstring * float).

Definition cachesBounded (st : Caches) : Prop :=
  JSMap.size (francCache st) <= FRANC_CACHE_LIMIT
  /\ JSMap.size (wordCache st) <= WORD_CACHE_LIMIT.

Lemma limits_positive : 0 < FRANC_CACHE_LIMIT /\ 0 < WORD_CACHE_LIMIT.
Proof. unfold FRANC_CACHE_LIMIT, WORD_CACHE_LIMIT. lia. Qed.

Lemma francLanguageAnalysis_bounded text st :
  cachesBounded st -> cachesBounded (caches (francLanguageAnalysis francAll text st)).
Proof.
  intros [Hf Hw]. unfold francLanguageAnalysis.
  destruct (JSMap.get text (francCache st)) as [[lang conf]|]; [split; assumption|].
  destruct (scanCandidates (firstn 5 (francAll text))) as [[lang conf]|].
  - split; [|exact Hw]. apply cacheSet_size; [apply limits_positive|exact Hf].
  - destruct (francAll text) as [|[lang conf] rest]; [split; assumption|].
    split; [|exact Hw]. apply cacheSet_size; [apply limits_positive|exact Hf].
Qed.

Lemma isEnglishWordCached_bounded w wo st :
  cachesBounded st ->
  cachesBounded (caches (isEnglishWordCached U englishDictionary w wo st)).
Proof.
  intros [Hf Hw]. unfold isEnglishWordCached.
  destruct (JSMap.get _ (wordCache st)); [split; assumption|].
  split; [exact Hf|]. apply cacheSet_size; [apply limits_positive|exact Hw].
Qed.

Lemma countWords_bounded mwl wo words eng total st :
  cachesBounded st ->
  cachesBounded (caches (countWords U englishDictionary mwl wo words eng total st)).
Proof.
  revert eng total st.
  induction words as [|word rest IH]; intros eng total st Hst; simpl; [exact Hst|].
  destruct (Number.lt _ mwl); [exact (IH _ _ _ Hst)|].
  destruct (woAllowAbbreviations wo && RegExp.test U ABBREVIATION_REGEX _);
    [exact (IH _ _ _ Hst)|].
  rewrite bind_result.
  pose proof (isEnglishWordCached_bounded
                (toLowerCase U (trim (RegExp.replace U WORD_PUNCTUATION_REGEX [] word)))
                wo st Hst) as Hb.
  destruct (result _) as [[|]|e]; [exact (IH _ _ _ Hb)..|exact Hb].
Qed.

Lemma detectNonEnglishText_bounded v o st :
  cachesBounded st ->
  cachesBounded
    (caches (detectNonEnglishText U englishDictionary wordsToRemove francAll v o st)).
Proof.
  intros Hst. rewrite detectNonEnglishText_unfold.
  destruct (isNonEmptyString v) as [s|]; [|exact Hst].
  destruct (length (trim s) =? 0)%nat; [exact Hst|].
  destruct (length (wordsOf U wordsToRemove s o) =? 0)%nat; [exact Hst|].
  rewrite bind_result.
  pose proof (countWords_bounded (orDefault (minWordLength o) 2%float) (wordOptionsOf o)
                (wordsOf U wordsToRemove s o) 0 0 st Hst) as Hb.
  destruct (result _) as [counts|e]; [|exact Hb].
  destruct (Number.ge _ _); [exact Hb|].
  rewrite bind_result.
  pose proof (francLanguageAnalysis_bounded s _ Hb) as Hb'.
  destruct (result _) as [r|e]; exact Hb'.
Qed.

(** Whatever calls a client makes, the trigram cache holds at most 1000
    entries and the word cache at most 5000. *)
Lemma reachable_bounded st :
  reachable U englishDictionary wordsToRemove francAll st -> cachesBounded st.
Proof.
  induction 1 as [|v o st _ IH|v o st _ IH|st _ IH].
  - split; unfold JSMap.size; simpl; lia.
  - apply detectNonEnglishText_bounded, IH.
  - rewrite isEnglish_caches. apply detectNonEnglishText_bounded, IH.
  - split; unfold JSMap.size; simpl; lia.
Qed.

End Bounded.

(** A run that fills the trigram cache: a thousand distinct keys, a read,
    and one more [cacheSet]. *)
Definition fillingOps : list (@cacheOp jsstring bool) :=
  map (fun i => OpSet [N.of_nat i] true) (seq 0 1000) ++ [OpGet [0%N]].

Lemma C8_cache_capacity_fifo_witness :
  (FRANC_CACHE_LIMIT = FRANC_CACHE_LIMIT \/ FRANC_CACHE_LIMIT = WORD_CACHE_LIMIT)
  /\ FRANC_CACHE_LIMIT <= JSMap.size (runOps FRANC_CACHE_LIMIT fillingOps)
  /\ JSMap.size (cacheSet (runOps FRANC_CACHE_LIMIT fillingOps)
                   FRANC_CACHE_LIMIT [1000%N] false) <= FRANC_CACHE_LIMIT.
Proof.
  assert (H0 : FRANC_CACHE_LIMIT = FRANC_CACHE_LIMIT \/ FRANC_CACHE_LIMIT = WORD_CACHE_LIMIT)
    by (left; reflexivity).
  split; [exact H0|]. split.
  - apply Nat.leb_le. vm_compute. reflexivity.
  - exact (proj1 (proj2 (C8_cache_capacity_fifo FRANC_CACHE_LIMIT fillingOps
                           [1000%N] false H0))).
Defined.

(* ------------------------------------------------------------------ *)
(** ** Exclude-words: what a match of the pattern is *)

Section ExcludeWords.

Variable U : UnicodeData.

Import RegExp.

(** [\b] holds between [prev] and the head of [next]. *)
Definition atWordBoundary (prev : option N) (next : list N) : bool :=
  xorb (isWordBefore {| before := prev; after := next |})
       (isWordAfter {| before := prev; after := next |}).

Lemma matcher_word_inv (icase : bool) (w : list N) (tail : list regex)
    (prev : option N) (rest : list N) (k : position -> option position)
    (z : position) :
  matcher U icase (seqs (map Char w ++ tail)) {| before := prev; after := rest |} k = Some z ->
  exists m post,
    rest = m ++ post
    /\ Forall2 (fun a ch => sameChar U icase a ch = true) w m
    /\ matcher U icase (seqs tail) {| before := lastOr prev m; after := post |} k = Some z.
Proof.
  revert prev rest. induction w as [|c w IH]; intros prev rest Hm.
  - exists [], rest. repeat split; [constructor|exact Hm].
  - simpl in Hm. unfold step in Hm. simpl in Hm.
    destruct rest as [|ch rest']; [discriminate|].
    destruct (sameChar U icase c ch) eqn:Hc; [|discriminate].
    destruct (IH _ _ Hm) as (m & post & -> & Hall & Hk).
    exists (ch :: m), post. rewrite lastOr_cons.
    repeat split; [constructor; assumption|exact Hk].
Qed.

(** Wherever the pattern of an exclude-word matches, the matched text is
    the word up to case and has a [\b] boundary on either side. The
    boundary is the one of [\w], ASCII letters, digits and underscore: a
    letter outside ASCII next to the match counts as a boundary. *)
Lemma excludeWord_match_bounded (word : jsstring) (prev : option N)
    (rest : list N) (n : nat) :
  matchAt U (excludeWordPattern word) {| before := prev; after := rest |} = Some n ->
  exists m post,
    rest = m ++ post
    /\ n = length m
    /\ Forall2 (fun a ch => sameChar U true a ch = true) word m
    /\ atWordBoundary prev rest = true
    /\ atWordBoundary (lastOr prev m) post = true.
Proof.
  unfold matchAt, excludeWordPattern, pattern.
  cbn [source ignoreCase seqs fold_right matcher].
  fold (atWordBoundary prev rest).
  destruct (atWordBoundary prev rest) eqn:Hb; [|discriminate].
  fold (seqs (map Char word ++ [WordBoundary])).
  destruct (matcher U true _ _ _) as [z|] eqn:Hm; [|discriminate].
  intros [= <-].
  destruct (matcher_word_inv _ _ _ _ _ _ _ Hm) as (m & post & -> & Hall & Hk).
  cbn [seqs fold_right matcher] in Hk.
  fold (atWordBoundary (lastOr prev m) post) in Hk.
  destruct (atWordBoundary (lastOr prev m) post) eqn:Hb'; [|discriminate].
  injection Hk as <-.
  exists m, post. repeat split; try assumption.
  cbn [after]. rewrite length_app. lia.
Qed.

End ExcludeWords.

(* ------------------------------------------------------------------ *)
(** ** The model on the documented examples *)

Example matchesDocumentPattern_examples :
  matchesDocumentPattern Latin.tables (VString (str "AEM01-WI-DSU06-SD01")) = true
  /\ matchesDocumentPattern Latin.tables (VString (str "AURG340-SF06")) = true
  /\ matchesDocumentPattern Latin.tables (VString (str "AEM01")) = true
  /\ matchesDocumentPattern Latin.tables (VString (str "hello world")) = false
  /\ matchesDocumentPattern Latin.tables VNull = false
  /\ matchesDocumentPattern Latin.tables (VNumber 123%float) = false.
Proof. repeat split; vm_compute; reflexivity. Qed.

Example preprocessText_examples :
  preprocessText Latin.tables Sample.geoTerms
    (str "The AEM01-WI-DSU06-SD01 document is ready for review") None None
  = str "The document is ready for review"
  /\ preprocessText Latin.tables Sample.geoTerms
       (str "Fix bug PROJ-1234 in login flow")
       (Some [pattern true false false
                (RegExp.seqs [RegExp.literal (str "PROJ-");
                              RegExp.Quant 1 None (RegExp.Class false [RegExp.CDigit])])])
       None
     = str "Fix bug in login flow"
  /\ preprocessText Latin.tables Sample.geoTerms
       (str "SDK the theater") None (Some [str "sdk"])
     = str "the theater".
Proof. repeat split; vm_compute; reflexivity. Qed.

Example detectNonEnglishText_examples :
  result (Sample.run Sample.undetermined "hello" noOptions emptyCaches) = Returned false
  /\ result (Sample.run Sample.undetermined "12345" noOptions emptyCaches) = Returned false
  /\ result (Sample.run Sample.undetermined "NATO FBI the" noOptions emptyCaches)
     = Returned false
  /\ result (Sample.run Sample.undetermined "a I"
               {| englishThreshold := None; minWordLength := Some 3%float;
                  allowNumbers := None; allowAbbreviations := None;
                  customPatterns := None; excludeWords := None |} emptyCaches)
     = Returned false
  /\ result (Sample.run Sample.undetermined "zxqwvbn plmokn ijuhbg" noOptions emptyCaches)
     = Returned true.
Proof. repeat split; vm_compute; reflexivity. Qed.

(* ------------------------------------------------------------------ *)
(** * Further properties of the module *)

(** ** [cacheSet]: lookup after insertion, untouched keys, eviction *)

Section CacheLookup.

Context {K V : Type} `{EqKey K}.

Implicit Types (m c : JSMap.t K V) (k : K) (v : V).

Lemma keyEqb_neq k k' : k <> k' -> keyEqb k k' = false.
Proof.
  intros Hne. destruct (keyEqb k k') eqn:E; [|reflexivity].
  apply keyEqb_eq in E. contradiction.
Qed.

Lemma get_set_same k v m : JSMap.get k (JSMap.set k v m) = Some v.
Proof.
  induction m as [|[k' v'] rest IH]; simpl.
  - now rewrite keyEqb_refl.
  - destruct (keyEqb k' k) eqn:E; simpl; rewrite E; [reflexivity|exact IH].
Qed.

Lemma get_set_other k k' v m :
  k' <> k -> JSMap.get k' (JSMap.set k v m) = JSMap.get k' m.
Proof.
  intros Hne. induction m as [|[k0 v0] rest IH]; simpl.
  - now rewrite (keyEqb_neq k k') by congruence.
  - destruct (keyEqb k0 k) eqn:E; simpl.
    + apply keyEqb_eq in E. subst k0.
      now rewrite (keyEqb_neq k k') by congruence.
    + destruct (keyEqb k0 k'); [reflexivity|exact IH].
Qed.

Lemma get_delete_other k k' m :
  k' <> k -> JSMap.get k' (JSMap.delete k m) = JSMap.get k' m.
Proof.
  intros Hne. induction m as [|[k0 v0] rest IH]; simpl; [reflexivity|].
  destruct (keyEqb k0 k) eqn:E; simpl.
  - apply keyEqb_eq in E. subst k0.
    now rewrite (keyEqb_neq k k') by congruence.
  - destruct (keyEqb k0 k'); [reflexivity|exact IH].
Qed.

Lemma get_absent k m : ~ In k (JSMap.keys m) -> JSMap.get k m = None.
Proof.
  induction m as [|[k0 v0] rest IH]; simpl; [reflexivity|].
  intros Hnot. rewrite keyEqb_neq by tauto. apply IH. tauto.
Qed.

Lemma keys_set k v m :
  JSMap.keys (JSMap.set k v m)
  = if JSMap.has k m then JSMap.keys m else JSMap.keys m ++ [k].
Proof.
  unfold JSMap.has.
  induction m as [|[k0 v0] rest IH]; simpl; [reflexivity|].
  destruct (keyEqb k0 k) eqn:E; simpl; [reflexivity|].
  rewrite IH. destruct (JSMap.get k rest); reflexivity.
Qed.

Lemma keys_delete_incl k k' m :
  In k' (JSMap.keys (JSMap.delete k m)) -> In k' (JSMap.keys m).
Proof.
  induction m as [|[k0 v0] rest IH]; simpl; [tauto|].
  destruct (keyEqb k0 k); simpl; tauto.
Qed.

Lemma NoDup_delete k m : NoDup (JSMap.keys m) -> NoDup (JSMap.keys (JSMap.delete k m)).
Proof.
  induction m as [|[k0 v0] rest IH]; simpl; [tauto|].
  intros Hnd. inversion Hnd as [|? ? Hnot Hrest]; subst.
  destruct (keyEqb k0 k); simpl; [exact Hrest|].
  constructor; [|exact (IH Hrest)].
  intros Hin. apply Hnot. exact (keys_delete_incl _ _ _ Hin).
Qed.

Lemma NoDup_set k v m : NoDup (JSMap.keys m) -> NoDup (JSMap.keys (JSMap.set k v m)).
Proof.
  intros Hnd. rewrite keys_set. unfold JSMap.has.
  destruct (JSMap.get k m) eqn:Hg; [exact Hnd|].
  apply NoDup_snoc; [exact Hnd|].
  intros Hin. unfold JSMap.keys in Hin. apply in_map_iff in Hin.
  destruct Hin as ([k0 v0] & Hk & Hin). simpl in Hk. subst k0.
  clear Hnd. induction m as [|[k1 v1] rest IH]; [contradiction|].
  simpl in Hg. destruct (keyEqb k1 k) eqn:E; [discriminate|].
  destruct Hin as [[= -> ->]|Hin]; [rewrite keyEqb_refl in E; discriminate|].
  exact (IH Hg Hin).
Qed.

(** X1. Whatever the cache held and whatever the limit, right after
    [cacheSet cache limit key value] the cache maps [key] to [value]. *)
Theorem X1_cacheSet_then_get (c : JSMap.t K V) (limit : nat) (key : K) (value : V) :
  JSMap.get key (cacheSet c limit key value) = Some value
  /\ JSMap.has key (cacheSet c limit key value) = true.
Proof.
  assert (Hg : JSMap.get key (cacheSet c limit key value) = Some value).
  { unfold cacheSet. apply get_set_same. }
  split; [exact Hg|]. unfold JSMap.has. now rewrite Hg.
Qed.

(** X2. [cacheSet] leaves every other key alone, except the first key
    when the cache is at capacity: a key different from the one set keeps
    its value if the cache is below its limit or the key is not the first
    one. *)
Theorem X2_cacheSet_other_keys (c : JSMap.t K V) (limit : nat) (key other : K)
    (value : V) :
  other <> key ->
  JSMap.size c < limit \/ JSMap.firstKey c <> Some other ->
  JSMap.get other (cacheSet c limit key value) = JSMap.get other c.
Proof.
  intros Hne Hkeep. unfold cacheSet.
  rewrite get_set_other by exact Hne.
  destruct (limit <=? JSMap.size c)%nat eqn:Hfull; [|reflexivity].
  apply Nat.leb_le in Hfull.
  destruct Hkeep as [Hlt|Hfirst]; [lia|].
  destruct (JSMap.firstKey c) as [fk|]; [|reflexivity].
  apply get_delete_other. congruence.
Qed.

(** X3. In a cache with pairwise distinct keys, a [cacheSet] at capacity
    (limit at least one) removes the first key for good, unless it is the
    key being set, and the keys stay pairwise distinct. *)
Theorem X3_cacheSet_evicts_first (c : JSMap.t K V) (limit : nat) (key first : K)
    (value : V) :
  NoDup (JSMap.keys c) ->
  limit <= JSMap.size c ->
  JSMap.firstKey c = Some first ->
  NoDup (JSMap.keys (cacheSet c limit key value))
  /\ JSMap.size (cacheSet c limit key value) <= JSMap.size c
  /\ (first <> key -> JSMap.has first (cacheSet c limit key value) = false).
Proof.
  intros Hnd Hfull Hfirst. unfold cacheSet.
  apply Nat.leb_le in Hfull. rewrite Hfull, Hfirst.
  destruct c as [|[k0 v0] rest]; [discriminate|].
  simpl in Hfirst. injection Hfirst as ->.
  simpl. rewrite keyEqb_refl.
  inversion Hnd as [|? ? Hnot Hrest]; subst.
  split; [apply NoDup_set, Hrest|]. split.
  - pose proof (size_set key value rest). unfold JSMap.size in *. simpl. lia.
  - intros Hne. unfold JSMap.has.
    rewrite get_set_other by exact Hne.
    now rewrite (get_absent first rest Hnot).
Qed.

End CacheLookup.

Lemma X2_cacheSet_other_keys_witness :
  str "b" <> str "c"
  /\ (JSMap.size [(str "a", true); (str "b", false)] < 2
      \/ JSMap.firstKey [(str "a", true); (str "b", false)] <> Some (str "b"))
  /\ JSMap.get (str "b") (cacheSet [(str "a", true); (str "b", false)] 2 (str "c") true)
     = JSMap.get (str "b") [(str "a", true); (str "b", false)].
Proof.
  assert (H0 : str "b" <> str "c") by (vm_compute; intros H; discriminate H).
  assert (H1 : JSMap.size [(str "a", true); (str "b", false)] < 2
               \/ JSMap.firstKey [(str "a", true); (str "b", false)] <> Some (str "b"))
    by (right; vm_compute; intros H; discriminate H).
  split; [exact H0|]. split; [exact H1|].
  exact (X2_cacheSet_other_keys [(str "a", true); (str "b", false)] 2
           (str "c") (str "b") true H0 H1).
Defined.

Lemma X3_cacheSet_evicts_first_witness :
  NoDup (JSMap.keys [(str "a", true); (str "b", false)])
  /\ 2 <= JSMap.size [(str "a", true); (str "b", false)]
  /\ JSMap.firstKey [(str "a", true); (str "b", false)] = Some (str "a")
  /\ JSMap.has (str "a") (cacheSet [(str "a", true); (str "b", false)] 2 (str "c") true)
     = false.
Proof.
  assert (H0 : NoDup (JSMap.keys [(str "a", true); (str "b", false)])).
  { vm_compute. repeat constructor; simpl; intros H; repeat destruct H as [H|H];
      try discriminate H; exact H. }
  assert (H1 : 2 <= JSMap.size [(str "a", true); (str "b", false)]) by (vm_compute; lia).
  assert (H2 : str "a" <> str "c") by (vm_compute; intros H; discriminate H).
  split; [exact H0|]. split; [exact H1|]. split; [reflexivity|].
  exact (proj2 (proj2 (X3_cacheSet_evicts_first [(str "a", true); (str "b", false)] 2
                         (str "c") (str "a") true H0 H1 eq_refl)) H2).
Defined.

(* ------------------------------------------------------------------ *)
(** ** Cache hits, exceptions and the limits of the trigram rescue *)


Section Calls.

Variable U : UnicodeData.
Variable englishDictionary : jsstring -> bool.
Variable wordsToRemove : list (jsstring * bool).
Variable francAll : jsstring -> list (jsstring * float).

Local Abbreviation detect := (detectNonEnglishText U englishDictionary wordsToRemove francAll).
Local Abbreviation reachable' := (reachable U englishDictionary wordsToRemove francAll).
Local Abbreviation wordsOf' := (wordsOf U wordsToRemove).
Local Abbreviation ratioOf' := (ratioOf U englishDictionary wordsToRemove).



Lemma countWords_counters mwl wo words eng total st :
  exists e t st',
    countWords U englishDictionary mwl wo words eng total st = (Returned (e, t), st')
    /\ eng <= e /\ total <= t
    /\ e - eng <= t - total /\ t - total <= length words.
Proof.
  revert eng total st.
  induction words as [|word rest IH]; intros eng total st; simpl.
  - exists eng, total, st. repeat split; lia.
  - destruct (Number.lt _ mwl).
    { destruct (IH eng total st) as (e & t & st' & -> & ?).
      exists e, t, st'. split; [reflexivity|lia]. }
    destruct (woAllowAbbreviations wo && RegExp.test U ABBREVIATION_REGEX _).
    { destruct (IH (S eng) (S total) st) as (e & t & st' & -> & ?).
      exists e, t, st'. split; [reflexivity|lia]. }
    unfold bind, isEnglishWordCached.
    destruct (JSMap.get _ (wordCache st)) as [[|]|];
      try destruct (isEnglishWord U englishDictionary _ wo);
      match goal with
      | |- context [countWords _ _ _ _ _ ?e0 ?t0 ?s0] =>
          destruct (IH e0 t0 s0) as (e & t & st' & -> & ?);
          exists e, t, st'; split; [reflexivity|lia]
      end.
Qed.

(** X6. The word loop never throws, in any cache state, and its counters
    are ordered: the english count is at most the relevant-word count,
    which is at most the number of tokens. *)
Theorem X6_countWords_counters (mwl : float) (wo : WordOptions)
    (words : list jsstring) (st : Caches) :
  exists e t st',
    countWords U englishDictionary mwl wo words 0 0 st = (Returned (e, t), st')
    /\ e <= t /\ t <= length words.
Proof.
  destruct (countWords_counters mwl wo words 0 0 st) as (e & t & st' & Hrun & ?).
  exists e, t, st'. split; [exact Hrun|lia].
Qed.

(** X7. In any cache state [detectNonEnglishText] returns a boolean
    unless the identifier ranks nothing for the input string: when
    [francAll] has a candidate for the input, the call does not throw. *)
Theorem X7_detect_returns (v : value) (o : DetectionOptions) (st : Caches) :
  (forall s, v = VString s -> francAll s <> []) ->
  exists b, result (detect v o st) = Returned b.
Proof.
  intros Hranked. rewrite detectNonEnglishText_unfold.
  destruct v as [| |b0|x|s|]; try (exists false; reflexivity).
  unfold isNonEmptyString.
  destruct (0 <? length s)%nat; [|exists false; reflexivity].
  destruct (length (trim s) =? 0)%nat; [exists false; reflexivity|].
  destruct (length (wordsOf' s o) =? 0)%nat; [exists false; reflexivity|].
  destruct (countWords_counters (orDefault (minWordLength o) 2%float) (wordOptionsOf o)
              (wordsOf' s o) 0 0 st) as (e & t & st' & Hrun & _).
  unfold bind at 1. rewrite Hrun.
  destruct (Number.ge _ _); [exists false; reflexivity|].
  unfold bind, francLanguageAnalysis.
  destruct (JSMap.get s (francCache st')) as [[lang conf]|]; [eexists; reflexivity|].
  destruct (scanCandidates (firstn 5 (francAll s))) as [[lang conf]|];
    [eexists; reflexivity|].
  destruct (francAll s) as [|[lang conf] rest] eqn:Hall;
    [exfalso; exact (Hranked s eq_refl Hall)|eexists; reflexivity].
Qed.

(** X8. The trigram rescue needs an english ratio of at least 0.7: for a
    non-blank string whose ratio is below the effective threshold and
    below 0.7, the call returns [true] whatever candidates the identifier
    ranks, as long as it ranks one. *)
Theorem X8_low_ratio_not_rescued (s : jsstring) (o : DetectionOptions) (st : Caches) :
  reachable' st ->
  length (trim s) <> 0 ->
  francAll s <> [] ->
  Number.ge (ratioOf' s o) (effectiveThreshold o (wordsOf' s o)) = false ->
  Number.ge (ratioOf' s o) 0.7%float = false ->
  result (detect (VString s) o st) = Returned true.
Proof.
  intros Hst Hnonblank Hranked Hlow Hlow7.
  rewrite (fallback_on_input_text U englishDictionary wordsToRemove francAll
             s o st Hst Hnonblank Hlow).
  unfold analysisOutcome, analysis, rescued.
  destruct (scanCandidates (firstn 5 (francAll s))) as [[lang conf]|].
  - rewrite Hlow7, andb_false_r. reflexivity.
  - destruct (francAll s) as [|[lang conf] rest]; [contradiction|].
    simpl. rewrite Hlow7, andb_false_r. reflexivity.
Qed.

(** X9. For a text of at most four tokens the trigram analysis cannot
    change the answer: the forced threshold 0.6 is below the rescue bound
    0.7, so the call returns [false] exactly when the english ratio is at
    least 0.6, whatever the identifier ranks (as long as it ranks
    something). *)
Theorem X9_short_text_ignores_trigrams (s : jsstring) (o : DetectionOptions)
    (st : Caches) :
  reachable' st ->
  length (trim s) <> 0 ->
  francAll s <> [] ->
  length (wordsOf' s o) <= 4 ->
  result (detect (VString s) o st)
  = Returned (negb (Number.ge (ratioOf' s o) 0.6%float)).
Proof.
  intros Hst Hnonblank Hranked Hshort.
  assert (Heff : effectiveThreshold o (wordsOf' s o) = 0.6%float).
  { unfold effectiveThreshold. apply Nat.leb_le in Hshort. now rewrite Hshort. }
  destruct (Number.ge (ratioOf' s o) 0.6%float) eqn:Hge.
  - rewrite (detect_reachable _ _ _ _ _ _ _ Hst). unfold verdict, isNonEmptyString.
    assert (Hlen : (0 <? length s)%nat = true).
    { apply Nat.ltb_lt. destruct s; [simpl in Hnonblank; congruence|simpl; lia]. }
    rewrite Hlen. apply Nat.eqb_neq in Hnonblank. rewrite Hnonblank.
    destruct (length (wordsOf' s o) =? 0)%nat; [reflexivity|].
    fold (ratioOf' s o). rewrite Heff, Hge. reflexivity.
  - assert (Hlow7 : Number.ge (ratioOf' s o) 0.7%float = false).
    { destruct (Number.ge (ratioOf' s o) 0.7%float) eqn:H7; [|reflexivity].
      unfold Number.ge in H7, Hge.
      assert (H67 : Number.le 0.6%float 0.7%float = true) by (vm_compute; reflexivity).
      pose proof (Number_le_trans _ _ _ H67 H7) as Hc.
      unfold Number.le in Hc. congruence. }
    rewrite (fallback_on_input_text U englishDictionary wordsToRemove francAll
               s o st Hst Hnonblank) by (rewrite Heff; exact Hge).
    unfold analysisOutcome, analysis, rescued.
    destruct (scanCandidates (firstn 5 (francAll s))) as [[lang conf]|].
    + rewrite Hlow7, andb_false_r. reflexivity.
    + destruct (francAll s) as [|[lang conf] rest]; [contradiction|].
      simpl. rewrite Hlow7, andb_false_r. reflexivity.
Qed.

End Calls.

(* ------------------------------------------------------------------ *)
(** ** Regular expressions: quantified classes, failing continuations *)

Section RegExpClasses.

Variable U : UnicodeData.

Import RegExp.

(** A greedy unbounded quantifier over a one-character matcher, without
    fuel: take a character if it is accepted and try the rest; failing
    that, stop here, if enough iterations were made. *)
Fixpoint greedy (accept : N -> bool) (lo : nat) (prev : option N) (rest : list N)
    (k : position -> option position) : option position :=
  match rest with
  | c :: r =>
      if accept c then
        match greedy accept (Nat.pred lo) (Some c) r k with
        | Some z => Some z
        | None =>
            if (lo =? 0)%nat then k {| before := prev; after := rest |} else None
        end
      else if (lo =? 0)%nat then k {| before := prev; after := rest |} else None
  | [] => if (lo =? 0)%nat then k {| before := prev; after := [] |} else None
  end.

Lemma repeatMatcher_greedy (accept : N -> bool) (fuel lo : nat) (prev : option N)
    (rest : list N) (k : position -> option position) :
  lo + length rest < fuel ->
  repeatMatcher (fun x k' => step x k' accept) fuel lo None
    {| before := prev; after := rest |} k
  = greedy accept lo prev rest k.
Proof.
  revert fuel lo prev.
  induction rest as [|c r IH]; intros fuel lo prev Hfuel;
    (destruct fuel as [|fuel]; [lia|]); simpl.
  - unfold step. simpl. destruct lo; reflexivity.
  - unfold step. simpl.
    destruct (accept c).
    + replace (length r =? S (length r))%nat with false
        by (symmetry; apply Nat.eqb_neq; lia).
      rewrite andb_false_r.
      rewrite IH by (simpl in Hfuel; lia).
      destruct lo; simpl; [reflexivity|].
      destruct (greedy accept lo (Some c) r k); reflexivity.
    + destruct lo; reflexivity.
Qed.

Definition accepts (icase negated : bool) (items : list classItem) (ch : N) : bool :=
  xorb negated (existsb (inItem U icase ch) items).

(** [class+], [class*], [class{n,}] in the model is [greedy]. *)
Lemma matcher_class_quant (icase negated : bool) (items : list classItem)
    (lo : nat) (prev : option N) (rest : list N) (k : position -> option position) :
  matcher U icase (Quant lo None (Class negated items))
    {| before := prev; after := rest |} k
  = greedy (accepts icase negated items) lo prev rest k.
Proof.
  cbn [matcher after].
  change (matcher U icase (Class negated items))
    with (fun x k' => step x k' (accepts icase negated items)).
  apply repeatMatcher_greedy. lia.
Qed.

Fixpoint takeWhile (p : N -> bool) (s : list N) : list N :=
  match s with
  | c :: r => if p c then c :: takeWhile p r else []
  | [] => []
  end.

Fixpoint dropWhile (p : N -> bool) (s : list N) : list N :=
  match s with
  | c :: r => if p c then dropWhile p r else s
  | [] => []
  end.

Lemma takeWhile_dropWhile p s : takeWhile p s ++ dropWhile p s = s.
Proof.
  induction s as [|c r IH]; simpl; [reflexivity|].
  destruct (p c); simpl; [now rewrite IH|reflexivity].
Qed.

(** When the continuation cannot succeed right before an accepted
    character, the quantifier takes the longest run or nothing. *)
Lemma greedy_maximal (accept : N -> bool) (lo : nat) (prev : option N)
    (rest : list N) (k : position -> option position) :
  (forall p c r, accept c = true -> k {| before := p; after := c :: r |} = None) ->
  greedy accept lo prev rest k
  = if (lo <=? length (takeWhile accept rest))%nat
    then k {| before := lastOr prev (takeWhile accept rest);
              after := dropWhile accept rest |}
    else None.
Proof.
  intros Hk. revert lo prev.
  induction rest as [|c r IH]; intros lo prev; simpl.
  - destruct lo; reflexivity.
  - destruct (accept c) eqn:Hc.
    + rewrite IH, lastOr_cons. simpl.
      destruct lo as [|lo]; simpl.
      * destruct (k _); [reflexivity|]. apply Hk, Hc.
      * destruct (lo <=? length (takeWhile accept r))%nat; [|reflexivity].
        destruct (k _); reflexivity.
    + simpl. destruct lo; reflexivity.
Qed.

(** With a continuation that always succeeds the longest run is taken. *)
Lemma greedy_all (accept : N -> bool) (lo : nat) (prev : option N) (rest : list N) :
  greedy accept lo prev rest (fun y => Some y)
  = if (lo <=? length (takeWhile accept rest))%nat
    then Some {| before := lastOr prev (takeWhile accept rest);
                 after := dropWhile accept rest |}
    else None.
Proof.
  revert lo prev.
  induction rest as [|c r IH]; intros lo prev; simpl.
  - destruct lo; reflexivity.
  - destruct (accept c) eqn:Hc.
    + rewrite IH, lastOr_cons. simpl.
      destruct lo as [|lo]; simpl; [reflexivity|].
      destruct (lo <=? length (takeWhile accept r))%nat; reflexivity.
    + simpl. destruct lo; reflexivity.
Qed.

(** A matcher whose continuation fails everywhere it can be called
    fails. [Q] is any property of positions kept by moving right. *)
Lemma repeatMatcher_fails (Q : position -> Prop) (m : matcherT)
    (Hm : forall x k, Q x -> (forall y, Q y -> k y = None) -> m x k = None)
    (fuel lo : nat) (hi : option nat) (x : position)
    (k : position -> option position) :
  Q x -> (forall y, Q y -> k y = None) ->
  repeatMatcher m fuel lo hi x k = None.
Proof.
  revert lo hi x. induction fuel as [|fuel IH]; intros lo hi x Hx Hk; [reflexivity|].
  simpl.
  assert (Hd : m x (fun y =>
            if ((lo =? 0) && (length (after y) =? length (after x)))%nat then None
            else repeatMatcher m fuel (Nat.pred lo) (option_map Nat.pred hi) y k) = None).
  { apply Hm; [exact Hx|]. intros y Hy.
    destruct ((lo =? 0) && _)%nat; [reflexivity|]. apply IH; assumption. }
  destruct hi as [[|h]|]; [apply Hk, Hx| |];
    (destruct lo; [rewrite Hd; apply Hk, Hx|exact Hd]).
Qed.

Lemma matcher_fails (Q : position -> Prop)
    (Qstep : forall p c r, Q {| before := p; after := c :: r |} ->
                           Q {| before := Some c; after := r |})
    (icase : bool) (r : regex) (x : position) (k : position -> option position) :
  Q x -> (forall y, Q y -> k y = None) -> matcher U icase r x k = None.
Proof.
  revert x k.
  assert (Hstep : forall accept x k, Q x -> (forall y, Q y -> k y = None) ->
                  step x k accept = None).
  { intros accept [p [|c rest]] k Hx Hk; unfold step; simpl; [reflexivity|].
    destruct (accept c); [|reflexivity]. apply Hk, (Qstep _ _ _ Hx). }
  induction r as [|c| |negated items|a IHa b IHb|a IHa b IHb|lo hi a IHa| | |];
    intros x k Hx Hk; cbn [matcher].
  - apply Hk, Hx.
  - apply Hstep; assumption.
  - apply Hstep; assumption.
  - apply Hstep; assumption.
  - apply IHa; [exact Hx|]. intros y Hy. apply IHb; assumption.
  - rewrite (IHa x k Hx Hk). apply IHb; assumption.
  - apply (repeatMatcher_fails Q); assumption.
  - destruct (xorb _ _); [apply Hk, Hx|reflexivity].
  - destruct (before x); [reflexivity|apply Hk, Hx].
  - destruct (after x); [apply Hk, Hx|reflexivity].
Qed.

(** *** Scanning a text in which the pattern matches nowhere *)

Lemma replaceFrom_no_match (R : RegExp.t) (repl : list N) (P : list N -> Prop)
    (Ptail : forall c r, P (c :: r) -> P r)
    (Hno : forall prev r, P r -> matchAt U R {| before := prev; after := r |} = None)
    (prev : option N) (rest : list N) :
  P rest -> replaceFrom U R repl 0 true prev rest = rest.
Proof.
  revert prev. induction rest as [|c r IH]; intros prev Hp; simpl.
  - now rewrite (Hno prev [] Hp).
  - rewrite (Hno prev (c :: r) Hp). now rewrite (IH (Some c) (Ptail _ _ Hp)).
Qed.

Lemma searchFrom_no_match (R : RegExp.t) (P : list N -> Prop)
    (Ptail : forall c r, P (c :: r) -> P r)
    (Hno : forall prev r, P r -> matchAt U R {| before := prev; after := r |} = None)
    (prev : option N) (rest : list N) :
  P rest -> searchFrom U R prev rest = false.
Proof.
  revert prev. induction rest as [|c r IH]; intros prev Hp; simpl.
  - now rewrite (Hno prev [] Hp).
  - rewrite (Hno prev (c :: r) Hp). exact (IH (Some c) (Ptail _ _ Hp)).
Qed.

(** Whatever the pattern, [replace] only removes characters or puts in
    the replacement: nothing else appears. *)
Lemma replaceFrom_incl (R : RegExp.t) (repl : list N) (drop : nat) (live : bool)
    (prev : option N) (rest : list N) (ch : N) :
  In ch (replaceFrom U R repl drop live prev rest) -> In ch repl \/ In ch rest.
Proof.
  revert drop live prev. induction rest as [|c r IH]; intros drop live prev; simpl.
  - destruct (live && (drop =? 0)%nat); [|tauto].
    destruct (matchAt U R _); simpl; tauto.
  - destruct drop as [|n].
    + destruct live.
      * destruct (matchAt U R _) as [[|n]|]; simpl;
          rewrite ?in_app_iff; simpl; intros Hin;
          repeat match goal with
                 | H : _ \/ _ |- _ => destruct H
                 end; try tauto;
          match goal with
          | H : In ch (replaceFrom _ _ _ _ _ _ _) |- _ =>
              destruct (IH _ _ _ H); tauto
          end.
      * simpl. intros [->|Hin]; [tauto|]. destruct (IH _ _ _ Hin); tauto.
    + intros Hin. destruct (IH _ _ _ Hin); tauto.
Qed.

Lemma matchAt_class (g icase u negated : bool) (items : list classItem)
    (prev : option N) (c : N) (r : list N) :
  matchAt U (pattern g icase u (Class negated items)) {| before := prev; after := c :: r |}
  = if accepts icase negated items c then Some 1 else None.
Proof.
  unfold matchAt. cbn [matcher source ignoreCase pattern]. unfold step.
  cbn [after]. fold (accepts icase negated items c).
  destruct (accepts icase negated items c); [|reflexivity].
  cbn [after length]. f_equal. lia.
Qed.

(** A pattern that is one class, with the flag [g]: every accepted
    character is replaced, every other one is kept. *)
Lemma replaceFrom_class (icase negated u : bool) (items : list classItem)
    (repl : list N) (prev : option N) (rest : list N) :
  replaceFrom U (pattern true icase u (Class negated items)) repl 0 true prev rest
  = flat_map (fun c => if accepts icase negated items c then repl else [c]) rest.
Proof.
  revert prev. induction rest as [|c r IH]; intros prev; [reflexivity|].
  cbn [replaceFrom flat_map]. rewrite matchAt_class.
  destruct (accepts icase negated items c).
  - cbn [global pattern]. rewrite IH. reflexivity.
  - rewrite IH. reflexivity.
Qed.

(** *** Patterns anchored at both ends *)

Lemma searchFrom_anchored (R : RegExp.t) (r : regex) (c : N) (rest : list N) :
  source R = Seq InputStart r -> searchFrom U R (Some c) rest = false.
Proof.
  intros Hsrc. revert c. induction rest as [|d rest IH]; intros c; simpl;
    unfold matchAt; rewrite Hsrc; cbn [matcher before]; [reflexivity|apply IH].
Qed.

Lemma test_anchored (R : RegExp.t) (r : regex) (w : jsstring) :
  source R = Seq InputStart r -> unicode R = false ->
  RegExp.test U R w
  = match matcher U (ignoreCase R) r {| before := None; after := w |} (fun y => Some y) with
    | Some _ => true
    | None => false
    end.
Proof.
  intros Hsrc Hu. unfold RegExp.test, input. rewrite Hu.
  destruct w as [|c rest]; simpl; unfold matchAt; rewrite Hsrc; cbn [matcher before].
  - destruct (matcher U (ignoreCase R) r _ _); reflexivity.
  - destruct (matcher U (ignoreCase R) r _ _); [reflexivity|].
    exact (searchFrom_anchored R r c rest Hsrc).
Qed.

Definition atEnd (k : position -> option position) (y : position) : option position :=
  match after y with
  | [] => k y
  | _ :: _ => None
  end.

Lemma atEnd_blocked (k : position -> option position) (accept : N -> bool) :
  forall p c r, accept c = true -> atEnd k {| before := p; after := c :: r |} = None.
Proof. reflexivity. Qed.

Lemma dropWhile_nil_forallb (p : N -> bool) (s : list N) :
  match dropWhile p s with [] => true | _ :: _ => false end = forallb p s.
Proof.
  induction s as [|c r IH]; simpl; [reflexivity|].
  destruct (p c); simpl; [exact IH|reflexivity].
Qed.

Lemma takeWhile_all (p : N -> bool) (s : list N) :
  forallb p s = true -> takeWhile p s = s.
Proof.
  induction s as [|c r IH]; simpl; [reflexivity|].
  destruct (p c); simpl; [intros Hr; now rewrite IH|discriminate].
Qed.

(** [^class{lo,}$] holds of exactly the strings of at least [lo]
    characters, all in the class. *)
Lemma test_anchored_class (icase negated : bool) (items : list classItem)
    (lo : nat) (w : jsstring) :
  RegExp.test U
    (pattern false icase false
       (seqs [InputStart; Quant lo None (Class negated items); InputEnd])) w
  = (lo <=? length w)%nat && forallb (accepts icase negated items) w.
Proof.
  rewrite (test_anchored _ (seqs [Quant lo None (Class negated items); InputEnd]))
    by reflexivity.
  cbn [ignoreCase pattern seqs fold_right].
  change (matcher U icase (Seq (Quant lo None (Class negated items)) (Seq InputEnd Empty))
            {| before := None; after := w |} (fun y => Some y))
    with (matcher U icase (Quant lo None (Class negated items))
            {| before := None; after := w |} (atEnd (fun y => Some y))).
  rewrite matcher_class_quant.
  rewrite (greedy_maximal _ _ _ _ _ (atEnd_blocked _ _)).
  unfold atEnd. cbn [after].
  pose proof (dropWhile_nil_forallb (accepts icase negated items) w) as Hd.
  destruct (forallb (accepts icase negated items) w) eqn:Hall.
  - rewrite (takeWhile_all _ _ Hall).
    destruct (lo <=? length w)%nat; [|reflexivity].
    destruct (dropWhile _ w); [reflexivity|discriminate].
  - rewrite andb_false_r.
    destruct (lo <=? _)%nat; [|reflexivity].
    destruct (dropWhile _ w); [discriminate|reflexivity].
Qed.

End RegExpClasses.

(* ------------------------------------------------------------------ *)
(** ** The word classifier's patterns as character predicates *)

Definition isUpperAZ (c : N) : bool := ((65 <=? c) && (c <=? 90))%N.

(** ASCII letters, digits, apostrophe and hyphen. *)
Definition isEnglishChar (c : N) : bool :=
  (((97 <=? c) && (c <=? 122)) || ((65 <=? c) && (c <=? 90))
   || ((48 <=? c) && (c <=? 57)) || (c =? 39) || (c =? 45))%N.

Section WordPatterns.

Variable U : UnicodeData.
Variable englishDictionary : jsstring -> bool.

Import RegExp.

Lemma accepts_englishChars (c : N) :
  accepts U false false [lowerAZ; upperAZ; digit09; CChar 39; CChar HYPHEN] c
  = isEnglishChar c.
Proof.
  unfold accepts, isEnglishChar, lowerAZ, upperAZ, digit09, HYPHEN.
  cbn [existsb inItem sameChar xorb].
  rewrite (N.eqb_sym 39 c), (N.eqb_sym 45 c), orb_false_r, !orb_assoc.
  reflexivity.
Qed.

Lemma accepts_digits (c : N) : accepts U false false [CDigit] c = isDigit c.
Proof. unfold accepts. cbn [existsb inItem xorb]. apply orb_false_r. Qed.

Lemma accepts_digit09 (c : N) : accepts U false false [digit09] c = isDigit c.
Proof. unfold accepts, digit09. cbn [existsb inItem xorb]. apply orb_false_r. Qed.

Lemma accepts_upperAZ (c : N) : accepts U false false [upperAZ] c = isUpperAZ c.
Proof. unfold accepts, upperAZ. cbn [existsb inItem xorb]. apply orb_false_r. Qed.

Lemma forallb_ext_eq (p q : N -> bool) (s : list N) :
  (forall c, p c = q c) -> forallb p s = forallb q s.
Proof. intros Hpq. induction s as [|c r IH]; simpl; [reflexivity|now rewrite Hpq, IH]. Qed.

Lemma takeWhile_ext_eq (p q : N -> bool) (s : list N) :
  (forall c, p c = q c) -> takeWhile p s = takeWhile q s.
Proof. intros Hpq. induction s as [|c r IH]; simpl; [reflexivity|now rewrite Hpq, IH]. Qed.

Lemma dropWhile_ext_eq (p q : N -> bool) (s : list N) :
  (forall c, p c = q c) -> dropWhile p s = dropWhile q s.
Proof. intros Hpq. induction s as [|c r IH]; simpl; [reflexivity|now rewrite Hpq, IH]. Qed.

Lemma numbersOnly_test (w : jsstring) :
  RegExp.test U NUMBERS_ONLY_REGEX w = (1 <=? length w)%nat && forallb isDigit w.
Proof.
  unfold NUMBERS_ONLY_REGEX. rewrite test_anchored_class.
  now rewrite (forallb_ext_eq _ _ w accepts_digits).
Qed.

Lemma englishChars_test (word : jsstring) :
  hasOnlyEnglishCharacters U word
  = (1 <=? length word)%nat && forallb isEnglishChar word.
Proof.
  unfold hasOnlyEnglishCharacters, ENGLISH_CHARS_REGEX. rewrite test_anchored_class.
  now rewrite (forallb_ext_eq _ _ word accepts_englishChars).
Qed.

(** X10. [hasOnlyEnglishCharacters] holds of exactly the non-empty words
    whose every code unit is an ASCII letter, a digit, an apostrophe or a
    hyphen; in particular it fails on the empty word and on any word with
    a letter outside ASCII. *)
Theorem X10_hasOnlyEnglishCharacters (word : jsstring) :
  hasOnlyEnglishCharacters U word
  = (1 <=? length word)%nat && forallb isEnglishChar word.
Proof. apply englishChars_test. Qed.

(** X11. The abbreviation pattern [^[A-Z]{2,}[0-9]*$] holds of exactly
    the words that begin with at least two uppercase ASCII letters and
    continue, after the run of uppercase letters, with digits only. *)
Theorem X11_abbreviation_pattern (word : jsstring) :
  RegExp.test U ABBREVIATION_REGEX word
  = (2 <=? length (takeWhile isUpperAZ word))%nat
    && forallb isDigit (dropWhile isUpperAZ word).
Proof.
  unfold ABBREVIATION_REGEX.
  rewrite (test_anchored U _ (seqs [Quant 2 None (Class false [upperAZ]);
                                    Quant 0 None (Class false [digit09]); InputEnd]))
    by reflexivity.
  cbn [ignoreCase pattern seqs fold_right].
  set (k2 := fun y : position =>
               matcher U false (Quant 0 None (Class false [digit09])) y
                 (atEnd (fun z => Some z))).
  change (matcher U false
            (Seq (Quant 2 None (Class false [upperAZ]))
               (Seq (Quant 0 None (Class false [digit09])) (Seq InputEnd Empty)))
            {| before := None; after := word |} (fun y => Some y))
    with (matcher U false (Quant 2 None (Class false [upperAZ]))
            {| before := None; after := word |} k2).
  rewrite matcher_class_quant.
  assert (Hk2 : forall p c r, accepts U false false [upperAZ] c = true ->
                k2 {| before := p; after := c :: r |} = None).
  { intros p c r Hc. unfold k2. rewrite matcher_class_quant. cbn [greedy].
    rewrite accepts_digit09. rewrite accepts_upperAZ in Hc.
    assert (Hd : isDigit c = false).
    { unfold isUpperAZ in Hc. unfold isDigit.
      apply andb_true_iff in Hc. destruct Hc as [Hlo _].
      apply N.leb_le in Hlo.
      apply andb_false_iff. right. apply N.leb_gt. lia. }
    rewrite Hd. reflexivity. }
  rewrite (greedy_maximal _ _ _ _ _ Hk2).
  rewrite (takeWhile_ext_eq _ _ word accepts_upperAZ),
          (dropWhile_ext_eq _ _ word accepts_upperAZ).
  destruct (2 <=? length (takeWhile isUpperAZ word))%nat; [|reflexivity].
  unfold k2. rewrite matcher_class_quant.
  rewrite (greedy_maximal _ _ _ _ _ (atEnd_blocked _ _)).
  cbn [Nat.leb]. unfold atEnd. cbn [after].
  rewrite (dropWhile_ext_eq _ _ _ accepts_digit09).
  rewrite <- (dropWhile_nil_forallb isDigit (dropWhile isUpperAZ word)).
  destruct (dropWhile isDigit (dropWhile isUpperAZ word)); reflexivity.
Qed.

(** X12. What [isEnglishWord] accepts, with the two patterns read as
    character tests: a non-empty word of ASCII letters, digits,
    apostrophes and hyphens that is either all digits (when numbers are
    allowed) or shows no non-English indicator and is in the dictionary,
    itself or, when it has an apostrophe, by its part before the first
    apostrophe. Nothing else is accepted. *)
Theorem X12_isEnglishWord_accepts (word : jsstring) (wo : WordOptions) :
  isEnglishWord U englishDictionary word wo
  = (1 <=? length word)%nat && forallb isEnglishChar word
    && ((woAllowNumbers wo && forallb isDigit word)
        || (negb (hasObviousNonEnglishIndicators U word)
            && (englishDictionary word
                || (includes APOSTROPHE word
                    && englishDictionary (hd [] (split APOSTROPHE word)))))).
Proof.
  unfold isEnglishWord. rewrite englishChars_test, numbersOnly_test.
  destruct ((1 <=? length word)%nat) eqn:Hlen; [|reflexivity].
  destruct (forallb isEnglishChar word); [|reflexivity].
  cbn [andb negb].
  destruct (woAllowNumbers wo && forallb isDigit word); [reflexivity|].
  destruct (hasObviousNonEnglishIndicators U word); [reflexivity|].
  destruct (englishDictionary word); [reflexivity|].
  destruct (includes APOSTROPHE word && _); reflexivity.
Qed.

End WordPatterns.

(* ------------------------------------------------------------------ *)
(** ** Document patterns: what a text must hold to be matched *)

Section DocumentPatterns.

Variable U : UnicodeData.

Import RegExp.

Definition itemWithin (bad : N -> bool) (it : classItem) : bool :=
  match it with
  | CChar c => bad c
  | CRange lo hi => forallb bad (range lo hi)
  | CDigit => forallb bad (range 48 57)
  | CSpace | CWord | CLetter => false
  end.

(** A sufficient test that every match of a pattern (without the [i]
    flag) consumes a character satisfying [bad]. *)
Fixpoint requires (bad : N -> bool) (r : regex) : bool :=
  match r with
  | Char c => bad c
  | Class negated items => negb negated && forallb (itemWithin bad) items
  | Seq a b => requires bad a || requires bad b
  | Alt a b => requires bad a && requires bad b
  | Quant lo hi a =>
      (1 <=? lo)%nat
      && match hi with Some O => false | _ => true end
      && requires bad a
  | Empty | Dot | WordBoundary | InputStart | InputEnd => false
  end.

Lemma range_In (lo hi c : N) : (lo <= c)%N -> (c <= hi)%N -> In c (range lo hi).
Proof.
  intros Hlo Hhi. unfold range. apply in_map_iff.
  exists (N.to_nat c). split; [apply N2Nat.id|].
  apply in_seq. lia.
Qed.

Lemma itemWithin_sound (bad : N -> bool) (it : classItem) (ch : N) :
  itemWithin bad it = true -> inItem U false ch it = true -> bad ch = true.
Proof.
  destruct it as [c|lo hi| | | |]; cbn [itemWithin inItem sameChar]; try discriminate.
  - intros Hb Hc. apply N.eqb_eq in Hc. now subst.
  - intros Hb Hc. apply andb_true_iff in Hc. destruct Hc as [Hlo Hhi].
    apply N.leb_le in Hlo, Hhi.
    rewrite forallb_forall in Hb. apply Hb, range_In; assumption.
  - intros Hb Hc. unfold isDigit in Hc. apply andb_true_iff in Hc.
    destruct Hc as [Hlo Hhi]. apply N.leb_le in Hlo, Hhi.
    rewrite forallb_forall in Hb. apply Hb, range_In; assumption.
Qed.

Definition clean (bad : N -> bool) (x : position) : Prop :=
  Forall (fun c => bad c = false) (after x).

Lemma clean_step (bad : N -> bool) p c r :
  clean bad {| before := p; after := c :: r |} ->
  clean bad {| before := Some c; after := r |}.
Proof. unfold clean. simpl. intros Hc. now inversion Hc. Qed.

Lemma step_clean (bad : N -> bool) (accept : N -> bool) (x : position)
    (k : position -> option position) :
  (forall ch, accept ch = true -> bad ch = true) ->
  clean bad x -> step x k accept = None.
Proof.
  intros Hacc Hx. unfold step.
  destruct x as [p [|ch r]]; simpl; [reflexivity|].
  destruct (accept ch) eqn:Ha; [|reflexivity].
  unfold clean in Hx. simpl in Hx. inversion Hx as [|? ? Hch _]; subst.
  rewrite (Hacc ch Ha) in Hch. discriminate.
Qed.

(** A pattern that requires a [bad] character matches nowhere in a text
    without one. *)
Lemma requires_sound (bad : N -> bool) (r : regex) :
  requires bad r = true ->
  forall x k, clean bad x -> matcher U false r x k = None.
Proof.
  induction r as [|c| |negated items|a IHa b IHb|a IHa b IHb|lo hi a IHa| | |];
    simpl; try discriminate; intros Hreq x k Hx.
  - apply (step_clean bad); [|exact Hx].
    intros ch Hc. apply N.eqb_eq in Hc. now subst.
  - apply andb_true_iff in Hreq. destruct Hreq as [Hneg Hitems].
    apply negb_true_iff in Hneg. subst negated.
    apply (step_clean bad); [|exact Hx].
    intros ch Hc. simpl in Hc. apply existsb_exists in Hc.
    destruct Hc as (it & Hin & Hit).
    rewrite forallb_forall in Hitems.
    exact (itemWithin_sound bad it ch (Hitems it Hin) Hit).
  - apply orb_true_iff in Hreq. destruct Hreq as [Ha|Hb].
    + apply IHa; assumption.
    + apply (matcher_fails U (clean bad) (clean_step bad)); [exact Hx|].
      intros y Hy. apply IHb; assumption.
  - apply andb_true_iff in Hreq. destruct Hreq as [Ha Hb].
    rewrite (IHa Ha x k Hx). apply IHb; assumption.
  - apply andb_true_iff in Hreq. destruct Hreq as [Hreq Ha].
    apply andb_true_iff in Hreq. destruct Hreq as [Hlo Hhi].
    destruct lo as [|lo]; [discriminate|].
    destruct hi as [[|h]|]; try discriminate; apply IHa; assumption.
Qed.

Lemma requires_no_match (bad : N -> bool) (R : RegExp.t) :
  ignoreCase R = false -> requires bad (source R) = true ->
  forall prev r, Forall (fun c => bad c = false) r ->
    matchAt U R {| before := prev; after := r |} = None.
Proof.
  intros Hi Hreq prev r Hr. unfold matchAt. rewrite Hi.
  now rewrite (requires_sound bad (source R) Hreq
                 {| before := prev; after := r |} (fun y => Some y) Hr).
Qed.

Definition plainPattern (bad : N -> bool) (R : RegExp.t) : bool :=
  negb (ignoreCase R) && negb (unicode R) && requires bad (source R).

Lemma plainPattern_replace (bad : N -> bool) (R : RegExp.t) (text : jsstring) :
  plainPattern bad R = true -> Forall (fun c => bad c = false) text ->
  RegExp.replace U R [] text = text /\ RegExp.test U R text = false.
Proof.
  unfold plainPattern. intros Hp Htext.
  apply andb_true_iff in Hp. destruct Hp as [Hp Hreq].
  apply andb_true_iff in Hp. destruct Hp as [Hi Hu].
  apply negb_true_iff in Hi, Hu.
  assert (Htail : forall c r, Forall (fun c0 => bad c0 = false) (c :: r) ->
                  Forall (fun c0 => bad c0 = false) r)
    by (intros c r Hc; now inversion Hc).
  unfold RegExp.replace, RegExp.test, input, output. rewrite Hu. split.
  - exact (replaceFrom_no_match U R [] _ Htail (requires_no_match bad R Hi Hreq)
             None text Htext).
  - exact (searchFrom_no_match U R _ Htail (requires_no_match bad R Hi Hreq)
             None text Htext).
Qed.

Lemma removeAll_plain (bad : N -> bool) (patterns : list RegExp.t) (text : jsstring) :
  forallb (plainPattern bad) patterns = true ->
  Forall (fun c => bad c = false) text ->
  removeAll U patterns text = text.
Proof.
  unfold removeAll. induction patterns as [|R Rs IH]; simpl; [reflexivity|].
  intros Hp Htext. apply andb_true_iff in Hp. destruct Hp as [HR HRs].
  rewrite (proj1 (plainPattern_replace bad R text HR Htext)). exact (IH HRs Htext).
Qed.

Lemma existsb_test_plain (bad : N -> bool) (patterns : list RegExp.t) (text : jsstring) :
  forallb (plainPattern bad) patterns = true ->
  Forall (fun c => bad c = false) text ->
  existsb (fun p => RegExp.test U p text) patterns = false.
Proof.
  induction patterns as [|R Rs IH]; simpl; [reflexivity|].
  intros Hp Htext. apply andb_true_iff in Hp. destruct Hp as [HR HRs].
  rewrite (proj2 (plainPattern_replace bad R text HR Htext)). exact (IH HRs Htext).
Qed.

Definition isDigitOrHyphen (c : N) : bool := isDigit c || (c =? HYPHEN)%N.

(** X13. Every document pattern needs an uppercase ASCII letter and a
    digit or a hyphen: on a text without uppercase ASCII letters, or
    without digits and hyphens, [removeDocumentPatterns] only normalises
    the white space and [matchesDocumentPattern] answers [false]. *)
Theorem X13_document_patterns_need (text : jsstring) :
  Forall (fun c => isUpperAZ c = false) text
  \/ Forall (fun c => isDigitOrHyphen c = false) text ->
  removeDocumentPatterns U text = normalizeWhitespace U text
  /\ matchesDocumentPattern U (VString text) = false.
Proof.
  intros Htext.
  assert (Hrm : forallb (plainPattern isUpperAZ) DOCUMENT_PATTERNS_REMOVE = true)
    by (vm_compute; reflexivity).
  assert (Hmt : forallb (plainPattern isUpperAZ) DOCUMENT_PATTERNS_MATCH = true)
    by (vm_compute; reflexivity).
  assert (Hrm' : forallb (plainPattern isDigitOrHyphen) DOCUMENT_PATTERNS_REMOVE = true)
    by (vm_compute; reflexivity).
  assert (Hmt' : forallb (plainPattern isDigitOrHyphen) DOCUMENT_PATTERNS_MATCH = true)
    by (vm_compute; reflexivity).
  unfold removeDocumentPatterns, matchesDocumentPattern, isNonEmptyString.
  destruct Htext as [Hup|Hdh].
  - rewrite (removeAll_plain isUpperAZ _ _ Hrm Hup). split; [reflexivity|].
    destruct (0 <? length text)%nat; [|reflexivity].
    exact (existsb_test_plain isUpperAZ _ _ Hmt Hup).
  - rewrite (removeAll_plain isDigitOrHyphen _ _ Hrm' Hdh). split; [reflexivity|].
    destruct (0 <? length text)%nat; [|reflexivity].
    exact (existsb_test_plain isDigitOrHyphen _ _ Hmt' Hdh).
Qed.

End DocumentPatterns.

Lemma X13_document_patterns_need_witness :
  (Forall (fun c => isUpperAZ c = false) (str "NATO and the FBI  agree")
   \/ Forall (fun c => isDigitOrHyphen c = false) (str "NATO and the FBI  agree"))
  /\ removeDocumentPatterns Latin.tables (str "NATO and the FBI  agree")
     = normalizeWhitespace Latin.tables (str "NATO and the FBI  agree")
  /\ matchesDocumentPattern Latin.tables (VString (str "NATO and the FBI  agree")) = false.
Proof.
  assert (H0 : Forall (fun c => isUpperAZ c = false) (str "NATO and the FBI  agree")
               \/ Forall (fun c => isDigitOrHyphen c = false) (str "NATO and the FBI  agree")).
  { right. vm_compute. repeat constructor. }
  split; [exact H0|].
  exact (X13_document_patterns_need Latin.tables (str "NATO and the FBI  agree") H0).
Defined.

(* ------------------------------------------------------------------ *)
(** ** [normalizeWhitespace] *)

(** Every run of white space becomes one space; [inRun] says that the
    run's space has been written already. *)
Fixpoint collapse (inRun : bool) (s : list N) : list N :=
  match s with
  | [] => []
  | c :: r =>
      if isWhiteSpace c then
        if inRun then collapse true r else SPACE :: collapse true r
      else c :: collapse false r
  end.

(** White space occurs only as single spaces (and not at the front when
    [afterSpace] holds). *)
Fixpoint spaced (afterSpace : bool) (s : list N) : bool :=
  match s with
  | [] => true
  | c :: r =>
      if isWhiteSpace c then (c =? SPACE)%N && negb afterSpace && spaced true r
      else spaced false r
  end.

Fixpoint endsOnWord (s : list N) : bool :=
  match s with
  | [] => true
  | c :: r =>
      match r with
      | [] => negb (isWhiteSpace c)
      | _ :: _ => endsOnWord r
      end
  end.

(** [trimEnd] read from the left. *)
Fixpoint dropTrailing (s : list N) : list N :=
  match s with
  | [] => []
  | c :: r =>
      match dropTrailing r with
      | [] => if isWhiteSpace c then [] else [c]
      | t => c :: t
      end
  end.

Lemma trimStart_snoc (l : list N) (c : N) :
  trimStart (l ++ [c])
  = match trimStart l with
    | [] => if isWhiteSpace c then [] else [c]
    | t => t ++ [c]
    end.
Proof.
  induction l as [|d l IH]; simpl; [destruct (isWhiteSpace c); reflexivity|].
  destruct (isWhiteSpace d); [exact IH|reflexivity].
Qed.

Lemma trimEnd_dropTrailing (s : list N) : trimEnd s = dropTrailing s.
Proof.
  unfold trimEnd. induction s as [|c r IH]; [reflexivity|].
  simpl. rewrite trimStart_snoc, <- IH.
  destruct (trimStart (rev r)) as [|d t]; simpl.
  - destruct (isWhiteSpace c); reflexivity.
  - rewrite rev_app_distr. simpl.
    destruct (rev t ++ [d]) eqn:E; [|reflexivity].
    destruct (rev t); discriminate.
Qed.

Lemma spaced_weaken (s : list N) : spaced true s = true -> spaced false s = true.
Proof.
  destruct s as [|c r]; simpl; [reflexivity|].
  destruct (isWhiteSpace c); [|tauto].
  rewrite andb_false_r. discriminate.
Qed.

Lemma collapse_spaced (s : list N) :
  spaced false (collapse false s) = true /\ spaced true (collapse true s) = true.
Proof.
  induction s as [|c r [IHf IHt]]; simpl; [split; reflexivity|].
  destruct (isWhiteSpace c) eqn:Hc; simpl.
  - split; exact IHt.
  - rewrite Hc. split; exact IHf.
Qed.

Lemma trimStart_spaced (b : bool) (s : list N) :
  spaced b s = true -> spaced true (trimStart s) = true.
Proof.
  revert b. induction s as [|c r IH]; intros b; simpl; [reflexivity|].
  destruct (isWhiteSpace c) eqn:Hc.
  - intros Hs. apply andb_true_iff in Hs. destruct Hs as [_ Hr]. exact (IH true Hr).
  - simpl. rewrite Hc. tauto.
Qed.

Lemma dropTrailing_spaced (b : bool) (s : list N) :
  spaced b s = true -> spaced b (dropTrailing s) = true.
Proof.
  revert b. induction s as [|c r IH]; intros b; simpl; [reflexivity|].
  destruct (isWhiteSpace c) eqn:Hc.
  - intros Hs. apply andb_true_iff in Hs. destruct Hs as [Hcb Hr].
    specialize (IH true Hr).
    destruct (dropTrailing r) as [|d t]; [reflexivity|].
    simpl. rewrite Hc, Hcb. exact IH.
  - intros Hr. specialize (IH false Hr).
    destruct (dropTrailing r) as [|d t]; simpl; rewrite Hc; [reflexivity|exact IH].
Qed.

Lemma dropTrailing_endsOnWord (s : list N) : endsOnWord (dropTrailing s) = true.
Proof.
  induction s as [|c r IH]; simpl; [reflexivity|].
  destruct (dropTrailing r) as [|d t].
  - destruct (isWhiteSpace c) eqn:Hc; simpl; [reflexivity|now rewrite Hc].
  - exact IH.
Qed.

Lemma trimStart_fixed (s : list N) : spaced true s = true -> trimStart s = s.
Proof.
  destruct s as [|c r]; simpl; [reflexivity|].
  destruct (isWhiteSpace c); [|reflexivity].
  rewrite andb_false_r. discriminate.
Qed.

Lemma dropTrailing_fixed (s : list N) : endsOnWord s = true -> dropTrailing s = s.
Proof.
  induction s as [|c r IH]; [reflexivity|].
  cbn [endsOnWord dropTrailing]. destruct r as [|d t].
  - simpl. intros Hc. apply negb_true_iff in Hc. now rewrite Hc.
  - intros Hr. rewrite (IH Hr). reflexivity.
Qed.

Lemma collapse_fixed (b : bool) (s : list N) : spaced b s = true -> collapse b s = s.
Proof.
  revert b. induction s as [|c r IH]; intros b; simpl; [reflexivity|].
  destruct (isWhiteSpace c).
  - intros Hs. apply andb_true_iff in Hs. destruct Hs as [Hcb Hr].
    apply andb_true_iff in Hcb. destruct Hcb as [Hc Hb].
    apply negb_true_iff in Hb. apply N.eqb_eq in Hc. subst b c.
    now rewrite (IH true Hr).
  - intros Hr. now rewrite (IH false Hr).
Qed.

Lemma collapse_In (b : bool) (s : list N) (c : N) :
  In c (collapse b s) -> c = SPACE \/ (In c s /\ isWhiteSpace c = false).
Proof.
  revert b. induction s as [|d r IH]; intros b; simpl; [tauto|].
  destruct (isWhiteSpace d) eqn:Hd.
  - destruct b; simpl; intros Hin.
    + destruct (IH _ Hin); tauto.
    + destruct Hin as [<-|Hin]; [tauto|]. destruct (IH _ Hin); tauto.
  - simpl. intros [<-|Hin]; [tauto|]. destruct (IH _ Hin); tauto.
Qed.

Lemma trimStart_In (s : list N) (c : N) : In c (trimStart s) -> In c s.
Proof.
  induction s as [|d r IH]; simpl; [tauto|].
  destruct (isWhiteSpace d); simpl; tauto.
Qed.

Lemma trim_In (s : list N) (c : N) : In c (trim s) -> In c s.
Proof.
  unfold trim, trimEnd. intros Hin.
  apply in_rev, trimStart_In, in_rev in Hin. exact (trimStart_In _ _ Hin).
Qed.

(** The tokens of a tidy text. *)
Lemma split_spaced (s : list N) (b : bool) :
  spaced b s = true -> endsOnWord s = true -> s <> [] ->
  match split SPACE s with
  | w :: ws =>
      (b = true -> w <> [])
      /\ Forall (fun c => isWhiteSpace c = false) w
      /\ Forall (fun t => t <> [] /\ Forall (fun c => isWhiteSpace c = false) t) ws
  | [] => False
  end.
Proof.
  revert b. induction s as [|c r IH]; intros b Hs He Hne; [contradiction|].
  cbn [spaced] in Hs. cbn [split].
  destruct (isWhiteSpace c) eqn:Hc.
  - apply andb_true_iff in Hs. destruct Hs as [Hcb Hr].
    apply andb_true_iff in Hcb. destruct Hcb as [Hc32 Hb].
    rewrite Hc32. apply negb_true_iff in Hb. subst b.
    assert (Hrne : r <> []).
    { intros ->. simpl in He. rewrite Hc in He. discriminate. }
    assert (Her : endsOnWord r = true).
    { destruct r; [contradiction|exact He]. }
    specialize (IH true Hr Her Hrne).
    destruct (split SPACE r) as [|w ws]; [contradiction|].
    destruct IH as (Hw & Hwc & Hws).
    repeat split; [discriminate|constructor|].
    constructor; [split; [exact (Hw eq_refl)|exact Hwc]|exact Hws].
  - assert (Hc32 : (c =? SPACE)%N = false).
    { destruct (c =? SPACE)%N eqn:E; [|reflexivity].
      apply N.eqb_eq in E. subst c. discriminate Hc. }
    rewrite Hc32.
    destruct r as [|d t].
    + simpl. repeat split; [discriminate|repeat constructor; exact Hc|constructor].
    + assert (Her : endsOnWord (d :: t) = true) by exact He.
      specialize (IH false Hs Her ltac:(discriminate)).
      destruct (split SPACE (d :: t)) as [|w ws]; [contradiction|].
      destruct IH as (_ & Hwc & Hws).
      repeat split; [discriminate|constructor; assumption|exact Hws].
Qed.

Section Whitespace.

Variable U : UnicodeData.

Import RegExp.

Lemma accepts_space (c : N) : accepts U false false [CSpace] c = isWhiteSpace c.
Proof. unfold accepts. cbn [existsb inItem xorb]. apply orb_false_r. Qed.

Lemma matchAt_whitespace (prev : option N) (rest : list N) :
  matchAt U WHITESPACE_REGEX {| before := prev; after := rest |}
  = if (1 <=? length (takeWhile isWhiteSpace rest))%nat
    then Some (length (takeWhile isWhiteSpace rest))
    else None.
Proof.
  unfold matchAt, WHITESPACE_REGEX. cbn [source ignoreCase pattern].
  rewrite matcher_class_quant, greedy_all.
  rewrite (takeWhile_ext_eq _ _ rest accepts_space),
          (dropWhile_ext_eq _ _ rest accepts_space).
  destruct (1 <=? length (takeWhile isWhiteSpace rest))%nat; [|reflexivity].
  cbn [after]. f_equal.
  rewrite <- (takeWhile_dropWhile isWhiteSpace rest) at 1.
  rewrite length_app. lia.
Qed.

Lemma replace_whitespace_collapse (rest : list N) (prev : option N) :
  replaceFrom U WHITESPACE_REGEX [SPACE] 0 true prev rest = collapse false rest
  /\ replaceFrom U WHITESPACE_REGEX [SPACE]
       (length (takeWhile isWhiteSpace rest)) true prev rest = collapse true rest.
Proof.
  revert prev. induction rest as [|c r IH]; intros prev.
  - split; reflexivity.
  - assert (Hb : replaceFrom U WHITESPACE_REGEX [SPACE] 0 true prev (c :: r)
                 = collapse false (c :: r)).
    { cbn [replaceFrom]. rewrite matchAt_whitespace. cbn [takeWhile collapse].
      destruct (isWhiteSpace c).
      - cbn [length Nat.leb]. cbn [global WHITESPACE_REGEX pattern].
        rewrite (proj2 (IH (Some c))). reflexivity.
      - cbn [length Nat.leb]. rewrite (proj1 (IH (Some c))). reflexivity. }
    split; [exact Hb|].
    cbn [takeWhile]. destruct (isWhiteSpace c) eqn:Hc.
    + cbn [length replaceFrom collapse]. rewrite Hc. exact (proj2 (IH (Some c))).
    + cbn [length]. rewrite Hb. cbn [collapse]. rewrite Hc. reflexivity.
Qed.

Lemma normalizeWhitespace_collapse (text : jsstring) :
  normalizeWhitespace U text = dropTrailing (trimStart (collapse false text)).
Proof.
  unfold normalizeWhitespace, trim. rewrite trimEnd_dropTrailing.
  unfold RegExp.replace, input, output. cbn [unicode WHITESPACE_REGEX pattern].
  change (str " ") with [SPACE].
  now rewrite (proj1 (replace_whitespace_collapse text None)).
Qed.

Lemma normalizeWhitespace_tidy (text : jsstring) :
  spaced true (normalizeWhitespace U text) = true
  /\ endsOnWord (normalizeWhitespace U text) = true.
Proof.
  rewrite normalizeWhitespace_collapse. split.
  - apply dropTrailing_spaced, (trimStart_spaced false), collapse_spaced.
  - apply dropTrailing_endsOnWord.
Qed.

(** X16. [normalizeWhitespace] returns a text in which white space
    occurs only as single spaces between words: the result is empty or
    splits on the space into tokens that are all non-empty and free of
    white space; its only white-space character is the space; and
    normalising once more changes nothing. *)
Theorem X16_normalizeWhitespace_tidy (text : jsstring) :
  let tidy := normalizeWhitespace U text in
  (tidy = []
   \/ Forall (fun w => w <> [] /\ Forall (fun c => isWhiteSpace c = false) w)
             (split SPACE tidy))
  /\ Forall (fun c => isWhiteSpace c = true -> c = SPACE) tidy
  /\ normalizeWhitespace U tidy = tidy.
Proof.
  intros tidy. destruct (normalizeWhitespace_tidy text) as [Hs He]. fold tidy in Hs, He.
  split; [|split].
  - destruct tidy as [|c r] eqn:E; [now left|right].
    pose proof (split_spaced (c :: r) true Hs He ltac:(discriminate)) as Hsplit.
    destruct (split SPACE (c :: r)) as [|w ws]; [contradiction|].
    destruct Hsplit as (Hw & Hwc & Hws).
    constructor; [split; [exact (Hw eq_refl)|exact Hwc]|exact Hws].
  - apply Forall_forall. intros c Hin Hc. subst tidy.
    rewrite normalizeWhitespace_collapse, <- trimEnd_dropTrailing in Hin.
    apply (trim_In (collapse false text)) in Hin.
    destruct (collapse_In _ _ _ Hin) as [->|[_ Hn]]; [reflexivity|congruence].
  - rewrite normalizeWhitespace_collapse.
    rewrite (collapse_fixed false tidy (spaced_weaken _ Hs)).
    rewrite (trimStart_fixed tidy Hs). exact (dropTrailing_fixed tidy He).
Qed.

End Whitespace.

(* ------------------------------------------------------------------ *)
(** ** What survives preprocessing *)

(** The punctuation [NON_LETTER_REGEX] keeps. *)
Definition punctuationKept : list N := str ".,!?:;'" ++ [QUOTE] ++ str "()-".

Definition withAllowNumbers (o : DetectionOptions) (b : option bool) : DetectionOptions :=
  {| englishThreshold := englishThreshold o; minWordLength := minWordLength o;
     allowNumbers := b; allowAbbreviations := allowAbbreviations o;
     customPatterns := customPatterns o; excludeWords := excludeWords o |}.

Ltac nbool :=
  repeat match goal with
         | H : (_ && _) = true |- _ => apply andb_true_iff in H; destruct H
         | H : (_ || _) = true |- _ => apply orb_true_iff in H; destruct H
         | H : negb _ = true |- _ => apply negb_true_iff in H
         | H : (_ <=? _)%N = true |- _ => apply N.leb_le in H
         | H : (_ <? _)%N = true |- _ => apply N.ltb_lt in H
         | H : (_ <? _)%N = false |- _ => apply N.ltb_ge in H
         | H : (_ =? _)%N = true |- _ => apply N.eqb_eq in H
         end.

Lemma isWhiteSpace_bmp (cp : N) : isWhiteSpace cp = true -> (cp <? 65536)%N = true.
Proof.
  unfold isWhiteSpace. intros H. nbool; apply N.ltb_lt; lia.
Qed.

Lemma isDigit_above (c : N) : (57 < c)%N -> isDigit c = false.
Proof.
  intros Hc. unfold isDigit. apply andb_false_iff. right. apply N.leb_gt. exact Hc.
Qed.

Lemma utf16_astral_no_digit (cp c : N) :
  (cp <? 65536)%N = false -> In c (utf16 cp) -> isDigit c = false.
Proof.
  intros Hcp. unfold utf16. rewrite Hcp.
  intros [<-|[<-|[]]]; apply isDigit_above;
    (eapply N.lt_le_trans; [|apply N.le_add_r]); reflexivity.
Qed.

Lemma split_In (sep : N) (s w : list N) (c : N) :
  In w (split sep s) -> In c w -> In c s.
Proof.
  revert w. induction s as [|d r IH]; intros w; simpl.
  - intros [<-|[]] [].
  - destruct (d =? sep)%N.
    + intros [<-|Hin] Hc; [contradiction|]. right. exact (IH w Hin Hc).
    + pose proof (split_nonempty sep r) as Hne.
      destruct (split sep r) as [|w0 ws]; [contradiction|].
      intros [<-|Hin] Hc.
      * destruct Hc as [<-|Hc]; [now left|]. right. apply (IH w0); [now left|exact Hc].
      * right. apply (IH w); [now right|exact Hc].
Qed.

Section Survivors.

Variable U : UnicodeData.
Variable englishDictionary : jsstring -> bool.
Variable wordsToRemove : list (jsstring * bool).
Variable francAll : jsstring -> list (jsstring * float).

Import RegExp.

Definition nonLetterItems : list classItem :=
  [CLetter; CSpace] ++ chars (str ".,!?:;'") ++ [CChar QUOTE] ++ chars (str "()-").

Lemma nonLetter_kept (cp : N) :
  accepts U false true nonLetterItems cp = false ->
  isLetter U cp = true \/ isWhiteSpace cp = true \/ In cp punctuationKept.
Proof.
  unfold accepts. intros Hacc.
  destruct (existsb (inItem U false cp) nonLetterItems) eqn:Hex; [|discriminate].
  apply existsb_exists in Hex. destruct Hex as (it & Hin & Hit).
  vm_compute in Hin.
  repeat (destruct Hin as [<-|Hin]; [cbn [inItem sameChar] in Hit|]);
    try contradiction; try tauto;
    apply N.eqb_eq in Hit; subst cp; right; right; vm_compute; tauto.
Qed.

Lemma nonLetter_replace (text : jsstring) :
  RegExp.replace U NON_LETTER_REGEX (str " ") text
  = fromCodePoints
      (flat_map (fun cp => if accepts U false true nonLetterItems cp then [SPACE] else [cp])
                (codePoints text)).
Proof.
  unfold RegExp.replace, input, output, NON_LETTER_REGEX.
  cbn [unicode pattern]. change (codePoints (str " ")) with [SPACE].
  fold nonLetterItems. now rewrite replaceFrom_class.
Qed.

Lemma normalizeWhitespace_In (text : jsstring) (c : N) :
  In c (normalizeWhitespace U text) ->
  c = SPACE \/ (In c text /\ isWhiteSpace c = false).
Proof.
  rewrite normalizeWhitespace_collapse, <- trimEnd_dropTrailing.
  intros Hin. apply (trim_In (collapse false text)) in Hin.
  exact (collapse_In _ _ _ Hin).
Qed.

Lemma preprocessText_chars (text : jsstring) (cps : option (list RegExp.t))
    (ews : option (list jsstring)) (c : N) :
  In c (preprocessText U wordsToRemove text cps ews) ->
  c = SPACE
  \/ exists cp, In c (utf16 cp) /\ (isLetter U cp = true \/ In cp punctuationKept).
Proof.
  unfold preprocessText. intros Hin.
  apply normalizeWhitespace_In in Hin. destruct Hin as [->|[Hin Hws]]; [now left|].
  rewrite nonLetter_replace in Hin. unfold fromCodePoints in Hin.
  apply in_flat_map in Hin. destruct Hin as (cp' & Hcp' & Hc).
  apply in_flat_map in Hcp'. destruct Hcp' as (cp & _ & Hcp).
  destruct (accepts U false true nonLetterItems cp) eqn:Hacc.
  - destruct Hcp as [<-|[]]. destruct Hc as [<-|[]]. now left.
  - destruct Hcp as [<-|[]].
    destruct (nonLetter_kept cp Hacc) as [Hl|[Hw|Hp]].
    + right. exists cp. tauto.
    + exfalso. unfold utf16 in Hc. rewrite (isWhiteSpace_bmp cp Hw) in Hc.
      destruct Hc as [<-|[]]. congruence.
    + right. exists cp. tauto.
Qed.

(** X14. Every code unit of a preprocessed text is a space, or belongs
    to the UTF-16 encoding of a letter or of one of the punctuation marks
    [. , ! ? : ; ' ( ) -] and the double quote: digits, underscores,
    symbols and all other white space are gone. *)
Theorem X14_preprocessText_survivors (text : jsstring)
    (cps : option (list RegExp.t)) (ews : option (list jsstring)) :
  Forall (fun c =>
            c = SPACE
            \/ exists cp, In c (utf16 cp)
                          /\ (isLetter U cp = true \/ In cp punctuationKept))
         (preprocessText U wordsToRemove text cps ews).
Proof. apply Forall_forall. intros c. apply preprocessText_chars. Qed.

Definition noDigit (s : list N) : Prop := Forall (fun c => isDigit c = false) s.

(** The two facts about the runtime's tables the next property rests on:
    no ASCII digit is a letter, and lower-casing a text without ASCII
    digits gives a text without ASCII digits. *)
Definition digitsAreNotLetters : Prop :=
  forall c, isDigit c = true -> isLetter U c = false.

Definition lowerCaseKeepsNoDigit : Prop :=
  forall s, noDigit s -> noDigit (toLowerCase U s).

Lemma preprocessText_noDigit (text : jsstring) (cps : option (list RegExp.t))
    (ews : option (list jsstring)) :
  digitsAreNotLetters -> noDigit (preprocessText U wordsToRemove text cps ews).
Proof.
  intros Hdl. apply Forall_forall. intros c Hin.
  destruct (preprocessText_chars _ _ _ _ Hin) as [->|(cp & Hc & Hkept)]; [reflexivity|].
  destruct (cp <? 65536)%N eqn:Hbmp; [|exact (utf16_astral_no_digit cp c Hbmp Hc)].
  unfold utf16 in Hc. rewrite Hbmp in Hc. destruct Hc as [<-|[]].
  destruct Hkept as [Hl|Hp].
  - destruct (isDigit cp) eqn:Hd; [|reflexivity].
    rewrite (Hdl cp Hd) in Hl. discriminate.
  - vm_compute in Hp.
    repeat (destruct Hp as [<-|Hp]; [reflexivity|]). contradiction.
Qed.

Lemma numbersOnly_noDigit (w : jsstring) :
  noDigit w -> RegExp.test U NUMBERS_ONLY_REGEX w = false.
Proof.
  intros Hw. rewrite numbersOnly_test.
  destruct w as [|c r]; [reflexivity|].
  inversion Hw as [|? ? Hc _]; subst. simpl. rewrite Hc. reflexivity.
Qed.

Lemma isEnglishWord_allowNumbers (w : jsstring) (an1 an2 ab : bool) :
  noDigit w ->
  isEnglishWord U englishDictionary w
    {| woAllowNumbers := an1; woAllowAbbreviations := ab |}
  = isEnglishWord U englishDictionary w
      {| woAllowNumbers := an2; woAllowAbbreviations := ab |}.
Proof.
  intros Hw. unfold isEnglishWord. cbn [woAllowNumbers].
  rewrite (numbersOnly_noDigit w Hw), !andb_false_r. reflexivity.
Qed.

Lemma cleanWord_noDigit (word : jsstring) :
  noDigit word -> noDigit (trim (RegExp.replace U WORD_PUNCTUATION_REGEX [] word)).
Proof.
  intros Hw. apply Forall_forall. intros c Hin.
  apply trim_In in Hin.
  unfold RegExp.replace, input, output in Hin.
  cbn [unicode WORD_PUNCTUATION_REGEX pattern] in Hin.
  apply replaceFrom_incl in Hin. destruct Hin as [[]|Hin].
  unfold noDigit in Hw. rewrite Forall_forall in Hw. exact (Hw c Hin).
Qed.

Lemma wordCounts_allowNumbers (mwl : float) (an1 an2 ab : bool)
    (words : list jsstring) (eng total : nat) :
  lowerCaseKeepsNoDigit ->
  Forall noDigit words ->
  wordCounts U englishDictionary mwl
    {| woAllowNumbers := an1; woAllowAbbreviations := ab |} words eng total
  = wordCounts U englishDictionary mwl
      {| woAllowNumbers := an2; woAllowAbbreviations := ab |} words eng total.
Proof.
  intros Hlow Hwords. revert eng total.
  induction Hwords as [|word rest Hword _ IH]; intros eng total; simpl; [reflexivity|].
  rewrite (isEnglishWord_allowNumbers _ an1 an2 ab
             (Hlow _ (cleanWord_noDigit word Hword))).
  destruct (Number.lt _ mwl); [apply IH|].
  destruct (_ || _); apply IH.
Qed.

Lemma verdict_allowNumbers (v : value) (o : DetectionOptions) (b1 b2 : option bool) :
  digitsAreNotLetters -> lowerCaseKeepsNoDigit ->
  verdict U englishDictionary wordsToRemove francAll v (withAllowNumbers o b1)
  = verdict U englishDictionary wordsToRemove francAll v (withAllowNumbers o b2).
Proof.
  intros Hdl Hlow. unfold verdict.
  destruct (isNonEmptyString v) as [s|]; [|reflexivity].
  change (wordsOf U wordsToRemove s (withAllowNumbers o b1))
    with (wordsOf U wordsToRemove s o).
  change (wordsOf U wordsToRemove s (withAllowNumbers o b2))
    with (wordsOf U wordsToRemove s o).
  assert (Hratio : ratioOf U englishDictionary wordsToRemove s (withAllowNumbers o b1)
                   = ratioOf U englishDictionary wordsToRemove s (withAllowNumbers o b2)).
  { unfold ratioOf, wordOptionsOf.
    change (wordsOf U wordsToRemove s (withAllowNumbers o b1))
      with (wordsOf U wordsToRemove s o).
    change (wordsOf U wordsToRemove s (withAllowNumbers o b2))
      with (wordsOf U wordsToRemove s o).
    cbn [allowNumbers allowAbbreviations minWordLength withAllowNumbers].
    rewrite (wordCounts_allowNumbers _ (orDefault b1 true) (orDefault b2 true)
               _ (wordsOf U wordsToRemove s o) 0 0 Hlow); [reflexivity|].
    apply Forall_forall. intros w Hw. apply Forall_forall. intros c Hc.
    unfold wordsOf in Hw.
    pose proof (preprocessText_noDigit s (customPatterns o) (excludeWords o) Hdl) as Hp.
    unfold noDigit in Hp. rewrite Forall_forall in Hp.
    exact (Hp c (split_In SPACE _ w c Hw Hc)). }
  rewrite Hratio. reflexivity.
Qed.

(** X15. The option [allowNumbers] has no effect on the answer. Digits
    are not letters, so preprocessing replaces every digit by a space
    before the text is split into words, and the all-digits test of
    [isEnglishWord] never sees a digit: for any two settings of
    [allowNumbers] (absent, [true] or [false]) and any two reachable
    cache states, [detectNonEnglishText] gives the same result. *)
Theorem X15_allowNumbers_inert (v : value) (o : DetectionOptions)
    (b1 b2 : option bool) (st st' : Caches) :
  digitsAreNotLetters -> lowerCaseKeepsNoDigit ->
  reachable U englishDictionary wordsToRemove francAll st ->
  reachable U englishDictionary wordsToRemove francAll st' ->
  result (detectNonEnglishText U englishDictionary wordsToRemove francAll
            v (withAllowNumbers o b1) st)
  = result (detectNonEnglishText U englishDictionary wordsToRemove francAll
              v (withAllowNumbers o b2) st').
Proof.
  intros Hdl Hlow Hst Hst'.
  rewrite (detect_reachable _ _ _ _ _ _ _ Hst), (detect_reachable _ _ _ _ _ _ _ Hst').
  exact (verdict_allowNumbers v o b1 b2 Hdl Hlow).
Qed.

End Survivors.

(** The sample tables keep digits apart from letters, also under
    lower-casing. *)
Lemma Latin_digitsAreNotLetters : digitsAreNotLetters Latin.tables.
Proof.
  intros c Hc. unfold isDigit in Hc. nbool.
  cbn [isLetter Latin.tables]. unfold Latin.letter, Latin.between.
  repeat match goal with
         | |- (_ || _) = false => apply orb_false_iff; split
         | |- (_ && _) = false => apply andb_false_iff
         end;
    try (left; apply N.leb_gt; lia); try (right; apply N.leb_gt; lia);
    apply N.eqb_neq; lia.
Qed.

Lemma Latin_lowerChar_noDigit (c : N) :
  isDigit c = false -> noDigit (Latin.lowerChar c).
Proof.
  intros Hc. unfold Latin.lowerChar, Latin.evenCapital, Latin.oddCapital, Latin.between.
  repeat match goal with
         | |- context [if ?b then _ else _] => destruct b eqn:?
         end;
    nbool; repeat constructor; try exact Hc; try reflexivity;
    apply isDigit_above; lia.
Qed.

Lemma Latin_lowerCaseKeepsNoDigit : lowerCaseKeepsNoDigit Latin.tables.
Proof.
  intros s Hs. cbn [toLowerCase Latin.tables]. unfold noDigit in *.
  induction Hs as [|c r Hc _ IH]; simpl; [constructor|].
  apply Forall_app. split; [exact (Latin_lowerChar_noDigit c Hc)|exact IH].
Qed.

Lemma X7_detect_returns_witness :
  (forall s, VString (str "zzz qqq the") = VString s -> Sample.undetermined s <> [])
  /\ exists b, result (Sample.run Sample.undetermined "zzz qqq the" noOptions emptyCaches)
               = Returned b.
Proof.
  assert (H0 : forall s, VString (str "zzz qqq the") = VString s ->
                         Sample.undetermined s <> [])
    by (intros s _ H; discriminate H).
  split; [exact H0|].
  exact (X7_detect_returns Latin.tables Sample.dictionary Sample.geoTerms
           Sample.undetermined (VString (str "zzz qqq the")) noOptions emptyCaches H0).
Defined.

Lemma X8_low_ratio_not_rescued_witness :
  Sample.reachable' Sample.ranking emptyCaches
  /\ length (trim (str "zzz qqq xxx yyy good")) <> 0
  /\ Sample.ranking (str "zzz qqq xxx yyy good") <> []
  /\ Number.ge (ratioOf Latin.tables Sample.dictionary Sample.geoTerms
                  (str "zzz qqq xxx yyy good") noOptions)
       (effectiveThreshold noOptions
          (wordsOf Latin.tables Sample.geoTerms (str "zzz qqq xxx yyy good") noOptions))
     = false
  /\ Number.ge (ratioOf Latin.tables Sample.dictionary Sample.geoTerms
                  (str "zzz qqq xxx yyy good") noOptions) 0.7%float = false
  /\ result (Sample.run Sample.ranking "zzz qqq xxx yyy good" noOptions emptyCaches)
     = Returned true.
Proof.
  assert (H0 : Sample.reachable' Sample.ranking emptyCaches) by apply reach_init.
  assert (H1 : length (trim (str "zzz qqq xxx yyy good")) <> 0)
    by (vm_compute; intros H; discriminate H).
  assert (H2 : Sample.ranking (str "zzz qqq xxx yyy good") <> [])
    by (intros H; discriminate H).
  assert (H3 : Number.ge (ratioOf Latin.tables Sample.dictionary Sample.geoTerms
                            (str "zzz qqq xxx yyy good") noOptions)
                 (effectiveThreshold noOptions
                    (wordsOf Latin.tables Sample.geoTerms
                       (str "zzz qqq xxx yyy good") noOptions)) = false)
    by (vm_compute; reflexivity).
  assert (H4 : Number.ge (ratioOf Latin.tables Sample.dictionary Sample.geoTerms
                            (str "zzz qqq xxx yyy good") noOptions) 0.7%float = false)
    by (vm_compute; reflexivity).
  repeat (split; [assumption|]).
  exact (X8_low_ratio_not_rescued Latin.tables Sample.dictionary Sample.geoTerms
           Sample.ranking (str "zzz qqq xxx yyy good") noOptions emptyCaches
           H0 H1 H2 H3 H4).
Defined.

Lemma X9_short_text_ignores_trigrams_witness :
  Sample.reachable' Sample.ranking emptyCaches
  /\ length (trim (str "good zzz qqq")) <> 0
  /\ Sample.ranking (str "good zzz qqq") <> []
  /\ length (wordsOf Latin.tables Sample.geoTerms (str "good zzz qqq") noOptions) <= 4
  /\ result (Sample.run Sample.ranking "good zzz qqq" noOptions emptyCaches)
     = Returned (negb (Number.ge (ratioOf Latin.tables Sample.dictionary Sample.geoTerms
                                    (str "good zzz qqq") noOptions) 0.6%float)).
Proof.
  assert (H0 : Sample.reachable' Sample.ranking emptyCaches) by apply reach_init.
  assert (H1 : length (trim (str "good zzz qqq")) <> 0)
    by (vm_compute; intros H; discriminate H).
  assert (H2 : Sample.ranking (str "good zzz qqq") <> [])
    by (intros H; discriminate H).
  assert (H3 : length (wordsOf Latin.tables Sample.geoTerms (str "good zzz qqq") noOptions)
               <= 4) by (vm_compute; lia).
  repeat (split; [assumption|]).
  exact (X9_short_text_ignores_trigrams Latin.tables Sample.dictionary Sample.geoTerms
           Sample.ranking (str "good zzz qqq") noOptions emptyCaches H0 H1 H2 H3).
Defined.

Lemma X15_allowNumbers_inert_witness :
  digitsAreNotLetters Latin.tables
  /\ lowerCaseKeepsNoDigit Latin.tables
  /\ Sample.reachable' Sample.undetermined emptyCaches
  /\ result (Sample.run Sample.undetermined "12345 67890"
               (withAllowNumbers noOptions (Some true)) emptyCaches)
     = result (Sample.run Sample.undetermined "12345 67890"
                 (withAllowNumbers noOptions (Some false)) emptyCaches).
Proof.
  assert (H0 : Sample.reachable' Sample.undetermined emptyCaches) by apply reach_init.
  split; [exact Latin_digitsAreNotLetters|].
  split; [exact Latin_lowerCaseKeepsNoDigit|].
  split; [exact H0|].
  exact (X15_allowNumbers_inert Latin.tables Sample.dictionary Sample.geoTerms
           Sample.undetermined (VString (str "12345 67890")) noOptions
           (Some true) (Some false) emptyCaches emptyCaches
           Latin_digitsAreNotLetters Latin_lowerCaseKeepsNoDigit H0 H0).
Defined.

(* ------------------------------------------------------------------ *)
(** ** Exclude-words and the caches of the module, once more *)

(** X17. Wherever the pattern built for an exclude-word matches, the
    matched text is as long as the word, equals it character by character
    up to case, and has a [\b] boundary of ASCII word characters right
    before and right after it. *)
Theorem X17_exclude_word_match (U : UnicodeData) (word : jsstring)
    (prev : option N) (rest : list N) (n : nat) :
  RegExp.matchAt U (excludeWordPattern word)
    {| RegExp.before := prev; RegExp.after := rest |} = Some n ->
  exists m post,
    rest = m ++ post
    /\ n = length m
    /\ length m = length word
    /\ Forall2 (fun a ch => RegExp.sameChar U true a ch = true) word m
    /\ atWordBoundary prev rest = true
    /\ atWordBoundary (lastOr prev m) post = true.
Proof.
  intros Hm.
  destruct (excludeWord_match_bounded U word prev rest n Hm)
    as (m & post & Hrest & Hn & Hall & Hb & Hb').
  exists m, post. repeat split; try assumption.
  symmetry. exact (Forall2_length Hall).
Qed.

Lemma X17_exclude_word_match_witness :
  RegExp.matchAt Latin.tables (excludeWordPattern (str "the"))
    {| RegExp.before := Some 228%N; RegExp.after := str "THE end" |} = Some 3
  /\ exists m post,
       str "THE end" = m ++ post
       /\ 3 = length m
       /\ length m = length (str "the")
       /\ Forall2 (fun a ch => RegExp.sameChar Latin.tables true a ch = true) (str "the") m
       /\ atWordBoundary (Some 228%N) (str "THE end") = true
       /\ atWordBoundary (lastOr (Some 228%N) m) post = true.
Proof.
  assert (H0 : RegExp.matchAt Latin.tables (excludeWordPattern (str "the"))
                 {| RegExp.before := Some 228%N; RegExp.after := str "THE end" |} = Some 3)
    by (vm_compute; reflexivity).
  split; [exact H0|].
  exact (X17_exclude_word_match Latin.tables (str "the") (Some 228%N) (str "THE end") 3 H0).
Defined.

(** X18. Escaping makes every character of an exclude-word literal: the
    source text [\b] + escaped word + [\b], read back as a pattern, is
    one pattern character per character of the word between two [\b],
    whatever syntax characters the word holds. *)
Theorem X18_exclude_word_escaped (word : jsstring) :
  RegExpNew (str "\b" ++ escapeRegExp word ++ str "\b") true true false
  = Some (pattern true true false
            (RegExp.seqs (RegExp.WordBoundary :: map RegExp.Char word
                          ++ [RegExp.WordBoundary]))).
Proof. exact (excludeWordPattern_compiled word). Qed.

(** X19. Whatever calls of [detectNonEnglishText], [isEnglish] and
    [clearLanguageDetectorCaches] a client makes, the trigram cache of the
    module holds at most 1000 entries and the word cache at most 5000. *)
Theorem X19_module_caches_bounded U englishDictionary wordsToRemove francAll
    (st : Caches) :
  reachable U englishDictionary wordsToRemove francAll st ->
  JSMap.size (francCache st) <= 1000 /\ JSMap.size (wordCache st) <= 5000.
Proof. exact (reachable_bounded U englishDictionary wordsToRemove francAll st). Qed.

Lemma X19_module_caches_bounded_witness :
  let st := caches (Sample.run Sample.undetermined "zzz qqq the" noOptions emptyCaches) in
  Sample.reachable' Sample.undetermined st
  /\ JSMap.size (francCache st) <= 1000 /\ JSMap.size (wordCache st) <= 5000.
Proof.
  intros st.
  assert (H0 : Sample.reachable' Sample.undetermined st)
    by (apply reach_detect, reach_init).
  split; [exact H0|].
  exact (X19_module_caches_bounded Latin.tables Sample.dictionary Sample.geoTerms
           Sample.undetermined st H0).
Defined.

Section EmptyMatches.

Variable U : UnicodeData.

(** Replacing matches that are all empty by the empty string changes
    nothing. *)
Lemma replaceFrom_empty_matches (R : RegExp.t) (rest : list N) :
  (forall prev r n,
     RegExp.matchAt U R {| RegExp.before := prev; RegExp.after := r |} = Some n -> n = 0) ->
  forall live prev, RegExp.replaceFrom U R [] 0 live prev rest = rest.
Proof.
  intros Hempty. induction rest as [|c rest IH]; intros live prev.
  - cbn [RegExp.replaceFrom]. destruct (live && (0 =? 0)); [|reflexivity].
    destruct (RegExp.matchAt U R _); reflexivity.
  - cbn [RegExp.replaceFrom]. destruct live.
    + destruct (RegExp.matchAt U R _) as [n|] eqn:Hm.
      * rewrite (Hempty _ _ _ Hm). cbn [app]. now rewrite IH.
      * now rewrite IH.
    + now rewrite IH.
Qed.

Lemma excludeWordPattern_empty (prev : option N) (r : list N) (n : nat) :
  RegExp.matchAt U (excludeWordPattern [])
    {| RegExp.before := prev; RegExp.after := r |} = Some n -> n = 0.
Proof.
  intros Hm.
  destruct (excludeWord_match_bounded U [] prev r n Hm) as (m & post & _ & -> & Hall & _).
  inversion Hall. reflexivity.
Qed.

(** X20. An empty string among the exclude-words removes nothing: its
    pattern [\b\b] only matches the empty string, so the text passes
    through that replacement unchanged. *)
Theorem X20_empty_exclude_word (before after : list jsstring) (text : jsstring) :
  removeExcludeWords U (Some (before ++ [] :: after)) text
  = removeExcludeWords U (Some (before ++ after)) text.
Proof.
  unfold removeExcludeWords, removeAll.
  rewrite !map_app, !fold_left_app. cbn [map fold_left].
  f_equal. unfold RegExp.replace, RegExp.input, RegExp.output.
  cbn [excludeWordPattern pattern RegExp.unicode].
  apply replaceFrom_empty_matches. apply excludeWordPattern_empty.
Qed.

End EmptyMatches.

(* ------------------------------------------------------------------ *)
(** ** Texts without a relevant word *)

Section NoRelevantWords.

Variable U : UnicodeData.
Variable englishDictionary : jsstring -> bool.
Variable wordsToRemove : list (jsstring * bool).
Variable francAll : jsstring -> list (jsstring * float).

Local Abbreviation detect := (detectNonEnglishText U englishDictionary wordsToRemove francAll).
Local Abbreviation wordsOf' := (wordsOf U wordsToRemove).

(** The test of line 511: the word is skipped by the loop. *)
Definition skipped (minWordLength : float) (word : jsstring) : bool :=
  Number.lt
    (Number.ofNat (length (trim (RegExp.replace U WORD_PUNCTUATION_REGEX [] word))))
    minWordLength.

Lemma countWords_skipped mwl wo words eng total st :
  forallb (skipped mwl) words = true ->
  countWords U englishDictionary mwl wo words eng total st = (Returned (eng, total), st).
Proof.
  induction words as [|word rest IH]; intros Hall; [reflexivity|].
  cbn [forallb] in Hall. apply andb_true_iff in Hall. destruct Hall as [Hw Hrest].
  cbn [countWords]. unfold skipped in Hw. rewrite Hw. exact (IH Hrest).
Qed.

Lemma detect_all_skipped (s : jsstring) (o : DetectionOptions) (st : Caches) :
  forallb (skipped (orDefault (minWordLength o) 2%float)) (wordsOf' s o) = true ->
  length (wordsOf' s o) <= 4
  \/ Number.ge 1.0%float (orDefault (englishThreshold o) 0.8%float) = true ->
  detect (VString s) o st = (Returned false, st).
Proof.
  intros Hall Hthr. rewrite detectNonEnglishText_unfold.
  destruct (isNonEmptyString (VString s)) as [s'|] eqn:Hs; [|reflexivity].
  assert (s' = s) as ->.
  { unfold isNonEmptyString in Hs. destruct (0 <? length s)%nat; congruence. }
  destruct (length (trim s) =? 0)%nat; [reflexivity|].
  destruct (length (wordsOf' s o) =? 0)%nat; [reflexivity|].
  unfold bind. rewrite (countWords_skipped _ _ _ 0 0 st Hall).
  cbn [fst snd]. unfold englishRatioOf. cbn [Nat.ltb Nat.leb].
  assert (Hge : Number.ge 1.0%float (effectiveThreshold o (wordsOf' s o)) = true).
  { unfold effectiveThreshold.
    destruct (length (wordsOf' s o) <=? 4)%nat eqn:Hlen; [vm_compute; reflexivity|].
    destruct Hthr as [Hle|Hge]; [|exact Hge].
    apply Nat.leb_gt in Hlen. lia. }
  rewrite Hge. reflexivity.
Qed.

(** X21. When the loop skips every word of the preprocessed text (each
    one, stripped of its punctuation, is shorter than [minWordLength]),
    no word is looked up, the ratio is 1.0 and the call returns [false]
    without touching either cache, provided the threshold in force is at
    most 1: the text has at most four tokens or the configured threshold
    is at most 1. *)
Theorem X21_no_relevant_word (s : jsstring) (o : DetectionOptions) (st : Caches) :
  Forall (fun word => skipped (orDefault (minWordLength o) 2%float) word = true)
         (wordsOf' s o) ->
  length (wordsOf' s o) <= 4
  \/ Number.ge 1.0%float (orDefault (englishThreshold o) 0.8%float) = true ->
  result (detect (VString s) o st) = Returned false
  /\ caches (detect (VString s) o st) = st.
Proof.
  intros Hall Hthr.
  rewrite (detect_all_skipped s o st); [split; reflexivity| |exact Hthr].
  apply forallb_forall. intros w Hw.
  exact (proj1 (Forall_forall _ _) Hall w Hw).
Qed.

End NoRelevantWords.

Lemma X21_no_relevant_word_witness :
  let words := wordsOf Latin.tables Sample.geoTerms (str "a b c d e, f g h") noOptions in
  Forall (fun word => skipped Latin.tables 2%float word = true) words
  /\ (length words <= 4 \/ Number.ge 1.0%float 0.8%float = true)
  /\ result (Sample.run Sample.ranking "a b c d e, f g h" noOptions emptyCaches)
     = Returned false
  /\ caches (Sample.run Sample.ranking "a b c d e, f g h" noOptions emptyCaches)
     = emptyCaches.
Proof.
  intros words.
  assert (H0 : Forall (fun word => skipped Latin.tables 2%float word = true) words)
    by (apply Forall_forall, forallb_forall; vm_compute; reflexivity).
  assert (H1 : length words <= 4 \/ Number.ge 1.0%float 0.8%float = true)
    by (right; vm_compute; reflexivity).
  split; [exact H0|]. split; [exact H1|].
  exact (X21_no_relevant_word Latin.tables Sample.dictionary Sample.geoTerms
           Sample.ranking (str "a b c d e, f g h") noOptions emptyCaches H0 H1).
Defined.

(* ------------------------------------------------------------------ *)
(** ** Texts without a letter *)

Lemma codePoints_bmp (s : jsstring) :
  Forall (fun c => (c <? 55296)%N = true) s -> codePoints s = s.
Proof.
  unfold codePoints. induction 1 as [|c t Hc _ IH]; [reflexivity|].
  cbn [codePointsFrom].
  assert (Hh : isHighSurrogate c = false).
  { unfold isHighSurrogate. apply N.ltb_lt in Hc.
    apply andb_false_iff. left. apply N.leb_gt. exact Hc. }
  rewrite Hh, IH. reflexivity.
Qed.

Lemma fromCodePoints_bmp (cps : list N) :
  Forall (fun c => (c <? 55296)%N = true) cps -> fromCodePoints cps = cps.
Proof.
  unfold fromCodePoints. induction 1 as [|c t Hc _ IH]; [reflexivity|].
  cbn [flat_map]. rewrite IH. unfold utf16.
  assert (Hb : (c <? 65536)%N = true) by (apply N.ltb_lt in Hc; apply N.ltb_lt; lia).
  rewrite Hb. reflexivity.
Qed.

Lemma split_no_separator (sep : N) (s w : list N) (c : N) :
  In w (split sep s) -> In c w -> c <> sep.
Proof.
  revert w. induction s as [|d r IH]; intros w; simpl.
  - intros [<-|[]] [].
  - destruct (d =? sep)%N eqn:Hd.
    + intros [<-|Hin] Hc; [contradiction|]. exact (IH w Hin Hc).
    + pose proof (split_nonempty sep r) as Hne.
      destruct (split sep r) as [|w0 ws]; [contradiction|].
      apply N.eqb_neq in Hd.
      intros [<-|Hin] Hc.
      * destruct Hc as [<-|Hc]; [exact Hd|]. apply (IH w0); [now left|exact Hc].
      * apply (IH w); [now right|exact Hc].
Qed.

Section Letterless.

Variable U : UnicodeData.
Variable englishDictionary : jsstring -> bool.
Variable wordsToRemove : list (jsstring * bool).
Variable francAll : jsstring -> list (jsstring * float).

Local Abbreviation detect := (detectNonEnglishText U englishDictionary wordsToRemove francAll).

(** A code unit outside the surrogate range that is the space or no
    letter. *)
Definition letterless (c : N) : Prop :=
  (c <? 55296)%N = true /\ (c = SPACE \/ isLetter U c = false).

Lemma letterless_bmp (t : jsstring) :
  Forall letterless t -> Forall (fun c => (c <? 55296)%N = true) t.
Proof. apply Forall_impl. intros c [Hc _]. exact Hc. Qed.

Lemma letterless_space : letterless SPACE.
Proof. split; [reflexivity|now left]. Qed.

(** Removing the matches of any pattern leaves a letterless text
    letterless. *)
Lemma replace_letterless (R : RegExp.t) (t : jsstring) :
  Forall letterless t -> Forall letterless (RegExp.replace U R [] t).
Proof.
  intros Ht. unfold RegExp.replace, RegExp.input, RegExp.output.
  assert (Hout : Forall letterless (RegExp.replaceFrom U R [] 0 true None t)).
  { apply Forall_forall. intros c Hc.
    destruct (replaceFrom_incl U R [] 0 true None t c Hc) as [[]|Hin].
    exact (proj1 (Forall_forall _ _) Ht c Hin). }
  destruct (RegExp.unicode R).
  - rewrite (codePoints_bmp t (letterless_bmp t Ht)).
    change (codePoints []) with (@nil N).
    rewrite (fromCodePoints_bmp _ (letterless_bmp _ Hout)). exact Hout.
  - exact Hout.
Qed.

Lemma removeAll_letterless (patterns : list RegExp.t) (t : jsstring) :
  Forall letterless t -> Forall letterless (removeAll U patterns t).
Proof.
  unfold removeAll. revert t. induction patterns as [|R Rs IH]; intros t Ht; [exact Ht|].
  cbn [fold_left]. apply IH, replace_letterless, Ht.
Qed.

Lemma normalizeWhitespace_letterless (t : jsstring) :
  Forall letterless t -> Forall letterless (normalizeWhitespace U t).
Proof.
  intros Ht. apply Forall_forall. intros c Hc.
  destruct (normalizeWhitespace_In U t c Hc) as [->|[Hin _]]; [apply letterless_space|].
  exact (proj1 (Forall_forall _ _) Ht c Hin).
Qed.

(** What is left of a letterless text after preprocessing: spaces and
    the punctuation [NON_LETTER_REGEX] keeps. *)
Lemma preprocessText_letterless (text : jsstring) (cps : option (list RegExp.t))
    (ews : option (list jsstring)) (c : N) :
  Forall letterless text ->
  In c (preprocessText U wordsToRemove text cps ews) ->
  c = SPACE \/ In c punctuationKept.
Proof.
  intros Htext. unfold preprocessText.
  set (processed := removeExcludeWords U ews _).
  assert (Hp : Forall letterless processed).
  { unfold processed, removeExcludeWords, removeCustomPatterns,
      removeGeographicalTerms, removeDocumentPatterns.
    assert (H1 : Forall letterless (normalizeWhitespace U
                    (removeAll U DOCUMENT_PATTERNS_REMOVE text)))
      by apply normalizeWhitespace_letterless, removeAll_letterless, Htext.
    set (t1 := normalizeWhitespace U (removeAll U DOCUMENT_PATTERNS_REMOVE text)) in *.
    assert (H2 : Forall letterless
                   match t1 with
                   | [] => t1
                   | _ :: _ => normalizeWhitespace U
                                 (removeAll U (GEO_TERM_PATTERNS wordsToRemove) t1)
                   end).
    { destruct t1; [constructor|].
      apply normalizeWhitespace_letterless, removeAll_letterless, H1. }
    destruct cps as [ps|]; destruct ews as [ws|];
      repeat apply removeAll_letterless; exact H2. }
  clearbody processed. intros Hin.
  apply normalizeWhitespace_In in Hin. destruct Hin as [->|[Hin Hws]]; [now left|].
  rewrite nonLetter_replace in Hin.
  rewrite (codePoints_bmp processed (letterless_bmp _ Hp)) in Hin.
  rewrite fromCodePoints_bmp in Hin.
  - apply in_flat_map in Hin. destruct Hin as (cp & Hcp & Hc).
    destruct (accepts U false true nonLetterItems cp) eqn:Hacc.
    + destruct Hc as [<-|[]]. now left.
    + destruct Hc as [<-|[]].
      destruct (nonLetter_kept U cp Hacc) as [Hl|[Hw|Hk]].
      * destruct (proj1 (Forall_forall _ _) Hp cp Hcp) as [_ [->|Hn]]; [now left|].
        congruence.
      * congruence.
      * now right.
  - apply Forall_forall. intros cp Hcp.
    apply in_flat_map in Hcp. destruct Hcp as (cp' & Hcp' & Hc).
    destruct (accepts U false true nonLetterItems cp').
    + destruct Hc as [<-|[]]. reflexivity.
    + destruct Hc as [<-|[]]. exact (proj1 (proj1 (Forall_forall _ _) Hp cp' Hcp')).
Qed.

Lemma wordPunctuation_strips (word : jsstring) :
  Forall (fun c => In c punctuationKept) word ->
  RegExp.replace U WORD_PUNCTUATION_REGEX [] word = [].
Proof.
  intros Hw. unfold RegExp.replace, RegExp.input, RegExp.output, WORD_PUNCTUATION_REGEX.
  cbn [RegExp.unicode pattern]. rewrite replaceFrom_class.
  induction Hw as [|c r Hc _ IH]; [reflexivity|].
  cbn [flat_map]. rewrite IH, app_nil_r.
  vm_compute in Hc.
  repeat (destruct Hc as [<-|Hc]; [vm_compute; reflexivity|]).
  contradiction.
Qed.

Lemma letterless_words_skipped (text : jsstring) (o : DetectionOptions) :
  Forall letterless text ->
  Number.lt (Number.ofNat 0) (orDefault (minWordLength o) 2%float) = true ->
  forallb (skipped U (orDefault (minWordLength o) 2%float))
          (wordsOf U wordsToRemove text o) = true.
Proof.
  intros Htext Hmin. apply forallb_forall. intros w Hw. unfold skipped.
  rewrite wordPunctuation_strips; [exact Hmin|].
  apply Forall_forall. intros c Hc. unfold wordsOf in Hw.
  destruct (preprocessText_letterless text _ _ c Htext (split_In _ _ _ _ Hw Hc))
    as [->|Hk]; [|exact Hk].
  exfalso. exact (split_no_separator _ _ _ _ Hw Hc eq_refl).
Qed.

(** X22. A text without letters (digits, symbols, punctuation, white
    space; no surrogate code units) is never reported as non-English:
    whatever the dictionary, the geographical terms, the custom patterns
    and the exclude-words, preprocessing leaves only punctuation, every
    word is skipped, and the call returns [false] without touching either
    cache, as long as [minWordLength] is above 0 and the configured
    threshold is at most 1. *)
Theorem X22_letterless_text (text : jsstring) (o : DetectionOptions) (st : Caches) :
  Forall (fun c => (c <? 55296)%N = true /\ isLetter U c = false) text ->
  Number.lt (Number.ofNat 0) (orDefault (minWordLength o) 2%float) = true ->
  Number.ge 1.0%float (orDefault (englishThreshold o) 0.8%float) = true ->
  result (detect (VString text) o st) = Returned false
  /\ caches (detect (VString text) o st) = st.
Proof.
  intros Htext Hmin Hthr.
  assert (Hl : Forall letterless text).
  { revert Htext. apply Forall_impl. intros c [Hc Hn]. split; [exact Hc|now right]. }
  rewrite (detect_all_skipped U englishDictionary wordsToRemove francAll text o st
             (letterless_words_skipped text o Hl Hmin) (or_intror Hthr)).
  split; reflexivity.
Qed.

End Letterless.

Lemma X22_letterless_text_witness :
  Forall (fun c => (c <? 55296)%N = true /\ isLetter Latin.tables c = false)
         (str "+1 (555) 010-9999 #42 = 3.14 ??? 2024-11-02")
  /\ Number.lt (Number.ofNat 0) 2%float = true
  /\ Number.ge 1.0%float 0.8%float = true
  /\ result (Sample.run Sample.ranking "+1 (555) 010-9999 #42 = 3.14 ??? 2024-11-02"
               noOptions emptyCaches) = Returned false
  /\ caches (Sample.run Sample.ranking "+1 (555) 010-9999 #42 = 3.14 ??? 2024-11-02"
               noOptions emptyCaches) = emptyCaches.
Proof.
  assert (H0 : Forall (fun c => (c <? 55296)%N = true /\ isLetter Latin.tables c = false)
                 (str "+1 (555) 010-9999 #42 = 3.14 ??? 2024-11-02"))
    by (vm_compute; repeat constructor).
  assert (H1 : Number.lt (Number.ofNat 0) 2%float = true) by (vm_compute; reflexivity).
  assert (H2 : Number.ge 1.0%float 0.8%float = true) by (vm_compute; reflexivity).
  split; [exact H0|]. split; [exact H1|]. split; [exact H2|].
  exact (X22_letterless_text Latin.tables Sample.dictionary Sample.geoTerms
           Sample.ranking (str "+1 (555) 010-9999 #42 = 3.14 ??? 2024-11-02")
           noOptions emptyCaches H0 H1 H2).
Defined.

(* ------------------------------------------------------------------ *)
(** ** The character screen behind the ASCII filter *)

(** Upper-casing keeps ASCII characters ASCII. *)
Definition asciiUpperStays (U : UnicodeData) : Prop :=
  forall ch cu, (ch < 128)%N -> toUpperCase U [ch] = [cu] -> (cu < 128)%N.

Section CharacterScreen.

Variable U : UnicodeData.
Hypothesis Hupper : asciiUpperStays U.

Lemma canonicalize_ascii (ch : N) : (ch < 128)%N -> (RegExp.canonicalize U ch < 128)%N.
Proof.
  intros Hch. unfold RegExp.canonicalize.
  destruct (toUpperCase U [ch]) as [|cu [|? ?]] eqn:E; try exact Hch.
  assert (Hlo : (128 <=? ch)%N = false) by (apply N.leb_gt; exact Hch).
  rewrite Hlo. cbn [andb]. exact (Hupper ch cu Hch E).
Qed.

Lemma canonicalize_beyond (a : N) : (128 <= a)%N -> (128 <= RegExp.canonicalize U a)%N.
Proof.
  intros Ha. unfold RegExp.canonicalize.
  destruct (toUpperCase U [a]) as [|cu [|? ?]]; try exact Ha.
  assert (Hlo : (128 <=? a)%N = true) by (apply N.leb_le; exact Ha).
  rewrite Hlo. cbn [andb].
  destruct (cu <? 128)%N eqn:Hcu; [exact Ha|]. apply N.ltb_ge in Hcu. exact Hcu.
Qed.

Lemma accepts_beyond_ascii (items : list RegExp.classItem) (ch : N) :
  Forall (fun it => exists a, it = RegExp.CChar a /\ (128 <= a)%N) items ->
  (ch < 128)%N ->
  accepts U true false items ch = false.
Proof.
  intros Hitems Hch. unfold accepts. cbn [xorb].
  induction Hitems as [|it its (a & -> & Ha) _ IH]; [reflexivity|].
  cbn [existsb RegExp.inItem]. rewrite IH, orb_false_r.
  unfold RegExp.sameChar. apply N.eqb_neq.
  pose proof (canonicalize_ascii ch Hch). pose proof (canonicalize_beyond a Ha). lia.
Qed.

Lemma isEnglishChar_ascii (c : N) : isEnglishChar c = true -> (c < 128)%N.
Proof. unfold isEnglishChar. intros H. nbool; lia. Qed.

(** X23. Behind the ASCII filter the character screen is idle: a word
    that passes [hasOnlyEnglishCharacters] never satisfies
    [hasNonEnglishCharacters], since case folding keeps the accented
    characters of the class apart from every ASCII character. Inside
    [isEnglishWord] only the endings, the vocabulary and the function
    words can reject a word. *)
Theorem X23_character_screen_idle (word : jsstring) :
  hasOnlyEnglishCharacters U word = true ->
  hasNonEnglishCharacters U word = false
  /\ hasObviousNonEnglishIndicators U word
     = (2 <=? length word)%nat
       && (hasNonEnglishEndings U word
           || hasNonEnglishWordPatterns U word
           || RegExp.test U NON_ENGLISH_FUNCTION_WORDS_REGEX word).
Proof.
  rewrite englishChars_test. intros Hw.
  apply andb_true_iff in Hw. destruct Hw as [_ Hw].
  assert (Hascii : Forall (fun c => (c < 128)%N) word).
  { apply Forall_forall. intros c Hc.
    exact (isEnglishChar_ascii c (proj1 (forallb_forall _ _) Hw c Hc)). }
  assert (Hchars : hasNonEnglishCharacters U word = false).
  { unfold hasNonEnglishCharacters, RegExp.test, RegExp.input, NON_ENGLISH_CHARS_REGEX.
    cbn [RegExp.unicode pattern].
    apply (searchFrom_no_match U _ (Forall (fun c => (c < 128)%N))); [| |exact Hascii].
    - intros c r Hc. now inversion Hc.
    - intros prev [|c r] Hr; [reflexivity|].
      rewrite matchAt_class. rewrite accepts_beyond_ascii; [reflexivity| |now inversion Hr].
      vm_compute. repeat (constructor; [eexists; split; [reflexivity|discriminate]|]).
      constructor. }
  split; [exact Hchars|].
  assert (Hspace : includes SPACE word = false).
  { unfold includes. destruct (existsb (N.eqb SPACE) word) eqn:Hex; [|reflexivity].
    apply existsb_exists in Hex. destruct Hex as (c & Hc & Heq).
    apply N.eqb_eq in Heq. subst c.
    pose proof (proj1 (forallb_forall _ _) Hw SPACE Hc) as Hsp.
    vm_compute in Hsp. discriminate Hsp. }
  unfold hasObviousNonEnglishIndicators. rewrite Hspace, Hchars. cbn [negb andb orb].
  destruct (length word) as [|[|n]]; cbn [Nat.ltb Nat.leb]; [reflexivity|reflexivity|].
  cbn [andb]. destruct (hasNonEnglishEndings U word); reflexivity.
Qed.

End CharacterScreen.

Lemma Latin_asciiUpperStays : asciiUpperStays Latin.tables.
Proof.
  intros ch cu Hch Heq.
  assert (Hall : forallb (fun c => match toUpperCase Latin.tables [c] with
                                   | [u] => (u <? 128)%N
                                   | _ => true
                                   end) (RegExp.range 0 127) = true)
    by (vm_compute; reflexivity).
  assert (Hin : In ch (RegExp.range 0 127)) by (apply range_In; lia).
  pose proof (proj1 (forallb_forall _ _) Hall ch Hin) as Hc. cbv beta in Hc.
  rewrite Heq in Hc. apply N.ltb_lt. exact Hc.
Qed.

Lemma X23_character_screen_idle_witness :
  asciiUpperStays Latin.tables
  /\ hasOnlyEnglishCharacters Latin.tables (str "heiterkeit") = true
  /\ hasNonEnglishCharacters Latin.tables (str "heiterkeit") = false
  /\ hasObviousNonEnglishIndicators Latin.tables (str "heiterkeit")
     = (2 <=? length (str "heiterkeit"))%nat
       && (hasNonEnglishEndings Latin.tables (str "heiterkeit")
           || hasNonEnglishWordPatterns Latin.tables (str "heiterkeit")
           || RegExp.test Latin.tables NON_ENGLISH_FUNCTION_WORDS_REGEX (str "heiterkeit")).
Proof.
  assert (H0 : hasOnlyEnglishCharacters Latin.tables (str "heiterkeit") = true)
    by (vm_compute; reflexivity).
  split; [exact Latin_asciiUpperStays|]. split; [exact H0|].
  exact (X23_character_screen_idle Latin.tables Latin_asciiUpperStays
           (str "heiterkeit") H0).
Defined.

(** X24. The key of the word cache determines the word and both
    options: two lookups share an entry only when they ask the same
    question, whatever underscores or [true]/[false] the words hold. *)
Theorem X24_wordCacheKey_injective (w w' : jsstring) (wo wo' : WordOptions) :
  wordCacheKey w wo = wordCacheKey w' wo' -> w = w' /\ wo = wo'.
Proof. exact (wordCacheKey_inj w wo w' wo'). Qed.

Lemma X24_wordCacheKey_injective_witness :
  let wo := {| woAllowNumbers := true; woAllowAbbreviations := false |} in
  wordCacheKey (str "a_true") wo = wordCacheKey (str "a_true") wo
  /\ str "a_true" = str "a_true" /\ wo = wo.
Proof.
  intros wo. split; [reflexivity|].
  exact (X24_wordCacheKey_injective (str "a_true") (str "a_true") wo wo eq_refl).
Defined.

(* ------------------------------------------------------------------ *)
(** ** The listed vocabulary *)

(** The alternatives of [a1|a2|...]. *)
Fixpoint alternativesOf (r : RegExp.regex) : list RegExp.regex :=
  match r with
  | RegExp.Alt a b => alternativesOf a ++ [b]
  | _ => [r]
  end.

(** The word an alternative spells, when it is a run of pattern
    characters. *)
Fixpoint spelled (r : RegExp.regex) : option jsstring :=
  match r with
  | RegExp.Empty => Some []
  | RegExp.Seq (RegExp.Char c) r' => option_map (cons c) (spelled r')
  | _ => None
  end.

(** The words a pattern [^(w1|w2|...)$] lists. *)
Definition listedWords (p : RegExp.t) : list jsstring :=
  match RegExp.source p with
  | RegExp.Seq RegExp.InputStart (RegExp.Seq body (RegExp.Seq RegExp.InputEnd RegExp.Empty)) =>
      flat_map (fun r => match spelled r with Some w => [w] | None => [] end)
               (alternativesOf body)
  | _ => []
  end.

Lemma spelled_literal (r : RegExp.regex) (w : jsstring) :
  spelled r = Some w -> r = RegExp.literal w.
Proof.
  revert w. induction r as [| | | |a _ b IHb| | | | |]; intros w; simpl; try discriminate.
  - intros [= <-]. reflexivity.
  - destruct a; try discriminate.
    destruct (spelled b) as [w'|]; [|discriminate].
    intros [= <-]. now rewrite (IHb w' eq_refl).
Qed.

Section Vocabulary.

Variable U : UnicodeData.
Variable englishDictionary : jsstring -> bool.

Import RegExp.

Lemma matcher_alternatives (icase : bool) (r : regex) (x : position)
    (k : position -> option position) :
  (exists a, In a (alternativesOf r) /\ matcher U icase a x k <> None) ->
  matcher U icase r x k <> None.
Proof.
  induction r as [| | | | |a IHa b _| | | |];
    try (intros (r' & [<-|[]] & Hm); exact Hm).
  intros (r' & Hin & Hm). cbn [alternativesOf] in Hin. cbn [matcher].
  apply in_app_iff in Hin.
  destruct (matcher U icase a x k) eqn:Ha; [discriminate|].
  destruct Hin as [Hin|[<-|[]]]; [|exact Hm].
  exfalso. apply IHa; [|reflexivity]. exists r'. split; assumption.
Qed.

Lemma matcher_literal (icase : bool) (w : list N) (prev : option N) (rest : list N)
    (k : position -> option position) :
  matcher U icase (literal w) {| before := prev; after := w ++ rest |} k
  = k {| before := lastOr prev w; after := rest |}.
Proof.
  pose proof (matcher_word U icase w [] prev rest k) as H.
  rewrite app_nil_r in H. exact H.
Qed.

(** A pattern [^(w1|w2|...)$] holds of each word it lists, spelled as
    listed. *)
Lemma listed_test (p : RegExp.t) (word : jsstring) :
  unicode p = false -> In word (listedWords p) -> RegExp.test U p word = true.
Proof.
  intros Hu. unfold listedWords.
  destruct (source p) as [| | | |a b| | | | |] eqn:Hsrc; try contradiction.
  destruct a; try contradiction.
  destruct b as [| | | |body c| | | | |]; try contradiction.
  destruct c as [| | | |e f| | | | |]; try contradiction.
  destruct e; try contradiction. destruct f; try contradiction.
  intros Hin. apply in_flat_map in Hin. destruct Hin as (r & Hr & Hw).
  destruct (spelled r) as [w|] eqn:Hsp; [|contradiction].
  destruct Hw as [<-|[]]. apply spelled_literal in Hsp. subst r.
  rewrite (test_anchored U p _ w Hsrc Hu). cbn [matcher].
  destruct (matcher U (ignoreCase p) body _ _) eqn:Hm; [reflexivity|].
  exfalso. revert Hm. apply matcher_alternatives.
  exists (literal w). split; [exact Hr|].
  rewrite <- (app_nil_r w) at 2. rewrite matcher_literal. cbn [after]. discriminate.
Qed.

(** X25. A word spelled as in [NON_ENGLISH_FUNCTION_WORDS_REGEX] or in
    one of the [NON_ENGLISH_WORD_PATTERNS], two characters or longer,
    always shows a non-English indicator and is never an English word for
    [isEnglishWord], whatever the dictionary holds and whatever the
    options: [want], [come], [die], [mine] and [door] are among them. *)
Theorem X25_listed_words_rejected (p : RegExp.t) (word : jsstring) (wo : WordOptions) :
  In p (NON_ENGLISH_FUNCTION_WORDS_REGEX :: NON_ENGLISH_WORD_PATTERNS) ->
  In word (listedWords p) ->
  2 <= length word ->
  hasObviousNonEnglishIndicators U word = true
  /\ isEnglishWord U englishDictionary word wo = false.
Proof.
  intros Hp Hword Hlen.
  assert (Hu : unicode p = false).
  { assert (Hall : forallb (fun q => negb (unicode q))
                     (NON_ENGLISH_FUNCTION_WORDS_REGEX :: NON_ENGLISH_WORD_PATTERNS) = true)
      by (vm_compute; reflexivity).
    apply negb_true_iff. exact (proj1 (forallb_forall _ _) Hall p Hp). }
  assert (Hdigits : forallb isDigit word = false).
  { assert (Hall : forallb (fun w => negb (forallb isDigit w))
                     (flat_map listedWords
                        (NON_ENGLISH_FUNCTION_WORDS_REGEX :: NON_ENGLISH_WORD_PATTERNS)) = true)
      by (vm_compute; reflexivity).
    apply negb_true_iff. apply (proj1 (forallb_forall _ _) Hall word).
    apply in_flat_map. exists p. split; assumption. }
  pose proof (listed_test p word Hu Hword) as Htest.
  assert (Hind : hasObviousNonEnglishIndicators U word = true).
  { unfold hasObviousNonEnglishIndicators.
    assert (Hl : (length word <? 2)%nat = false) by (apply Nat.ltb_ge; exact Hlen).
    rewrite Hl. destruct (negb (includes SPACE word) && _); [reflexivity|].
    destruct Hp as [<-|Hp].
    - rewrite Htest. apply orb_true_r.
    - apply orb_true_iff. left. unfold hasNonEnglishWordPatterns.
      apply existsb_exists. exists p. split; assumption. }
  split; [exact Hind|].
  unfold isEnglishWord. rewrite Hind, (numbersOnly_test U), Hdigits.
  rewrite !andb_false_r. destruct (negb (hasOnlyEnglishCharacters U word)); reflexivity.
Qed.

End Vocabulary.

Lemma X25_listed_words_rejected_witness :
  let p := nth 4 NON_ENGLISH_WORD_PATTERNS NON_ENGLISH_FUNCTION_WORDS_REGEX in
  let wo := {| woAllowNumbers := true; woAllowAbbreviations := true |} in
  In p (NON_ENGLISH_FUNCTION_WORDS_REGEX :: NON_ENGLISH_WORD_PATTERNS)
  /\ In (str "want") (listedWords p)
  /\ 2 <= length (str "want")
  /\ hasObviousNonEnglishIndicators Latin.tables (str "want") = true
  /\ isEnglishWord Latin.tables (fun _ => true) (str "want") wo = false.
Proof.
  intros p wo.
  assert (H0 : In p (NON_ENGLISH_FUNCTION_WORDS_REGEX :: NON_ENGLISH_WORD_PATTERNS))
    by (right; do 4 right; left; reflexivity).
  assert (H1 : In (str "want") (listedWords p))
    by (vm_compute; do 11 right; left; reflexivity).
  assert (H2 : 2 <= length (str "want")) by (vm_compute; lia).
  split; [exact H0|]. split; [exact H1|]. split; [exact H2|].
  exact (X25_listed_words_rejected Latin.tables (fun _ => true) p (str "want") wo H0 H1 H2).
Defined.

(* ------------------------------------------------------------------ *)
(** ** The listed endings *)

(** The endings a pattern [(?:e1|e2|...)$] lists. *)
Definition listedEndings (p : RegExp.t) : list jsstring :=
  match RegExp.source p with
  | RegExp.Seq body (RegExp.Seq RegExp.InputEnd RegExp.Empty) =>
      flat_map (fun r => match spelled r with Some w => [w] | None => [] end)
               (alternativesOf body)
  | _ => []
  end.

Section Endings.

Variable U : UnicodeData.
Variable englishDictionary : jsstring -> bool.

Import RegExp.

Lemma searchFrom_found (R : RegExp.t) (pre rest : list N) (prev : option N) :
  matchAt U R {| before := lastOr prev pre; after := rest |} <> None ->
  searchFrom U R prev (pre ++ rest) = true.
Proof.
  revert prev. induction pre as [|c pre IH]; intros prev Hm.
  - change (lastOr prev []) with prev in Hm. cbn [app].
    destruct rest; cbn [searchFrom]; destruct (matchAt U R _); congruence.
  - cbn [app searchFrom].
    destruct (matchAt U R {| before := prev; after := c :: pre ++ rest |});
      [reflexivity|].
    apply IH. rewrite <- (lastOr_cons prev). exact Hm.
Qed.

(** A pattern [(?:e1|e2|...)$] holds of every word that ends with one of
    the endings it lists. *)
Lemma ending_test (p : RegExp.t) (stem ending : jsstring) :
  unicode p = false -> In ending (listedEndings p) ->
  RegExp.test U p (stem ++ ending) = true.
Proof.
  intros Hu. unfold listedEndings.
  destruct (source p) as [| | | |body c| | | | |] eqn:Hsrc; try contradiction.
  destruct c as [| | | |e f| | | | |]; try contradiction.
  destruct e; try contradiction. destruct f; try contradiction.
  intros Hin. apply in_flat_map in Hin. destruct Hin as (r & Hr & Hw).
  destruct (spelled r) as [w|] eqn:Hsp; [|contradiction].
  destruct Hw as [<-|[]]. apply spelled_literal in Hsp. subst r.
  unfold RegExp.test, input. rewrite Hu. apply searchFrom_found.
  unfold matchAt. rewrite Hsrc. cbn [matcher].
  destruct (matcher U (ignoreCase p) body _ _) eqn:Hm; [discriminate|].
  exfalso. revert Hm. apply matcher_alternatives.
  exists (literal w). split; [exact Hr|].
  rewrite <- (app_nil_r w) at 2. rewrite matcher_literal. cbn [after]. discriminate.
Qed.

(** X26. A single word that ends with one of the endings listed in
    [NON_ENGLISH_ENDINGS_REGEX] ([keit], [schaft], [zione], [mente],
    [baar], [lijk], [eur], [agem], ...) always shows a non-English
    indicator and is never an English word for [isEnglishWord], whatever
    the dictionary holds and whatever the options: [amateur] and
    [grandeur] are among them. *)
Theorem X26_listed_endings_rejected (stem ending : jsstring) (wo : WordOptions) :
  In ending (listedEndings NON_ENGLISH_ENDINGS_REGEX) ->
  includes SPACE (stem ++ ending) = false ->
  hasObviousNonEnglishIndicators U (stem ++ ending) = true
  /\ isEnglishWord U englishDictionary (stem ++ ending) wo = false.
Proof.
  intros Hending Hspace.
  assert (Hall : forallb (fun e => (2 <=? length e)%nat && negb (forallb isDigit e))
                         (listedEndings NON_ENGLISH_ENDINGS_REGEX) = true)
    by (vm_compute; reflexivity).
  pose proof (proj1 (forallb_forall _ _) Hall ending Hending) as He.
  apply andb_true_iff in He. destruct He as [Hlen Hdig].
  apply Nat.leb_le in Hlen. apply negb_true_iff in Hdig.
  pose proof (ending_test NON_ENGLISH_ENDINGS_REGEX stem ending eq_refl Hending) as Htest.
  assert (Hind : hasObviousNonEnglishIndicators U (stem ++ ending) = true).
  { unfold hasObviousNonEnglishIndicators, hasNonEnglishEndings.
    assert (Hl : (length (stem ++ ending) <? 2)%nat = false)
      by (apply Nat.ltb_ge; rewrite length_app; lia).
    rewrite Hl, Hspace, Htest. cbn [negb andb]. rewrite orb_true_r. reflexivity. }
  split; [exact Hind|].
  unfold isEnglishWord. rewrite Hind, (numbersOnly_test U), forallb_app, Hdig.
  rewrite !andb_false_r.
  destruct (negb (hasOnlyEnglishCharacters U (stem ++ ending))); reflexivity.
Qed.

End Endings.

Lemma X26_listed_endings_rejected_witness :
  let wo := {| woAllowNumbers := true; woAllowAbbreviations := true |} in
  In (str "eur") (listedEndings NON_ENGLISH_ENDINGS_REGEX)
  /\ includes SPACE (str "amat" ++ str "eur") = false
  /\ hasObviousNonEnglishIndicators Latin.tables (str "amat" ++ str "eur") = true
  /\ isEnglishWord Latin.tables (fun _ => true) (str "amat" ++ str "eur") wo = false.
Proof.
  intros wo.
  assert (H0 : In (str "eur") (listedEndings NON_ENGLISH_ENDINGS_REGEX))
    by (vm_compute; do 7 right; left; reflexivity).
  assert (H1 : includes SPACE (str "amat" ++ str "eur") = false) by (vm_compute; reflexivity).
  split; [exact H0|]. split; [exact H1|].
  exact (X26_listed_endings_rejected Latin.tables (fun _ => true)
           (str "amat") (str "eur") wo H0 H1).
Defined.
